(** * MIDAS: the retrieval scorer, the latency profiler, the audio encoder,
      the settings store, the streaming chat pipeline, the knowledge base
      endpoints and the model downloader, embedded from the Python sources.

    Layout: the definitions come first: one module per source file ([Py]
    for the builtins the sources call, then [Rag], [Utils], [Config],
    [Routes], [Download]), and then the predicates and the example data
    that the statements use.  The lemmas and the theorems follow,
    component by component.

    Modelling conventions.
    - A Python [str] is a list of code points.  The model takes code points
      below 256, held in [ascii]; the character classes ([str.isspace], the
      regular expression class [\w], [str.lower]) are CPython's tables on
      that range.
    - Floats that are only stored, subtracted, scaled and compared (clock
      readings, durations) are exact rationals [Q].
    - The samples of an audio tensor are IEEE 754 binary numbers,
      [SpecFloat.spec_float], and their product is the correctly rounded
      one, [SpecFloat.SFmul]; bytes are the integers 0 to 255.
    - Logging is left out; every other effect is explicit state passing.
    - A text file holds code points; reading and writing it in text mode
      translate the line ends as the builtin [open] does. *)

From Stdlib Require Import QArith Lqa Ascii String.
From Stdlib Require Floats.SpecFloat.
From stdpp Require Import gmap strings list fin_maps sorting.
From Equations Require Import Equations.

(* ===================================================================== *)
(** * Python builtins used by the sources *)
(* ===================================================================== *)
Module Py.

Abbreviation str := (list ascii).

(** A literal: the code points of a Rocq string. *)
Definition lit (s : string) : str := list_ascii_of_string s.

(** The line feed, ['\n']. *)
Definition LF : ascii := "010"%char.

Definition ord (c : ascii) : N := N_of_ascii c.

Definition between (lo hi n : N) : bool := ((lo <=? n) && (n <=? hi))%N.

(** [str.isspace] on one code point: 9-13, 28-32, 133 and 160. *)
Definition isspace (c : ascii) : bool :=
  let n := ord c in
  between 9 13 n || between 28 32 n || (n =? 133)%N || (n =? 160)%N.

(** The class [\w] of [re] on a [str] pattern: alphanumerics and ['_']. *)
Definition isword (c : ascii) : bool :=
  let n := ord c in
  between 48 57 n || between 65 90 n || (n =? 95)%N || between 97 122 n
  || (n =? 170)%N || between 178 179 n || (n =? 181)%N || between 185 186 n
  || between 188 190 n || between 192 214 n || between 216 246 n
  || between 248 255 n.

(** [str.lower]: on this range a map on single code points. *)
Definition lower_char (c : ascii) : ascii :=
  let n := ord c in
  if between 65 90 n || between 192 214 n || between 216 222 n
  then ascii_of_N (n + 32) else c.

Definition lower (s : str) : str := map lower_char s.

(** [s.lstrip()], [s.rstrip()], [s.strip()] with no argument. *)
Fixpoint lstrip (s : str) : str :=
  match s with
  | c :: r => if isspace c then lstrip r else s
  | [] => []
  end.

Definition rstrip (s : str) : str := reverse (lstrip (reverse s)).

Definition strip (s : str) : str := rstrip (lstrip s).

(** [s.endswith(p)]. *)
Definition endswith (s p : str) : bool := bool_decide (p `suffix_of` s).

(** The truth value of a [str] in a condition: non-empty. *)
Definition truthy (s : str) : bool :=
  match s with [] => false | _ :: _ => true end.

(** [sep.join(parts)]. *)
Fixpoint join (sep : str) (parts : list str) : str :=
  match parts with
  | [] => []
  | [p] => p
  | p :: ps => p ++ sep ++ join sep ps
  end.

(** [l[:k]] for an integer [k]: a negative [k] counts from the end. *)
Definition slice_to {A} (k : Z) (l : list A) : list A :=
  if (0 <=? k)%Z then take (Z.to_nat k) l
  else take (length l - Z.to_nat (- k)) l.

(** [l[-n:]] for a positive [n]: the last [n] elements. *)
Definition slice_last {A} (n : nat) (l : list A) : list A :=
  drop (length l - n) l.

(** ** [re.sub(r'\[.*?\]', '', s)] *)

(** After an opening bracket: the text that follows the nearest ["]"],
    when no line feed comes before it ([.] matches anything but ['\n'],
    and [*?] stops at the first ["]"]). *)
Fixpoint close_bracket (s : str) : option str :=
  match s with
  | [] => None
  | c :: r =>
      if bool_decide (c = "]"%char) then Some r
      else if bool_decide (c = LF) then None
      else close_bracket r
  end.

(** A match of the pattern that starts at the head of [s]: what follows it. *)
Definition match_bracketed (s : str) : option str :=
  match s with
  | c :: r => if bool_decide (c = "["%char) then close_bracket r else None
  | [] => None
  end.

Definition inspect {A} (a : A) : {b : A | a = b} := exist _ a eq_refl.

(** The leftmost match is deleted and the scan goes on after it; a code
    point that starts no match is kept. *)
Equations? re_sub_brackets (s : str) : str by wf (length s) lt :=
  re_sub_brackets [] := [];
  re_sub_brackets (c :: r) with inspect (match_bracketed (c :: r)) => {
    | exist _ (Some rest) _ := re_sub_brackets rest;
    | exist _ None _ := c :: re_sub_brackets r }.
Proof.
  assert (∀ t rest', close_bracket t = Some rest' → length rest' < length t)
    as Hshorter.
  { induction t as [|c' t IH]; simpl; intros rest' Hc; [discriminate|].
    destruct (bool_decide (c' = "]"%char)).
    - injection Hc as <-. lia.
    - destruct (bool_decide (c' = LF)); [discriminate|].
      apply IH in Hc. lia. }
  simpl in e. destruct (bool_decide (c = "["%char)); [|discriminate].
  apply Hshorter in e. lia.
Qed.


(** ** [re.split(r'\n(?=#{1,3} )', s)] *)

(** The lookahead: one to three ["#"] and a space. *)
Definition heading_ahead (s : str) : bool :=
  existsb (λ p, bool_decide (p `prefix_of` s)) [lit "# "; lit "## "; lit "### "].

(** The pieces between the matched line feeds; the line feed is dropped,
    the heading stays at the start of the next piece. *)
Fixpoint re_split_headings (s : str) : list str :=
  match s with
  | [] => [[]]
  | c :: r =>
      if bool_decide (c = LF) && heading_ahead r then [] :: re_split_headings r
      else match re_split_headings r with
           | p :: ps => (c :: p) :: ps
           | [] => [[c]]
           end
  end.

(** ** [re.findall(r'\b\w{3,}\b', s)] *)

(** A finished run of word characters is a match when it has three code
    points or more. *)
Definition word_match (run : str) : list str :=
  if 3 <=? length run then [run] else [].

(** [run] is the run of word characters read so far. *)
Fixpoint findall_from (run s : str) : list str :=
  match s with
  | [] => word_match run
  | c :: r =>
      if isword c then findall_from (run ++ [c]) r
      else word_match run ++ findall_from [] r
  end.

Definition re_findall_words (s : str) : list str := findall_from [] s.

(** ** [list.sort(key=..., reverse=True)] *)

(** The builtin sort is stable, also with [reverse=True]: elements with
    equal keys keep their order.  An insertion sort with that contract. *)
Fixpoint insert_reverse {A} (key : A → nat) (x : A) (l : list A) : list A :=
  match l with
  | [] => [x]
  | y :: l' =>
      if key x <? key y then y :: insert_reverse key x l' else x :: l
  end.

Definition sort_reverse {A} (key : A → nat) (l : list A) : list A :=
  foldr (insert_reverse key) [] l.

(** ** [re.sub(r'[^\w\-.]', '_', s)] *)

(** The code points that the class [[^\w\-.]] leaves alone. *)
Definition filename_char (c : ascii) : bool :=
  isword c || bool_decide (c = "-"%char) || bool_decide (c = "."%char).

Definition re_sub_filename (s : str) : str :=
  map (λ c, if filename_char c then c else "_"%char) s.

(** ** Text files: the newline translation of [read_text] and [write_text] *)

(** The carriage return, ['\r']. *)
Definition CR : ascii := "013"%char.

(** Reading in text mode: a carriage return, with the line feed that
    follows it if there is one, comes back as one line feed. *)
Fixpoint universal_newlines (s : str) : str :=
  match s with
  | [] => []
  | c :: r =>
      if bool_decide (c = CR) then
        LF :: match r with
              | c' :: r' =>
                  if bool_decide (c' = LF) then universal_newlines r'
                  else universal_newlines r
              | [] => []
              end
      else c :: universal_newlines r
  end.

(** Writing in text mode: each line feed goes out as [os.linesep]. *)
Definition write_newlines (linesep s : str) : str :=
  flat_map (λ c, if bool_decide (c = LF) then linesep else [c]) s.

End Py.

Import Py.


(* ===================================================================== *)
(** * src/rag.py: keyword retrieval *)
(* ===================================================================== *)
Module Rag.

(** One entry of [SimpleRAG.documents]: the dict with the keys
    ['content'], ['source'] and ['keywords']. *)
Record chunk := Chunk {
  content : str;
  source : str;
  keywords : gset str
}.

(** [set(re.findall(r'\b\w{3,}\b', text.lower()))]. *)
Definition keywords_of (text : str) : gset str :=
  list_to_set (re_findall_words (lower text)).

(** [SimpleRAG._split_content]: the loop over the sections, appending to
    [chunks]. *)
Definition _split_content (text src : str) : list chunk :=
  foldl
    (λ chunks section,
       let section := strip section in
       if 20 <? length section
       then chunks ++ [Chunk section src (keywords_of section)]
       else chunks)
    [] (re_split_headings text).

(** A file of the knowledge directory: its name, and its text when
    [read_text] succeeds ([None]: it raises and the file is skipped). *)
Record file := File {
  name : str;
  read_text : option str
}.

(** [knowledge_dir.glob(ext)] for ['*.md'] and ['*.txt']: the entries
    whose name ends in the extension, in the order of the listing. *)
Definition glob (suffix : str) (dir : list file) : list file :=
  filter (λ f, endswith (name f) suffix = true) dir.

(** [SimpleRAG.load_documents]: [None] is a directory that does not exist
    yet (it is created and nothing is loaded). *)
Definition load_documents (knowledge_dir : option (list file)) : list chunk :=
  match knowledge_dir with
  | None => []
  | Some dir =>
      flat_map
        (λ ext,
           flat_map
             (λ f, match read_text f with
                   | Some text => _split_content text (name f)
                   | None => []
                   end)
             (glob ext dir))
        [lit ".md"; lit ".txt"]
  end.

(** [len(query_keywords & doc['keywords'])]. *)
Definition overlap (query_keywords : gset str) (doc : chunk) : nat :=
  size (query_keywords ∩ keywords doc).

(** The loop that fills [scored]. *)
Definition scored (query_keywords : gset str) (documents : list chunk)
  : list (nat * chunk) :=
  foldl
    (λ acc doc,
       let o := overlap query_keywords doc in
       if 0 <? o then acc ++ [(o, doc)] else acc)
    [] documents.

(** [top_docs]: [scored] after [sort(key=lambda x: x[0], reverse=True)],
    cut by [[:top_k]]. *)
Definition top_docs (documents : list chunk) (query : str) (top_k : Z)
  : list (nat * chunk) :=
  slice_to top_k (sort_reverse fst (scored (keywords_of query) documents)).

(** One element of [context_parts]. *)
Definition context_part (doc : chunk) : str :=
  lit "[From " ++ source doc ++ lit "]" ++ [LF] ++ take 500 (content doc).

(** [SimpleRAG.retrieve]. *)
Definition retrieve (documents : list chunk) (query : str) (top_k : Z) : str :=
  match documents with
  | [] => []
  | _ :: _ =>
      match top_docs documents query top_k with
      | [] => []
      | top => join [LF; LF] (map (λ p, context_part (snd p)) top)
      end
  end.

End Rag.

(* ===================================================================== *)
(** * src/utils.py: the latency profiler and the audio encoder *)
(* ===================================================================== *)
Module Utils.

(** A dict whose iteration order is observed: the pairs in insertion
    order, one per key. *)
Fixpoint dict_get {V} (d : list (string * V)) (k : string) : option V :=
  match d with
  | [] => None
  | (k', v) :: r => if decide (k = k') then Some v else dict_get r k
  end.

(** [d[k] = v]: in place for a key that is there, at the end otherwise. *)
Fixpoint dict_set {V} (d : list (string * V)) (k : string) (v : V)
  : list (string * V) :=
  match d with
  | [] => [(k, v)]
  | (k', v') :: r =>
      if decide (k = k') then (k, v) :: r else (k', v') :: dict_set r k v
  end.

(** [Profiler]: [times] is iterated by [report], [_starts] is only looked
    up. *)
Record profiler := Profiler {
  times : list (string * Q);
  _starts : gmap string Q
}.

Definition fresh : profiler := Profiler [] ∅.

Inductive grade := good | warning | poor.

(** The grade of [report]:
    ["✅" if ms < 300 else "⚠️" if ms < 600 else "❌"]. *)
Definition grade_of (ms : Q) : grade :=
  if Qlt_le_dec ms 300 then good
  else if Qlt_le_dec ms 600 then warning
  else poor.

(** [Profiler.report]: one line per entry of [times], after the heading
    line; the line's grade, name and duration. *)
Definition report (p : profiler) : list (grade * string * Q) :=
  map (λ e, (grade_of (snd e), fst e, snd e)) (times p).

(** [Profiler.reset]. *)
Definition reset (p : profiler) : profiler := Profiler [] ∅.

Section Clock.

(** [time.perf_counter()]: the reading of the [i]-th call, in seconds.
    The state carries the number of calls made so far. *)
Variable perf_counter : nat → Q.

Definition world : Type := profiler * nat.

(** [Profiler.start]. *)
Definition start (nm : string) (w : world) : world :=
  let '(p, tick) := w in
  (Profiler (times p) (<[nm := perf_counter tick]> (_starts p)), S tick).

(** [Profiler.stop]: the value returned and the state after.  The clock
    is read only when [nm] has a start. *)
Definition stop (nm : string) (w : world) : Q * world :=
  let '(p, tick) := w in
  match _starts p !! nm with
  | Some t0 =>
      let times' := dict_set (times p) nm ((perf_counter tick - t0) * 1000)%Q in
      (default 0%Q (dict_get times' nm), (Profiler times' (_starts p), S tick))
  | None => (default 0%Q (dict_get (times p) nm), (p, tick))
  end.

(** A call on the profiler, and a sequence of calls. *)
Inductive call := Start (nm : string) | Stop (nm : string) | Reset.

Definition run_call (w : world) (c : call) : world :=
  match c with
  | Start nm => start nm w
  | Stop nm => snd (stop nm w)
  | Reset => (reset (fst w), snd w)
  end.

Definition run (calls : list call) (w : world) : world :=
  foldl run_call w calls.

End Clock.

(** ** [audio_to_wav_bytes] *)

(** [struct.pack] of an unsigned field of [width] bytes, little-endian:
    the bytes, lowest first; it raises for a value out of the field's
    range. *)
Fixpoint le_bytes (width : nat) (v : Z) : list Z :=
  match width with
  | O => []
  | S w => Z.land v 255 :: le_bytes w (Z.shiftr v 8)
  end.

Definition pack_unsigned (width : nat) (v : Z) : option (list Z) :=
  if (0 <=? v)%Z && (v <? 2 ^ (8 * Z.of_nat width))%Z
  then Some (le_bytes width v) else None.

(** A [bytes] literal of the [wave] module. *)
Definition tag (s : string) : list Z :=
  map (λ c, Z.of_N (N_of_ascii c)) (list_ascii_of_string s).

(** [WAVE_FORMAT_PCM]. *)
Definition WAVE_FORMAT_PCM : Z := 1.

(** [Wave_write._write_header], called by the first [writeframes] with
    the length of its data: the form ["<L4s4sLHHLLHH4s"] between the tag
    [RIFF] and the last field ["<L"]. *)
Definition _write_header (nchannels sampwidth framerate initlength : Z)
  : option (list Z) :=
  let nframes := (initlength / (nchannels * sampwidth))%Z in
  let datalength := (nframes * nchannels * sampwidth)%Z in
  form_length ← pack_unsigned 4 (36 + datalength);
  fmt_length ← pack_unsigned 4 16;
  format ← pack_unsigned 2 WAVE_FORMAT_PCM;
  channels ← pack_unsigned 2 nchannels;
  rate ← pack_unsigned 4 framerate;
  byte_rate ← pack_unsigned 4 (nchannels * framerate * sampwidth);
  block_align ← pack_unsigned 2 (nchannels * sampwidth);
  bits ← pack_unsigned 2 (sampwidth * 8);
  data_length ← pack_unsigned 4 datalength;
  Some (tag "RIFF" ++ form_length ++ tag "WAVE" ++ tag "fmt " ++ fmt_length
        ++ format ++ channels ++ rate ++ byte_rate ++ block_align ++ bits
        ++ tag "data" ++ data_length).

(** [audio_int16.tobytes()], as [writeframes] puts it in the file: two
    bytes a value, two's complement, the low byte first. *)
Definition tobytes (values : list Z) : list Z :=
  flat_map (le_bytes 2) values.

Section Audio.

(** The element type of the tensor, an IEEE 754 binary format: [prec]
    bits of precision and the exponents below [emax] (24 and 128 for
    [float32], 53 and 1024 for [float64]). *)
Variables prec emax : Z.

(** The conversion to [int16] of a number that has no integer part (an
    infinity, a NaN) or whose integer part is out of the range of
    [int16] is left open by C: the value that the platform gives. *)
Variable int16_of_undefined : SpecFloat.spec_float → Z.

(** The Python int that multiplies the array, as a number of the
    array's format. *)
Definition as_float (n : Z) : SpecFloat.spec_float :=
  SpecFloat.binary_normalize prec emax n 0 false.

(** The integer part, toward zero. *)
Definition int_part (x : SpecFloat.spec_float) : option Z :=
  match x with
  | SpecFloat.S754_zero _ => Some 0%Z
  | SpecFloat.S754_finite s m e =>
      Some (SpecFloat.cond_Zopp s (Z.shiftl (Z.pos m) e))
  | _ => None
  end.

(** [.astype(np.int16)], for one number. *)
Definition astype_int16 (x : SpecFloat.spec_float) : Z :=
  match int_part x with
  | Some n =>
      if (-32768 <=? n)%Z && (n <=? 32767)%Z then n else int16_of_undefined x
  | None => int16_of_undefined x
  end.

(** [audio_to_wav_bytes]: the bytes returned, [None] when the call
    raises ([setframerate] for a rate that is not positive, [struct.pack]
    for a header field out of its range). *)
Definition audio_to_wav_bytes (audio_tensor : list SpecFloat.spec_float)
    (sample_rate : Z) : option (list Z) :=
  let audio_int16 :=
    map (λ x, astype_int16 (SpecFloat.SFmul prec emax x (as_float 32767)))
        audio_tensor in
  let frames := tobytes audio_int16 in
  if (sample_rate <=? 0)%Z then None
  else
    header ← _write_header 1 2 sample_rate (Z.of_nat (length frames));
    Some (header ++ frames).

End Audio.

End Utils.

(* ===================================================================== *)
(** * src/config.py: settings and conversation history *)
(* ===================================================================== *)
Module Config.

(** A JSON value, as [json.load] returns it and [json.dump] writes it.  A
    number is kept as the decimal it is written as. *)
#[warnings="-register-all"]
Inductive json :=
| JNull
| JBool (b : bool)
| JNum (q : Q)
| JStr (s : string)
| JArr (items : list json)
| JObj (fields : list (string * json)).

Definition DEFAULT_SETTINGS : gmap string json :=
  list_to_map [
    ("temperature", JNum (7 # 10));
    ("topP", JNum (9 # 10));
    ("topK", JNum 40);
    ("maxTokens", JNum 256);
    ("repeatPenalty", JNum (11 # 10));
    ("contextWindow", JNum 4096);
    ("beamSize", JNum 1);
    ("vadFilter", JBool true);
    ("vadThreshold", JNum 300);
    ("sampleRate", JNum 24000);
    ("voice", JStr "en_0");
    ("soundEffects", JBool true);
    ("inputDevice", JStr "");
    ("outputDevice", JStr "")
  ]%string.

(** A JSON file of the data directory: not there, there with content that
    [json.load] or the code after it rejects, or holding a value. *)
Inductive stored (A : Type) :=
| absent
| unreadable
| holds (data : A).
Arguments absent {A}.
Arguments unreadable {A}.
Arguments holds {A} data.

(** One entry of the history list. *)
Record exchange := Exchange {
  timestamp : str;
  user : str;
  assistant : str
}.

(** The data directory: the two files, and whether [open(..., 'w')]
    succeeds there. *)
Record disk := Disk {
  SETTINGS_FILE : stored (gmap string json);
  HISTORY_FILE : stored (list exchange);
  writable : bool
}.

(** ** [SettingsManager]; the state is the dict [_settings]. *)

(** [_load]: [{**DEFAULT_SETTINGS, **saved}], the saved value winning on a
    key of both; the defaults for a missing file or after an exception. *)
Definition _load (d : disk) : gmap string json :=
  match SETTINGS_FILE d with
  | holds saved => saved ∪ DEFAULT_SETTINGS
  | absent | unreadable => DEFAULT_SETTINGS
  end.

(** [save]: the whole of [_settings] is dumped; a failure to open the file
    is logged and leaves the disk as it was. *)
Definition save (_settings : gmap string json) (d : disk) : disk :=
  if writable d
  then Disk (holds _settings) (HISTORY_FILE d) (writable d)
  else d.

(** [get(key, default)]. *)
Definition get (_settings : gmap string json) (key : string)
  (default : json) : json :=
  match _settings !! key with Some v => v | None => default end.

(** [set(key, value)]. *)
Definition set (_settings : gmap string json) (key : string) (value : json)
  : gmap string json :=
  <[key := value]> _settings.

(** The loop of [update] over [updates.items()]. *)
Definition update_loop (_settings updates : gmap string json)
  : gmap string json :=
  map_fold
    (λ key value acc,
       if bool_decide (is_Some (DEFAULT_SETTINGS !! key))
       then <[key := value]> acc else acc)
    _settings updates.

(** [update]: the loop, then [save]. *)
Definition update (updates : gmap string json)
  (_settings : gmap string json) (d : disk) : gmap string json * disk :=
  let s := update_loop _settings updates in (s, save s d).

(** [reset]. *)
Definition reset (d : disk) : gmap string json * disk :=
  (DEFAULT_SETTINGS, save DEFAULT_SETTINGS d).

(** ** [HistoryManager]; the state is the list [_history]. *)

Definition MAX_HISTORY : nat := 100.

Definition history_load (d : disk) : list exchange :=
  match HISTORY_FILE d with
  | holds data => data
  | absent | unreadable => []
  end.

(** [save]: the last [MAX_HISTORY] entries are written. *)
Definition history_save (_history : list exchange) (d : disk) : disk :=
  if writable d
  then Disk (SETTINGS_FILE d) (holds (slice_last MAX_HISTORY _history))
            (writable d)
  else d.

(** [add]: [now] is [datetime.now().isoformat()]. *)
Definition add (now user_text assistant_text : str)
  (_history : list exchange) (d : disk) : list exchange * disk :=
  let h := _history ++ [Exchange now user_text assistant_text] in
  (h, if length h mod 5 =? 0 then history_save h d else d).

(** [get_recent(n)]: [_history[-n:]], for a positive [n]. *)
Definition get_recent (n : nat) (_history : list exchange) : list exchange :=
  slice_last n _history.

(** [HistoryManager.clear]. *)
Definition clear (d : disk) : list exchange * disk :=
  ([], history_save [] d).

End Config.

(* ===================================================================== *)
(** * src/routes.py: the chat turn *)
(* ===================================================================== *)
Module Routes.

Section Turn.

(** The collaborators of a turn.  [apply_tts text speaker sample_rate] is
    [tts.apply_tts]; [None] stands for a call that raises.
    [audio_to_wav_bytes] is the encoder of [utils.py], whose arithmetic is
    on the floats of the tensor library; the pipeline only passes its
    result on. *)
Context {audio wav : Type}.
Variable apply_tts : str → str → Z → option audio.
Variable audio_to_wav_bytes : audio → Z → wav.

(** What the handler sends on the socket. *)
Inductive message :=
| text_chunk (content : str)
| done.

Inductive event :=
| send_json (m : message)
| send_bytes (w : wav).

(** The variables of the loop, and the events sent so far. *)
Record turn := Turn {
  buffer : str;
  full_response : str;
  sent : list event
}.

(** A step that may raise: the exception ends the turn, and what was sent
    before it stays sent. *)
Inductive result (A : Type) :=
| Ok (a : A)
| Raised (sent_before : list event).
Arguments Ok {A} a.
Arguments Raised {A} sent_before.

#[local] Instance result_bind : MBind result := λ A B k r,
  match r with
  | Ok a => k a
  | Raised s => Raised s
  end.

(** The request's voice and sample rate. *)
Variable voice : str.
Variable sample_rate : Z.

Definition delimiters : list str :=
  [lit "."; lit "!"; lit "?"; lit ","; lit ":"; lit ";"].

(** The test of line 245:
    [any(buffer.rstrip().endswith(p) for p in [...]) and len(buffer) > 5]. *)
Definition flush_due (buf : str) : bool :=
  existsb (endswith (rstrip buf)) delimiters && (5 <? length buf).

(** [re.sub(r'\[.*?\]', '', buffer).strip()]. *)
Definition cleaned (buf : str) : str := strip (re_sub_brackets buf).

(** The sends of a flush whose [clean] is non-empty: the text event with
    [clean ++ tail], the synthesis, the bytes. *)
Definition emit (clean tail : str) (before : list event)
  : result (list event) :=
  let after_text := before ++ [send_json (text_chunk (clean ++ tail))] in
  match apply_tts clean voice sample_rate with
  | Some a =>
      Ok (after_text ++ [send_bytes (audio_to_wav_bytes a sample_rate)])
  | None => Raised after_text
  end.

(** The body of the loop over the stream, for one token. *)
Definition on_token (st : turn) (token : str) : result turn :=
  let buf := buffer st ++ token in
  let full := full_response st ++ token in
  if flush_due buf then
    let clean := cleaned buf in
    if truthy clean then
      out ← emit clean (lit " ") (sent st);
      Ok (Turn [] full out)
    else Ok (Turn [] full (sent st))
  else Ok (Turn buf full (sent st)).

Fixpoint consume (stream : list str) (st : turn) : result turn :=
  match stream with
  | [] => Ok st
  | token :: rest => st' ← on_token st token; consume rest st'
  end.

(** "Flush remaining", after the loop. *)
Definition flush_remaining (st : turn) : result (list event) :=
  if truthy (strip (buffer st)) then
    let clean := cleaned (buffer st) in
    if truthy clean then emit clean [] (sent st) else Ok (sent st)
  else Ok (sent st).

(** How a turn ends: the socket closed on an empty text, an exception
    (logged; nothing more is sent and nothing is stored), or the whole
    handler run, with the history after [history.add]. *)
Inductive outcome :=
| closed
| failed (sent_before : list event)
| finished (all_sent : list event) (_history : list Config.exchange)
    (d : Config.disk).

(** [chat], from the received [user_text] on; [stream] is the text of
    the tokens that the model yields for the prompt, [now] the time stamp
    that [history.add] takes.  The retrieved context and the recent
    history only go into the prompt, and the profiler calls only into the
    log: neither has a part in what is sent or stored.  A send is taken
    to succeed (the client stays connected). *)
Definition chat (user_text : str) (stream : list str) (now : str)
  (_history : list Config.exchange) (d : Config.disk) : outcome :=
  if negb (truthy user_text) then closed
  else
    match consume stream (Turn [] [] []) with
    | Raised s => failed s
    | Ok st =>
        match flush_remaining st with
        | Raised s => failed s
        | Ok out =>
            let '(h, d') :=
              Config.add now user_text (strip (full_response st)) _history d in
            finished (out ++ [send_json done]) h d'
        end
    end.

End Turn.

Arguments Ok {wav A} a.
Arguments Raised {wav A} sent_before.

(** ** The knowledge base endpoints *)

(** What sits under a name in [KNOWLEDGE_DIR]: a regular file, with the
    text it holds when it decodes, or something that is not a file.  A
    name is an entry of the directory itself, compared as it is written;
    a write to a regular file or to a free name is taken to succeed. *)
Inductive entry :=
| regular (raw : option str)
| directory.

(** [filepath.read_text(encoding='utf-8')]; [None]: it raises. *)
Definition entry_read_text (e : entry) : option str :=
  match e with
  | regular raw => universal_newlines <$> raw
  | directory => None
  end.

(** The directory and [rag.documents]. *)
Record knowledge := Knowledge {
  files : gmap str entry;
  documents : list Rag.chunk
}.

(** What a handler returns: the dicts, and the pair of a dict with the
    key ["error"] and a number. *)
Inductive reply :=
| file_content (name content : str)
| saved (name : str) (count : nat)
| ok_documents (count : nat)
| error (message : str) (code : nat).

Section Knowledge.

(** The order in which the file system lists a directory, and
    [os.linesep]. *)
Variable iterdir : gmap str entry → list (str * entry).
Variable linesep : str.

Definition listing (dir : gmap str entry) : list Rag.file :=
  map (λ e, Rag.File (fst e) (entry_read_text (snd e))) (iterdir dir).

(** [rag.reload()]; [KNOWLEDGE_DIR] exists from the import of
    [config.py] on. *)
Definition reload (kb : knowledge) : knowledge :=
  Knowledge (files kb) (Rag.load_documents (Some (listing (files kb)))).

Definition reload_knowledge (kb : knowledge) : reply * knowledge :=
  let kb := reload kb in (ok_documents (length (documents kb)), kb).

(** [get_knowledge_file]; [None]: [read_text] raises. *)
Definition get_knowledge_file (filename : str) (kb : knowledge)
  : option reply :=
  match files kb !! filename with
  | Some (regular raw) =>
      match entry_read_text (regular raw) with
      | Some content => Some (file_content filename content)
      | None => None
      end
  | Some directory | None => Some (error (lit "File not found") 404)
  end.

(** The file name that [create_knowledge_file] makes of the ["name"] of
    the request; [None]: the name is empty after [strip]. *)
Definition knowledge_filename (name : str) : option str :=
  let filename := strip name in
  if negb (truthy filename) then None
  else
    let filename :=
      if negb (endswith filename (lit ".md") || endswith filename (lit ".txt"))
      then filename ++ lit ".md" else filename in
    Some (re_sub_filename filename).

(** [create_knowledge_file]; a key that the request lacks is [None].
    The result is [None] when [write_text] raises, on a directory. *)
Definition create_knowledge_file (name content : option str)
  (kb : knowledge) : option (reply * knowledge) :=
  match knowledge_filename (default [] name) with
  | None => Some (error (lit "Filename required") 400, kb)
  | Some filename =>
      match files kb !! filename with
      | Some directory => None
      | _ =>
          let raw := write_newlines linesep (default [] content) in
          let kb :=
            reload (Knowledge (<[filename := regular (Some raw)]> (files kb))
                      (documents kb)) in
          Some (saved filename (length (documents kb)), kb)
      end
  end.

(** [delete_knowledge_file]. *)
Definition delete_knowledge_file (filename : str) (kb : knowledge)
  : reply * knowledge :=
  match files kb !! filename with
  | Some (regular _) =>
      let kb := reload (Knowledge (delete filename (files kb))
                          (documents kb)) in
      (ok_documents (length (documents kb)), kb)
  | Some directory | None => (error (lit "File not found") 404, kb)
  end.

End Knowledge.

(** ** The prompt of a chat turn *)

Section Prompt.

(** The constant [SYSTEM_PROMPT] of [config.py]. *)
Variable SYSTEM_PROMPT : str.

(** [req_settings.get(key, settings.get(key))]; Python's [None] is the
    JSON null. *)
Definition request_setting (req_settings _settings : gmap string Config.json)
  (key : string) : Config.json :=
  match req_settings !! key with
  | Some v => v
  | None => Config.get _settings key Config.JNull
  end.

Definition system_prompt (context : str) : str :=
  if truthy context
  then SYSTEM_PROMPT ++ [LF; LF] ++ lit "Relevant context:" ++ [LF] ++ context
  else SYSTEM_PROMPT.

(** [f"<|im_start|>{role}\n{text}<|im_end|>\n"]. *)
Definition im_turn (role text : str) : str :=
  lit "<|im_start|>" ++ role ++ [LF] ++ text ++ lit "<|im_end|>" ++ [LF].

(** The body of the loop over [recent_history]. *)
Definition with_exchange (prompt : str) (e : Config.exchange) : str :=
  let prompt :=
    if truthy (Config.user e)
    then prompt ++ im_turn (lit "user") (Config.user e) else prompt in
  if truthy (Config.assistant e)
  then prompt ++ im_turn (lit "assistant") (Config.assistant e) else prompt.

(** Lines 191 to 212: the prompt given to the model. *)
Definition build_prompt (docs : list Rag.chunk)
  (_history : list Config.exchange) (user_text : str) : str :=
  let context := Rag.retrieve docs user_text 2 in
  let prompt := im_turn (lit "system") (system_prompt context) in
  let recent_history := Config.get_recent 10 _history in
  let prompt := foldl with_exchange prompt recent_history in
  prompt ++ im_turn (lit "user") user_text
         ++ lit "<|im_start|>assistant" ++ [LF].

End Prompt.

(** ** The profiler calls of the handlers *)

Section Timed.

Context {audio wav : Type}.
Variable apply_tts : str → str → Z → option audio.
Variable audio_to_wav_bytes : audio → Z → wav.
Variable voice : str.
Variable sample_rate : Z.
Variable perf_counter : nat → Q.

(** The grade that [transcribe] logs:
    ["✅" if stt_ms < 200 else "⚠️" if stt_ms < 800 else "❌"]. *)
Definition stt_grade (stt_ms : Q) : Utils.grade :=
  if Qlt_le_dec stt_ms 200 then Utils.good
  else if Qlt_le_dec stt_ms 800 then Utils.warning
  else Utils.poor.

(** [transcribe], on the global profiler: [segments] is the text of the
    segments that the recogniser yields, [None] when it raises.  The
    result is the text returned and the grade and time logged. *)
Definition transcribe (segments : option (list str)) (w : Utils.world)
  : option (str * Utils.grade * Q) * Utils.world :=
  let w := (Utils.reset (fst w), snd w) in
  let w := Utils.start perf_counter "stt" w in
  match segments with
  | None => (None, w)
  | Some texts =>
      let text := strip (join (lit " ") texts) in
      let '(stt_ms, w) := Utils.stop perf_counter "stt" w in
      (Some (text, stt_grade stt_ms, stt_ms), w)
  end.

(** The variables of the loop of [chat] with the two flags. *)
Record timed := Timed {
  vars : turn (wav:=wav);
  first_token : bool;
  first_tts : bool
}.

(** The body of the loop with its profiler calls; an exception leaves
    the profiler as it is then. *)
Definition on_token_timed (st : timed) (w : Utils.world) (token : str)
  : result (wav:=wav) timed * Utils.world :=
  let w :=
    if first_token st then w
    else snd (Utils.stop perf_counter "llm_ttft" w) in
  let buf := buffer (vars st) ++ token in
  let full := full_response (vars st) ++ token in
  if flush_due buf then
    let clean := cleaned buf in
    if truthy clean then
      let after_text :=
        sent (vars st) ++ [send_json (text_chunk (clean ++ lit " "))] in
      let w :=
        if first_tts st then w
        else Utils.start perf_counter "tts_ttfs" w in
      match apply_tts clean voice sample_rate with
      | Some a =>
          let w :=
            if first_tts st then w
            else snd (Utils.stop perf_counter "tts_ttfs" w) in
          (Ok (Timed
                 (Turn [] full
                    (after_text
                     ++ [send_bytes (audio_to_wav_bytes a sample_rate)]))
                 true true), w)
      | None => (Raised after_text, w)
      end
    else (Ok (Timed (Turn [] full (sent (vars st))) true (first_tts st)), w)
  else (Ok (Timed (Turn buf full (sent (vars st))) true (first_tts st)), w).

Fixpoint consume_timed (stream : list str) (st : timed) (w : Utils.world)
  : result (wav:=wav) timed * Utils.world :=
  match stream with
  | [] => (Ok st, w)
  | token :: rest =>
      match on_token_timed st w token with
      | (Ok st', w') => consume_timed rest st' w'
      | (Raised s, w') => (Raised s, w')
      end
  end.

(** [chat] with the profiler: the outcome, the lines of the report when
    the handler gets to it, and the profiler after. *)
Definition chat_timed (user_text : str) (stream : list str) (now : str)
  (_history : list Config.exchange) (d : Config.disk) (w : Utils.world)
  : outcome (wav:=wav) * option (list (Utils.grade * string * Q))
    * Utils.world :=
  if negb (truthy user_text) then (closed, None, w)
  else
    let w := Utils.start perf_counter "llm_ttft" w in
    match consume_timed stream (Timed (Turn [] [] []) false false) w with
    | (Raised s, w) => (failed s, None, w)
    | (Ok st, w) =>
        match
          flush_remaining apply_tts audio_to_wav_bytes voice sample_rate
            (vars st)
        with
        | Raised s => (failed s, None, w)
        | Ok out =>
            let '(h, d') :=
              Config.add now user_text (strip (full_response (vars st)))
                _history d in
            (finished (out ++ [send_json done]) h d',
             Some (Utils.report (fst w)), w)
        end
    end.

End Timed.

End Routes.

(* ===================================================================== *)
(** * src/download_models.py: the first-time setup *)
(* ===================================================================== *)
Module Download.

Section Main.

(** The file system as the script reaches it, through three calls:
    [MODELS_DIR.mkdir(exist_ok=True)], taken to succeed; [verify_model]
    on the file of a model; and [download_with_progress] for it, which
    gives its success flag and leaves the file system changed, also when
    it fails. *)
Context {fs : Type}.
Variable mkdir_models : fs → fs.
Variable verify_model : fs → string → bool.
Variable download_with_progress : fs → string → bool * fs.

(** The keys of [MODELS], in the order of the dict. *)
Definition MODELS : list string := ["llm"; "tts"]%string.

(** The first loop of [main]: [downloads_needed] and [all_present]. *)
Definition check_models (s : fs) : list string * bool :=
  foldl
    (λ acc key,
       if verify_model s key then acc else (acc.1 ++ [key], false))
    ([], true) MODELS.

(** The second loop: the exit code, the file system after, and the keys
    for which the line "Downloading: ..." was printed. *)
Fixpoint download_missing (keys : list string) (s : fs)
  : nat * fs * list string :=
  match keys with
  | [] => (0, s, [])
  | key :: rest =>
      let '(success, s) := download_with_progress s key in
      if success && verify_model s key then
        let '(code, s, tried) := download_missing rest s in
        (code, s, key :: tried)
      else (1, s, [key])
  end.

(** [main]. *)
Definition main (s : fs) : nat * fs * list string :=
  let s := mkdir_models s in
  let '(downloads_needed, all_present) := check_models s in
  if all_present then (0, s, []) else download_missing downloads_needed s.

End Main.

End Download.

(* ===================================================================== *)
(** * The vocabulary of the statements *)
(* ===================================================================== *)

(** ** Text *)

(** Whitespace only; word characters only. *)
Definition all_space (s : str) : Prop := Forall (λ c, isspace c = true) s.

Definition all_word (w : str) : Prop := Forall (λ c, isword c = true) w.

(** [\b] where a token starts or ends: the text before ends, and the text
    after starts, with no word character. *)
Definition no_word_at_end (pre : str) : Prop :=
  match last pre with Some c => isword c = false | None => True end.

Definition no_word_at_start (post : str) : Prop :=
  match head post with Some c => isword c = false | None => True end.

(** [w] is a word token of [s]: a run of three or more word characters
    that no word character touches on either side. *)
Definition word_token (s w : str) : Prop :=
  3 ≤ length w ∧ all_word w
  ∧ ∃ pre post, s = pre ++ w ++ post
                ∧ no_word_at_end pre ∧ no_word_at_start post.

(** The capital letters of this range ([str.isupper]): A to Z, and the
    accented capitals 192 to 214 and 216 to 222; the small letter of a
    capital is 32 code points further; and the lower-case form of a code
    point, as [str.lower] is documented: the small letter of a capital,
    any other code point as it is. *)
Definition capital (c : ascii) : bool :=
  between 65 90 (ord c) || between 192 214 (ord c) || between 216 222 (ord c).

Definition small_of (c : ascii) : ascii := ascii_of_N (ord c + 32).

Definition to_small (c : ascii) : ascii :=
  if capital c then small_of c else c.

(** Two code points that are the same up to case. *)
Definition same_letter (c c' : ascii) : bool :=
  bool_decide (c = c')
  || (capital c && bool_decide (c' = small_of c))
  || (capital c' && bool_decide (c = small_of c')).

(** No line feed of the text has a heading right after it. *)
Definition no_heading_inside (piece : str) : Prop :=
  ∀ a b, piece = a ++ LF :: b → heading_ahead b = false.



(** ** Sorting *)

(** The order of a list sorted with [reverse=True]: keys never go up. *)
Definition key_ge {A} (key : A → nat) (a b : A) : Prop := key b ≤ key a.

(** ** Retrieval *)
Section RagVocabulary.

Import Rag.

(** The pairs that the scoring loop keeps, in load order. *)
Definition candidates (query_keywords : gset str) (documents : list chunk)
  : list (nat * chunk) :=
  filter (λ p, 0 < fst p)
    (map (λ d, (overlap query_keywords d, d)) documents).

(** The sections that [_split_content] keeps. *)
Definition kept_sections (text : str) : list str :=
  filter (λ section, 20 < length section)
    (map strip (re_split_headings text)).

(** What holds of every chunk that [_split_content] makes. *)
Definition well_formed (c : chunk) : Prop :=
  21 ≤ length (content c) ∧ keywords c = keywords_of (content c).

(** A knowledge file with four sections, and the chunks it loads as. *)
Definition guide : str :=
  lit "# Install" ++ [LF]
  ++ lit "run the installer script then reboot the assistant" ++ [LF]
  ++ lit "# Privacy" ++ [LF]
  ++ lit "nothing ever leaves this machine" ++ [LF]
  ++ lit "# Network" ++ [LF]
  ++ lit "the assistant works offline without any network" ++ [LF]
  ++ lit "# Speech" ++ [LF]
  ++ lit "the offline assistant picks a voice for speech".

Definition section_chunk (section : str) : chunk :=
  Chunk section (lit "guide.md") (keywords_of section).

Definition install_chunk : chunk :=
  section_chunk
    (lit "# Install" ++ [LF]
     ++ lit "run the installer script then reboot the assistant").

Definition privacy_chunk : chunk :=
  section_chunk
    (lit "# Privacy" ++ [LF] ++ lit "nothing ever leaves this machine").

Definition network_chunk : chunk :=
  section_chunk
    (lit "# Network" ++ [LF]
     ++ lit "the assistant works offline without any network").

Definition speech_chunk : chunk :=
  section_chunk
    (lit "# Speech" ++ [LF]
     ++ lit "the offline assistant picks a voice for speech").

(** A section that is long enough and has no word of three letters. *)
Definition letters_chunk : chunk :=
  Chunk (lit "a b c d e f g h i j k l") (lit "kb.md") ∅.

End RagVocabulary.

(** ** The profiler *)
Section ProfilerVocabulary.

Import Utils.

(** Every key of [times] is a key of [_starts]. *)
Definition timed_is_started (p : profiler) : Prop :=
  ∀ nm, is_Some (dict_get (times p) nm) → is_Some (_starts p !! nm).

(** A clock for the examples: the [i]-th reading is [i] seconds. *)
Definition seconds_clock (i : nat) : Q := inject_Z (Z.of_nat i).

(** A clock that does not advance between two calls. *)
Definition stalled_clock (_ : nat) : Q := 5.

End ProfilerVocabulary.

(** ** The settings *)
Section SettingsVocabulary.

Import Config.

(** [key in DEFAULT_SETTINGS]. *)
Definition known (key : string) : bool :=
  bool_decide (is_Some (DEFAULT_SETTINGS !! key)).

(** The value of [key] after a dict is laid over another. *)
Definition over {V} (upper lower : option V) : option V :=
  match upper with Some v => Some v | None => lower end.

(** A settings file with a key that is not in the schema. *)
Definition disk_with_foo : disk :=
  Disk (holds {[ "foo"%string := JNum 1 ]}) absent true.

(** A data directory with neither file yet. *)
Definition empty_disk : disk := Disk absent absent true.

End SettingsVocabulary.

(** ** The chat turn *)
Section ChatVocabulary.

Import Routes.

(** The last code points that end a clause. *)
Definition delimiter_chars : list ascii :=
  ["."; "!"; "?"; ","; ":"; ";"]%char.

(** The cleaned texts that the loop flushes, from a buffer and the tokens
    still to come, and the buffer that the loop leaves. *)
Fixpoint loop_flushes (buf : str) (stream : list str) : list str :=
  match stream with
  | [] => []
  | token :: rest =>
      if flush_due (buf ++ token) then
        (if truthy (cleaned (buf ++ token)) then [cleaned (buf ++ token)]
         else [])
        ++ loop_flushes [] rest
      else loop_flushes (buf ++ token) rest
  end.

Fixpoint left_over (buf : str) (stream : list str) : str :=
  match stream with
  | [] => buf
  | token :: rest =>
      if flush_due (buf ++ token) then left_over [] rest
      else left_over (buf ++ token) rest
  end.

(** The cleaned text of the flush after the loop, if there is one. *)
Definition last_flush (buf : str) : list str :=
  if truthy (strip buf) && truthy (cleaned buf) then [cleaned buf] else [].

Context {audio wav : Type}.
Variable apply_tts : str → str → Z → option audio.
Variable audio_to_wav_bytes : audio → Z → wav.
Variable voice : str.
Variable sample_rate : Z.

(** The text and the audio that one flush sends for the cleaned text
    [clean]; with a synthesis that raises, the text alone. *)
Definition said (tail clean : str) : list (event (wav:=wav)) :=
  match apply_tts clean voice sample_rate with
  | Some a =>
      [send_json (text_chunk (clean ++ tail));
       send_bytes (audio_to_wav_bytes a sample_rate)]
  | None => [send_json (text_chunk (clean ++ tail))]
  end.

(** The synthesis of [clean] returns. *)
Definition tts_ok (clean : str) : Prop :=
  is_Some (apply_tts clean voice sample_rate).

(** The contents of the text events among the events sent. *)
Definition chunk_texts (evs : list (event (wav:=wav))) : list str :=
  omap (λ e, match e with
             | send_json (text_chunk content) => Some content
             | _ => None
             end) evs.

(** What a turn has sent, however it ended. *)
Definition events_of (o : outcome (wav:=wav)) : list event :=
  match o with
  | closed => []
  | failed evs => evs
  | finished evs _ _ => evs
  end.


End ChatVocabulary.


Definition hello_tokens : list str :=
  [lit "Hello"; lit ","; lit " how"; lit " are"; lit " you"; lit "?"; lit " "].

(** A synthesis that always succeeds, and an encoder: the "audio" is the
    text that was spoken. *)
Definition echo_tts (text speaker : str) (rate : Z) : option str := Some text.

Definition echo_wav (a : str) (rate : Z) : str := a.



(** ** More on text *)

(** No whitespace at the start, at the end. *)
Definition starts_clean (s : str) : Prop :=
  match head s with Some c => isspace c = false | None => True end.

Definition ends_clean (s : str) : Prop :=
  match last s with Some c => isspace c = false | None => True end.

(** ** The history over several turns *)
Section HistoryVocabulary.

Import Config.

(** What a call of [add] takes: the time stamp and the two texts; and the
    entry that it appends. *)
Definition as_exchange (e : str * str * str) : exchange :=
  Exchange e.1.1 e.1.2 e.2.

(** A run of calls of [add], from a history and a disk. *)
Definition add_all (entries : list (str * str * str))
  (st : list exchange * disk) : list exchange * disk :=
  foldl (λ st e, add e.1.1 e.1.2 e.2 st.1 st.2) st entries.

(** The length at which the history was last saved, among the lengths up
    to [n]. *)
Definition last_saved (n : nat) : nat := 5 * (n / 5).

End HistoryVocabulary.

(** ** The settings over several calls *)
Section SettingsRuns.

Import Config.

Inductive settings_call :=
| set_call (key : string) (value : json)
| update_call (updates : gmap string json)
| reset_call.

Definition settings_step (st : gmap string json * disk) (c : settings_call)
  : gmap string json * disk :=
  match c with
  | set_call key value => (set st.1 key value, st.2)
  | update_call updates => update updates st.1 st.2
  | reset_call => reset st.2
  end.

(** The manager from its construction on: [_load], then the calls. *)
Definition settings_run (calls : list settings_call) (d : disk)
  : gmap string json * disk :=
  foldl settings_step (_load d, d) calls.

(** The calls that end with [save]. *)
Definition saves (c : settings_call) : bool :=
  match c with set_call _ _ => false | _ => true end.

End SettingsRuns.

(** ** The flushes of a turn *)
Section TurnVocabulary.

Import Routes.

(** The buffers that the loop flushes, as they are before cleaning. *)
Fixpoint loop_buffers (buf : str) (stream : list str) : list str :=
  match stream with
  | [] => []
  | token :: rest =>
      if flush_due (buf ++ token) then (buf ++ token) :: loop_buffers [] rest
      else loop_buffers (buf ++ token) rest
  end.

(** All the flushes of a turn, in order: the tail of the text event (a
    space in the loop, nothing at the end) and the cleaned text. *)
Definition turn_flushes (stream : list str) : list (str * str) :=
  map (pair (lit " ")) (loop_flushes [] stream)
  ++ map (pair []) (last_flush (left_over [] stream)).

Context {audio wav : Type}.
Variable apply_tts : str → str → Z → option audio.
Variable audio_to_wav_bytes : audio → Z → wav.
Variable voice : str.
Variable sample_rate : Z.

(** The synthesis of the flush returns. *)
Definition synthesised (f : str * str) : bool :=
  bool_decide (tts_ok apply_tts voice sample_rate (snd f)).

(** The flushes up to the first whose synthesis raises, that one
    included. *)
Fixpoint until_raise (fl : list (str * str)) : list (str * str) :=
  match fl with
  | [] => []
  | f :: rest => if synthesised f then f :: until_raise rest else [f]
  end.

(** What a flush sends. *)
Definition flush_events (f : str * str) : list (event (wav:=wav)) :=
  said apply_tts audio_to_wav_bytes voice sample_rate (fst f) (snd f).

End TurnVocabulary.

(** ** The loaded collection, file by file *)
Section SourceVocabulary.

Import Rag.

(** The chunks that one file of the directory gives to the collection. *)
Definition chunks_of_file (f : file) : list chunk :=
  if endswith (name f) (lit ".md") || endswith (name f) (lit ".txt")
  then match read_text f with
       | Some text => _split_content text (name f)
       | None => []
       end
  else [].

(** The chunks of a collection that name [src] as their source. *)
Definition from_source (src : str) (documents : list chunk) : list chunk :=
  filter (λ c, source c = src) documents.

End SourceVocabulary.

(** ** The knowledge directory *)
Section KnowledgeVocabulary.

Import Routes.

(** What [read_text] gives back of a text that [write_text] wrote. *)
Definition read_back (linesep content : str) : str :=
  universal_newlines (write_newlines linesep content).

(** A directory with one note and a sub-directory. *)
Definition notes_dir : gmap str entry :=
  {[ lit "notes.md" := regular (Some (lit "# Notes" ++ [LF]
                                        ++ lit "the assistant keeps notes here"));
     lit "archive" := directory ]}.

End KnowledgeVocabulary.

(** ** The prompt *)
Section PromptVocabulary.

Import Config Routes.

(** What one exchange of the history adds to the prompt. *)
Definition exchange_turns (e : exchange) : str :=
  (if truthy (user e) then im_turn (lit "user") (user e) else [])
  ++ (if truthy (assistant e)
      then im_turn (lit "assistant") (assistant e) else []).

(** A system prompt for the examples. *)
Definition short_system_prompt : str := lit "You are MIDAS.".

End PromptVocabulary.

(** ** The profiler calls of a turn *)
Section TimingVocabulary.

Import Utils Routes.

Context {audio : Type}.
Variable apply_tts : str → str → Z → option audio.
Variable voice : str.
Variable sample_rate : Z.

(** The calls that the loop makes from a state with the two flags, a
    buffer and the tokens to come: the stop of the first token, and the
    start and the stop around the first synthesis. *)
Definition loop_calls (first_token first_tts : bool) (buf : str)
  (stream : list str) : list call :=
  (if first_token then []
   else match stream with [] => [] | _ :: _ => [Stop "llm_ttft"] end)
  ++ (if first_tts then []
      else match loop_flushes buf stream with
           | [] => []
           | clean :: _ =>
               Start "tts_ttfs"
               :: (if bool_decide (tts_ok apply_tts voice sample_rate clean)
                   then [Stop "tts_ttfs"] else [])
           end).

(** The calls of a whole turn. *)
Definition chat_calls (user_text : str) (stream : list str) : list call :=
  if negb (truthy user_text) then []
  else Start "llm_ttft" :: loop_calls false false [] stream.

(** The calls of [transcribe]. *)
Definition transcribe_calls (segments : option (list str)) : list call :=
  Reset :: Start "stt"
  :: (match segments with Some _ => [Stop "stt"] | None => [] end).

(** The time in milliseconds between two readings of the clock. *)
Definition elapsed_ms (perf_counter : nat → Q) (i j : nat) : Q :=
  ((perf_counter j - perf_counter i) * 1000)%Q.

End TimingVocabulary.

(** A profiler that holds a start and a time of ["stt"], at its fifth
    reading of the clock. *)
Definition stt_timed : Utils.world :=
  (Utils.Profiler [("stt"%string, 150%Q)] {[ "stt"%string := 3%Q ]}, 5%nat).

(** A profiler that holds the time of an earlier transcription. *)
Definition after_stt : Utils.world :=
  (Utils.Profiler [("stt"%string, 150%Q)] ∅, 0%nat).

(** ** The downloader *)
Section DownloadVocabulary.

Import Download.

(** The models that do not verify on a file system. *)
Definition missing_models {fs} (verify_model : fs → string → bool) (s : fs)
  : list string :=
  filter (λ key, verify_model s key = false) MODELS.

(** The file system after the downloads of [keys], in order. *)
Definition state_after {fs} (download_with_progress : fs → string → bool * fs)
  (keys : list string) (s : fs) : fs :=
  foldl (λ s key, (download_with_progress s key).2) s keys.

(** The download of [key], started after those of [p], succeeds and
    leaves a file that verifies. *)
Definition attempt_ok {fs} (verify_model : fs → string → bool)
  (download_with_progress : fs → string → bool * fs)
  (s : fs) (p : list string) (key : string) : bool :=
  (download_with_progress (state_after download_with_progress p s) key).1
  && verify_model (state_after download_with_progress (p ++ [key]) s) key.

End DownloadVocabulary.
(** ** The audio encoder *)

(** A sample between -1.0 and 1.0: a zero, or a finite number [m * 2 ^ e]
    with [m * 2 ^ e ≤ 1], written without fractions. *)
Definition in_unit_range (x : SpecFloat.spec_float) : bool :=
  match x with
  | SpecFloat.S754_zero _ => true
  | SpecFloat.S754_finite _ m e =>
      (Z.pos m * 2 ^ Z.max e 0 <=? 2 ^ Z.max (- e) 0)%Z
  | _ => false
  end.

(** The integer part of a finite number, toward zero: its magnitude is
    divided, the sign is put back after. *)
Definition truncation (x : SpecFloat.spec_float) : option Z :=
  match x with
  | SpecFloat.S754_zero _ => Some 0%Z
  | SpecFloat.S754_finite s m e =>
      let magnitude :=
        if (0 <=? e)%Z then (Z.pos m * 2 ^ e)%Z else (Z.pos m / 2 ^ (- e))%Z in
      Some (if s then (- magnitude)%Z else magnitude)
  | _ => None
  end.

(** A field of two and of four bytes, the low byte first; a negative
    value of two bytes in two's complement. *)
Definition int16_le (v : Z) : list Z := [v mod 256; v / 256 mod 256]%Z.

Definition uint32_le (v : Z) : list Z :=
  [v mod 256; v / 256 mod 256; v / 65536 mod 256; v / 16777216 mod 256]%Z.

(** The 44 bytes before the samples in a WAV file of [n] samples of 16
    bits, one channel, at [rate] samples a second: ["RIFF"], the length
    of what follows, ["WAVE"], ["fmt "], the length 16 of the format
    chunk, the format 1 (PCM), 1 channel, the sample rate, the bytes a
    second, the bytes a frame, the bits a sample, ["data"], the length of
    the samples. *)
Definition pcm16_mono_header (rate n : Z) : list Z :=
  ([82; 73; 70; 70] ++ uint32_le (36 + 2 * n)
   ++ [87; 65; 86; 69] ++ [102; 109; 116; 32] ++ uint32_le 16
   ++ int16_le 1 ++ int16_le 1 ++ uint32_le rate ++ uint32_le (2 * rate)
   ++ int16_le 2 ++ int16_le 16
   ++ [100; 97; 116; 97] ++ uint32_le (2 * n))%Z.

(** Three samples of a [float32] tensor: 0.0, 1.0 and -0.5. *)
Definition three_samples : list SpecFloat.spec_float :=
  [SpecFloat.S754_zero false; SpecFloat.SFone 24 128;
   SpecFloat.S754_finite true 8388608 (-24)].

(** A platform that gives 0 where the conversion is left open. *)
Definition zero_when_undefined (x : SpecFloat.spec_float) : Z := 0.

(** What is left of [m] after [k] right shifts of the rounding, with
    the record of the bits shifted out. *)
Definition shifted (m k : Z) (mrs : SpecFloat.shr_record) : Prop :=
  (0 ≤ SpecFloat.shr_m mrs ∧ SpecFloat.shr_m mrs * 2 ^ k ≤ m
   ∧ (SpecFloat.shr_r mrs || SpecFloat.shr_s mrs = false
      → m = SpecFloat.shr_m mrs * 2 ^ k)
   ∧ (SpecFloat.shr_r mrs || SpecFloat.shr_s mrs = true
      → SpecFloat.shr_m mrs * 2 ^ k < m))%Z.

(* ===================================================================== *)
(** * The latency profiler (src/utils.py) *)
(* ===================================================================== *)
Section ProfilerFacts.

Import Utils.

Lemma dict_get_set_eq {V} (d : list (string * V)) k v :
  dict_get (dict_set d k v) k = Some v.
Proof.
  induction d as [|[k' v'] d IH]; simpl.
  - by rewrite decide_True.
  - destruct (decide (k = k')) as [->|Hne]; simpl.
    + by rewrite decide_True.
    + by rewrite decide_False.
Qed.

Lemma dict_get_set_ne {V} (d : list (string * V)) k k' v :
  k ≠ k' → dict_get (dict_set d k v) k' = dict_get d k'.
Proof.
  intros Hne. induction d as [|[k0 v0] d IH]; simpl.
  - rewrite decide_False; [done|congruence].
  - destruct (decide (k = k0)) as [->|Hk]; simpl.
    + rewrite !decide_False; [done|congruence..].
    + destruct (decide (k' = k0)); [done|apply IH].
Qed.

(** The grade, by the two thresholds. *)
Lemma grade_of_spec (ms : Q) :
  (grade_of ms = good ↔ ms < 300)%Q
  ∧ (grade_of ms = warning ↔ 300 <= ms ∧ ms < 600)%Q
  ∧ (grade_of ms = poor ↔ 600 <= ms)%Q.
Proof.
  unfold grade_of.
  destruct (Qlt_le_dec ms 300) as [H3|H3];
    [|destruct (Qlt_le_dec ms 600) as [H6|H6]];
    repeat split; intros; try discriminate; try done; try lra.
Qed.

Variable perf_counter : nat → Q.

Lemma stop_keeps_starts nm w :
  _starts (fst (snd (stop perf_counter nm w))) = _starts (fst w).
Proof.
  destruct w as [p tick]. unfold stop.
  by destruct (_starts p !! nm).
Qed.

Lemma run_call_invariant w c :
  timed_is_started (fst w) → timed_is_started (fst (run_call perf_counter w c)).
Proof.
  destruct w as [p tick]. intros Hinv. destruct c as [nm|nm|]; simpl.
  - intros k Hk. simpl in *. destruct (decide (nm = k)) as [->|Hne].
    + rewrite lookup_insert_eq. eauto.
    + rewrite lookup_insert_ne; [|done]. by apply Hinv.
  - destruct (_starts p !! nm) as [t0|] eqn:Hs; simpl; [|done].
    intros k Hk. simpl in *. destruct (decide (nm = k)) as [->|Hne].
    + rewrite Hs. eauto.
    + rewrite dict_get_set_ne in Hk; [|done]. by apply Hinv.
  - intros k [v Hk]. discriminate.
Qed.

Lemma run_invariant calls w :
  timed_is_started (fst w) → timed_is_started (fst (run perf_counter calls w)).
Proof.
  revert w. induction calls as [|c calls IH]; intros w Hinv; [done|].
  simpl. apply IH. by apply run_call_invariant.
Qed.

Lemma run_call_tick w c : snd w ≤ snd (run_call perf_counter w c).
Proof.
  destruct w as [p tick]. destruct c as [nm|nm|]; simpl; [lia| |lia].
  destruct (_starts p !! nm); simpl; lia.
Qed.

Lemma run_tick calls w : snd w ≤ snd (run perf_counter calls w).
Proof.
  revert w. induction calls as [|c calls IH]; intros w; simpl; [lia|].
  etrans; [apply (run_call_tick w c)|apply IH].
Qed.

(** A name that is not started by the calls, nor before them, has no
    start after them. *)
Lemma run_not_started calls nm w :
  Start nm ∉ calls → _starts (fst w) !! nm = None →
  _starts (fst (run perf_counter calls w)) !! nm = None.
Proof.
  revert w. induction calls as [|c calls IH]; intros w Hnot Hw; [done|].
  simpl. apply not_elem_of_cons in Hnot as [Hc Hnot]. apply IH; [done|].
  destruct c as [k|k|]; unfold run_call.
  - destruct w as [p tick]. simpl in *.
    rewrite lookup_insert_ne; [done|congruence].
  - by rewrite stop_keeps_starts.
  - done.
Qed.

(** A start that is neither reset nor replaced by the calls is still
    there after them. *)
Lemma run_keeps_start calls nm t0 w :
  Start nm ∉ calls → Reset ∉ calls → _starts (fst w) !! nm = Some t0 →
  _starts (fst (run perf_counter calls w)) !! nm = Some t0.
Proof.
  revert w. induction calls as [|c calls IH]; intros w Hnot Hres Hw; [done|].
  simpl. apply not_elem_of_cons in Hnot as [Hc Hnot].
  apply not_elem_of_cons in Hres as [Hr Hres]. apply IH; [done..|].
  destruct c as [k|k|]; unfold run_call.
  - destruct w as [p tick]. simpl in *.
    rewrite lookup_insert_ne; [done|congruence].
  - by rewrite stop_keeps_starts.
  - done.
Qed.

(** What [stop] returns for a name that has a start. *)
Lemma stop_started nm t0 p tick :
  _starts p !! nm = Some t0 →
  stop perf_counter nm (p, tick)
  = (((perf_counter tick - t0) * 1000)%Q,
     (Profiler (dict_set (times p) nm ((perf_counter tick - t0) * 1000)%Q)
        (_starts p), S tick)).
Proof. intros Hs. unfold stop. rewrite Hs. by rewrite dict_get_set_eq. Qed.

End ProfilerFacts.

Section ProfilerClaims.

Import Utils.

Lemma seconds_clock_monotonic i j :
  i ≤ j → (seconds_clock i <= seconds_clock j)%Q.
Proof. intros Hij. unfold seconds_clock. rewrite <- Zle_Qle. lia. Qed.

(** C5, as the code has it: [report] emits every recorded duration, in the
    order of recording, each with a grade; the grade is good exactly under
    300, warning exactly from 300 up to but not including 600, poor
    exactly from 600 on.  A duration of 300 is graded warning, a duration
    of 600 poor. *)
Theorem report_grade_thresholds (p : profiler) :
  map (λ line, (snd (fst line), snd line)) (report p) = times p
  ∧ Forall
      (λ line,
         let g := fst (fst line) in
         let ms := snd line in
         (g = good ↔ ms < 300)%Q
         ∧ (g = warning ↔ 300 <= ms ∧ ms < 600)%Q
         ∧ (g = poor ↔ 600 <= ms)%Q)
      (report p)
  ∧ grade_of 300 = warning
  ∧ grade_of 600 = poor.
Proof.
  split; [|split; [|done]].
  - unfold report. rewrite map_map. simpl.
    induction (times p) as [|[nm ms] l IH]; simpl; [done|by f_equal].
  - unfold report. apply Forall_map, Forall_forall.
    intros [nm ms] _. simpl. apply grade_of_spec.
Qed.

(** C5, the claim as written fails: a recorded duration of exactly 600 ms
    is reported with the grade poor, not warning. *)
Lemma report_600_is_poor :
  report (Profiler [("llm_ttft"%string, 600%Q)] ∅)
  = [(poor, "llm_ttft"%string, 600%Q)].
Proof. reflexivity. Qed.

(** C8: with a clock that never goes back, (1) on a fresh or reset
    profiler, after any calls that do not start [nm], [stop nm] returns 0
    and changes nothing; (2) [start nm] followed by [stop nm], with any
    calls between that neither reset nor start [nm] again, returns the
    milliseconds between the two readings, a non-negative value, and
    stores it under [nm]; (3) [reset] clears the starts and the durations,
    and [report] then has no entry. *)
Theorem profiler_stop_start_reset (perf_counter : nat → Q)
  (monotonic : ∀ i j, i ≤ j → (perf_counter i <= perf_counter j)%Q) :
  (∀ p tick calls nm,
     Start nm ∉ calls →
     stop perf_counter nm (run perf_counter calls (reset p, tick))
     = (0%Q, run perf_counter calls (reset p, tick))
     ∧ stop perf_counter nm (run perf_counter calls (fresh, tick))
       = (0%Q, run perf_counter calls (fresh, tick)))
  ∧ (∀ w nm calls,
       Start nm ∉ calls → Reset ∉ calls →
       let w1 := run perf_counter calls (start perf_counter nm w) in
       let r := fst (stop perf_counter nm w1) in
       let p2 := fst (snd (stop perf_counter nm w1)) in
       r = ((perf_counter (snd w1) - perf_counter (snd w)) * 1000)%Q
       ∧ (0 <= r)%Q
       ∧ dict_get (times p2) nm = Some r)
  ∧ (∀ p, times (reset p) = [] ∧ _starts (reset p) = ∅
          ∧ report (reset p) = []).
Proof.
  split; [|split].
  - intros p tick calls nm Hnot.
    assert (∀ w, fst w = fresh →
      stop perf_counter nm (run perf_counter calls w)
      = (0%Q, run perf_counter calls w)) as Hgen.
    { intros w Hw.
      pose proof (run_not_started perf_counter calls nm w Hnot) as Hns.
      pose proof (run_invariant perf_counter calls w) as Hinv.
      destruct (run perf_counter calls w) as [q t] eqn:Hrun. simpl in *.
      rewrite Hw in Hns, Hinv. specialize (Hns (lookup_empty _)).
      unfold stop. rewrite Hns.
      destruct (dict_get (times q) nm) as [v|] eqn:Hv; [|done].
      destruct Hinv with nm as [t0 Ht0].
      - intros k [v' Hk]. discriminate.
      - eauto.
      - congruence. }
    split; by apply Hgen.
  - intros [p tick] nm calls Hnot Hres w1 r p2.
    assert (_starts (fst w1) !! nm = Some (perf_counter tick)) as Hs.
    { apply run_keeps_start; [done..|]. simpl. apply lookup_insert_eq. }
    assert (S tick ≤ snd w1) as Htick.
    { apply (run_tick perf_counter calls (start perf_counter nm (p, tick))). }
    subst r p2. destruct w1 as [q t]. simpl in Hs, Htick.
    rewrite (stop_started perf_counter nm _ q t Hs). simpl.
    split; [done|]. split; [|apply dict_get_set_eq].
    pose proof (monotonic tick t ltac:(lia)). lra.
  - done.
Qed.

Lemma profiler_stop_start_reset_witness :
  fst (stop seconds_clock "stt" (fresh, 0%nat)) = 0%Q
  ∧ (0 <= fst (stop seconds_clock "stt"
                 (start seconds_clock "stt" (fresh, 0%nat))))%Q
  ∧ report (reset (fst (snd (stop seconds_clock "stt"
                               (start seconds_clock "stt" (fresh, 0%nat)))))) = [].
Proof.
  destruct (profiler_stop_start_reset seconds_clock seconds_clock_monotonic)
    as (Hstop & Hpair & Hreset).
  split; [|split].
  - destruct (Hstop fresh 0 [] "stt"%string) as [_ Hf];
      [apply not_elem_of_nil|].
    exact (f_equal fst Hf).
  - destruct (Hpair (fresh, 0%nat) "stt"%string []) as (_ & Hpos & _);
      [apply not_elem_of_nil..|done].
  - apply Hreset.
Defined.

(** C10, as the code has it: [start], [stop] and [reset] keep every name
    of [times] a name of [_starts]; [stop] leaves [_starts] as it is; and
    after one [start nm], with no reset and no other [start nm] between,
    each later [stop nm] returns the milliseconds since the reading of
    that one start: successive values never decrease, none is negative,
    and a value is positive exactly when the clock has advanced since the
    start. *)
Theorem stop_keeps_the_start (perf_counter : nat → Q)
  (monotonic : ∀ i j, i ≤ j → (perf_counter i <= perf_counter j)%Q) :
  (∀ w c, timed_is_started (fst w) →
          timed_is_started (fst (run_call perf_counter w c)))
  ∧ (∀ w nm, _starts (fst (snd (stop perf_counter nm w))) = _starts (fst w))
  ∧ (∀ w nm calls1 calls2,
       Start nm ∉ calls1 → Reset ∉ calls1 →
       Start nm ∉ calls2 → Reset ∉ calls2 →
       let t0 := perf_counter (snd w) in
       let w1 := run perf_counter calls1 (start perf_counter nm w) in
       let s1 := stop perf_counter nm w1 in
       let w2 := run perf_counter calls2 (snd s1) in
       let s2 := stop perf_counter nm w2 in
       fst s1 = ((perf_counter (snd w1) - t0) * 1000)%Q
       ∧ fst s2 = ((perf_counter (snd w2) - t0) * 1000)%Q
       ∧ (0 <= fst s1)%Q ∧ (fst s1 <= fst s2)%Q
       ∧ (0 < fst s1 ↔ t0 < perf_counter (snd w1))%Q
       ∧ (0 < fst s2 ↔ t0 < perf_counter (snd w2))%Q
       ∧ _starts (fst (snd s2)) !! nm = Some t0).
Proof.
  split; [|split].
  - intros w c. apply run_call_invariant.
  - intros w nm. apply stop_keeps_starts.
  - intros [p tick] nm calls1 calls2 Hs1 Hr1 Hs2 Hr2 t0 w1 s1 w2 s2.
    simpl in t0.
    assert (_starts (fst w1) !! nm = Some t0) as Hw1.
    { apply run_keeps_start; [done..|]. simpl. apply lookup_insert_eq. }
    assert (S tick ≤ snd w1) as Ht1.
    { apply (run_tick perf_counter calls1 (start perf_counter nm (p, tick))). }
    destruct w1 as [q1 t1] eqn:Ew1. simpl in Hw1, Ht1.
    assert (s1 = (((perf_counter t1 - t0) * 1000)%Q,
                  (Profiler (dict_set (times q1) nm
                               ((perf_counter t1 - t0) * 1000)%Q)
                     (_starts q1), S t1))) as Es1.
    { subst s1. by apply stop_started. }
    assert (_starts (fst w2) !! nm = Some t0) as Hw2.
    { apply run_keeps_start; [done..|]. by rewrite Es1. }
    assert (S t1 ≤ snd w2) as Ht2.
    { subst w2. etrans; [|apply run_tick]. by rewrite Es1. }
    destruct w2 as [q2 t2] eqn:Ew2. simpl in Hw2, Ht2.
    assert (s2 = (((perf_counter t2 - t0) * 1000)%Q,
                  (Profiler (dict_set (times q2) nm
                               ((perf_counter t2 - t0) * 1000)%Q)
                     (_starts q2), S t2))) as Es2.
    { subst s2. by apply stop_started. }
    rewrite Es1, Es2. simpl.
    pose proof (monotonic tick t1 ltac:(lia)) as M1.
    pose proof (monotonic t1 t2 ltac:(lia)) as M2. fold t0 in M1.
    repeat split; try done; try lra.
Qed.

Lemma stop_keeps_the_start_witness :
  fst (stop seconds_clock "tts_ttfs"
         (start seconds_clock "tts_ttfs" (fresh, 0%nat))) = 1000%Q
  ∧ (fst (stop seconds_clock "tts_ttfs"
            (start seconds_clock "tts_ttfs" (fresh, 0%nat)))
     <= fst (stop seconds_clock "tts_ttfs"
               (snd (stop seconds_clock "tts_ttfs"
                       (start seconds_clock "tts_ttfs" (fresh, 0%nat))))))%Q.
Proof.
  destruct (stop_keeps_the_start seconds_clock seconds_clock_monotonic)
    as (_ & _ & Hstops).
  destruct (Hstops (fresh, 0%nat) "tts_ttfs"%string [] [])
    as (_ & _ & _ & Hle & _); [apply not_elem_of_nil..|].
  split; [reflexivity|exact Hle].
Defined.

(** C10, the claim as written fails: when the clock has not advanced
    between [start] and [stop] (a monotonic clock may repeat a reading),
    [stop] returns 0, which is not positive; the start is still recorded
    and the value stored is that 0. *)
Lemma stop_at_the_start_reading_is_zero :
  stop stalled_clock "llm_ttft" (start stalled_clock "llm_ttft" (fresh, 0%nat))
  = (0%Q, (Profiler [("llm_ttft"%string, 0%Q)] {[ "llm_ttft"%string := 5%Q ]}, 2)).
Proof. reflexivity. Qed.

End ProfilerClaims.

(* ===================================================================== *)
(** * The settings store (src/config.py) *)
(* ===================================================================== *)
Section SettingsClaims.

Import Config.

(** The loop of [update], key by key: a known key takes the value of the
    request when the request has it; every other key keeps what it had. *)
Lemma update_loop_lookup (_settings updates : gmap string json) key :
  update_loop _settings updates !! key
  = if known key then over (updates !! key) (_settings !! key)
    else _settings !! key.
Proof.
  unfold update_loop, known.
  apply (map_fold_weak_ind
    (λ r (m : gmap string json),
       r !! key = if bool_decide (is_Some (DEFAULT_SETTINGS !! key))
                  then over (m !! key) (_settings !! key)
                  else _settings !! key)).
  - rewrite lookup_empty. by case_bool_decide.
  - intros i x m r Hi IH. destruct (decide (i = key)) as [->|Hne].
    + rewrite lookup_insert_eq.
      destruct (bool_decide (is_Some (DEFAULT_SETTINGS !! key))).
      * by rewrite lookup_insert_eq.
      * done.
    + rewrite (lookup_insert_ne m); [|done].
      destruct (bool_decide (is_Some (DEFAULT_SETTINGS !! i)));
        [by rewrite lookup_insert_ne|done].
Qed.

Lemma load_lookup saved hist w key :
  _load (Disk (holds saved) hist w) !! key
  = over (saved !! key) (DEFAULT_SETTINGS !! key).
Proof.
  unfold _load. simpl. rewrite lookup_union.
  destruct (saved !! key), (DEFAULT_SETTINGS !! key); done.
Qed.

(** C4, as the code has it: [update] changes only keys of the default
    schema, each to the value the request gives it, leaves every other
    key (one the request names outside the schema, one it does not name)
    as it was, and then writes the whole of the settings to the file.
    Loading lays the saved mapping over the defaults without filtering:
    a saved key outside the schema stays in the settings, and the next
    write puts it back into the file with its saved value. *)
Theorem update_filters_load_does_not
  (_settings updates : gmap string json) (d : disk) (key : string) :
  let s' := fst (update updates _settings d) in
  let d' := snd (update updates _settings d) in
  s' !! key = (if known key then over (updates !! key) (_settings !! key)
               else _settings !! key)
  ∧ SETTINGS_FILE d' = (if writable d then holds s' else SETTINGS_FILE d)
  ∧ (∀ saved hist,
       let d0 := Disk (holds saved) hist true in
       _load d0 !! key = over (saved !! key) (DEFAULT_SETTINGS !! key)
       ∧ ∃ written,
           SETTINGS_FILE (snd (update updates (_load d0) d0)) = holds written
           ∧ written !! key
             = if known key
               then over (updates !! key)
                      (over (saved !! key) (DEFAULT_SETTINGS !! key))
               else saved !! key).
Proof.
  simpl. split; [apply update_loop_lookup|]. split.
  - unfold save. by destruct (writable d).
  - intros saved hist. split; [apply load_lookup|].
    eexists. split; [reflexivity|].
    rewrite update_loop_lookup, load_lookup. unfold known.
    case_bool_decide as Hk; [done|].
    destruct (DEFAULT_SETTINGS !! key) eqn:Hd.
    + exfalso. apply Hk. eauto.
    + by destruct (saved !! key).
Qed.

(** C4, the claim as written fails: a file that holds the key ["foo"],
    which is not in the schema, is loaded, the voice is updated, and the
    mapping written by that update still has ["foo"] with its value. *)
Lemma unknown_key_is_written_back :
  DEFAULT_SETTINGS !! "foo"%string = None
  ∧ ∃ written,
      SETTINGS_FILE
        (snd (update {[ "voice"%string := JStr "en_1" ]}
                (_load disk_with_foo) disk_with_foo))
      = holds written
      ∧ written !! "foo"%string = Some (JNum 1)
      ∧ written !! "voice"%string = Some (JStr "en_1").
Proof.
  split; [reflexivity|].
  eexists. split; [reflexivity|].
  rewrite !update_loop_lookup. unfold disk_with_foo.
  rewrite !load_lookup. split; reflexivity.
Qed.

End SettingsClaims.

(* ===================================================================== *)
(** * The contract of the builtin sort *)
(* ===================================================================== *)
Section SortReverse.

Context {A : Type} (key : A → nat).

Lemma insert_reverse_perm x l : insert_reverse key x l ≡ₚ x :: l.
Proof.
  induction l as [|y l IH]; simpl; [done|].
  destruct (key x <? key y); [|done].
  rewrite IH. apply Permutation_swap.
Qed.

Lemma sort_reverse_perm l : sort_reverse key l ≡ₚ l.
Proof.
  induction l as [|x l IH]; simpl; [done|].
  rewrite insert_reverse_perm. by f_equiv.
Qed.

Lemma insert_reverse_sorted x l :
  StronglySorted (key_ge key) l → StronglySorted (key_ge key) (insert_reverse key x l).
Proof.
  induction l as [|y l IH]; simpl; intros Hs.
  - repeat constructor.
  - apply StronglySorted_cons in Hs as [Hy Hl].
    destruct (key x <? key y) eqn:Hxy.
    + apply Nat.ltb_lt in Hxy. apply StronglySorted_cons. split; [|by apply IH].
      rewrite insert_reverse_perm. constructor; [unfold key_ge; lia|done].
    + apply Nat.ltb_ge in Hxy. apply StronglySorted_cons. split.
      * constructor; [done|].
        eapply Forall_impl; [exact Hy|]. unfold key_ge. intros; lia.
      * by apply StronglySorted_cons.
Qed.

Lemma sort_reverse_sorted l : StronglySorted (key_ge key) (sort_reverse key l).
Proof.
  induction l as [|x l IH]; simpl; [constructor|].
  by apply insert_reverse_sorted.
Qed.

(** Stability: an element is never moved across one of its own key. *)
Lemma insert_reverse_stable x l n :
  filter (λ y, key y = n) (insert_reverse key x l)
  = filter (λ y, key y = n) (x :: l).
Proof.
  induction l as [|y l IH]; simpl; [done|].
  destruct (key x <? key y) eqn:Hxy; [|done].
  apply Nat.ltb_lt in Hxy.
  rewrite (filter_cons _ y), IH, !(filter_cons _ x), (filter_cons _ y).
  repeat case_decide; try done; lia.
Qed.

Lemma sort_reverse_stable l n :
  filter (λ y, key y = n) (sort_reverse key l) = filter (λ y, key y = n) l.
Proof.
  induction l as [|x l IH]; simpl; [done|].
  rewrite insert_reverse_stable, !filter_cons, IH. done.
Qed.

(** The contract fixes the result: two lists in the order [key_ge] that
    agree, key by key, on the elements of that key and their order, are
    the same list. *)
Lemma stable_sort_unique l1 l2 :
  StronglySorted (key_ge key) l1 → StronglySorted (key_ge key) l2 →
  (∀ n, filter (λ y, key y = n) l1 = filter (λ y, key y = n) l2) →
  l1 = l2.
Proof.
  revert l2. induction l1 as [|x t1 IH]; intros l2 Hs1 Hs2 Hf.
  - destruct l2 as [|y t2]; [done|].
    specialize (Hf (key y)). rewrite filter_cons_True in Hf; done.
  - destruct l2 as [|y t2].
    { specialize (Hf (key x)). rewrite filter_cons_True in Hf; done. }
    apply StronglySorted_cons in Hs1 as [Hx Hs1].
    apply StronglySorted_cons in Hs2 as [Hy Hs2].
    assert (key y ≤ key x) as Hyx.
    { assert (y ∈ filter (λ z, key z = key y) (x :: t1)) as Hin.
      { rewrite Hf, filter_cons_True; [left|done]. }
      apply list_elem_of_filter in Hin as [Hk Hin].
      apply elem_of_cons in Hin as [->|Hin]; [done|].
      rewrite Forall_forall in Hx. apply Hx in Hin. unfold key_ge in Hin. lia. }
    assert (key x ≤ key y) as Hxy.
    { assert (x ∈ filter (λ z, key z = key x) (y :: t2)) as Hin.
      { rewrite <- Hf, filter_cons_True; [left|done]. }
      apply list_elem_of_filter in Hin as [Hk Hin].
      apply elem_of_cons in Hin as [->|Hin]; [done|].
      rewrite Forall_forall in Hy. apply Hy in Hin. unfold key_ge in Hin. lia. }
    assert (x = y) as ->.
    { specialize (Hf (key x)).
      rewrite !filter_cons_True in Hf by lia. congruence. }
    f_equal. apply IH; [done..|]. intros n. specialize (Hf n).
    rewrite !(filter_cons _ y) in Hf. case_decide; congruence.
Qed.

End SortReverse.

(* ===================================================================== *)
(** * Trimming, the split at headings and the bracket pattern *)
(* ===================================================================== *)
Section TextFacts.

Lemma lstrip_decompose s : ∃ pre, s = pre ++ lstrip s ∧ all_space pre.
Proof.
  induction s as [|c r IH]; simpl.
  - exists []. split; [done|constructor].
  - destruct (isspace c) eqn:Hc.
    + destruct IH as (pre & Hr & Hpre). exists (c :: pre).
      split; [simpl; congruence|by constructor].
    + exists []. split; [done|constructor].
Qed.

Lemma rstrip_decompose s : ∃ post, s = rstrip s ++ post ∧ all_space post.
Proof.
  unfold rstrip. destruct (lstrip_decompose (reverse s)) as (pre & Hs & Hpre).
  exists (reverse pre). split.
  - rewrite <- reverse_app, <- Hs. by rewrite reverse_involutive.
  - by apply Forall_reverse.
Qed.

(** The trimmed text is what is left between two runs of whitespace. *)
Lemma strip_decompose s :
  ∃ pre post, s = pre ++ strip s ++ post ∧ all_space pre ∧ all_space post.
Proof.
  unfold strip. destruct (lstrip_decompose s) as (pre & Hs & Hpre).
  destruct (rstrip_decompose (lstrip s)) as (post & Hl & Hpost).
  exists pre, post. split; [|done]. by rewrite <- Hl.
Qed.

(** Trimming stops at a code point that is no whitespace. *)
Lemma lstrip_stops a x b c :
  head x = Some c → isspace c = false →
  ∃ a', lstrip (a ++ x ++ b) = a' ++ x ++ b.
Proof.
  intros Hx Hc. induction a as [|d a IH]; simpl.
  - exists []. destruct x as [|c' x]; [done|].
    simpl in *. injection Hx as ->. by rewrite Hc.
  - destruct (isspace d); [done|]. by exists (d :: a).
Qed.

Lemma rstrip_stops a x b c :
  last x = Some c → isspace c = false →
  ∃ b', rstrip (a ++ x ++ b) = a ++ x ++ b'.
Proof.
  intros Hx Hc. unfold rstrip. rewrite !reverse_app, <- app_assoc.
  destruct (lstrip_stops (reverse b) (reverse x) (reverse a) c) as [b' ->];
    [by rewrite head_reverse|done|].
  exists (reverse b').
  by rewrite !reverse_app, !reverse_involutive, <- app_assoc.
Qed.


Lemma endswith_char s d : endswith s [d] = true ↔ last s = Some d.
Proof.
  unfold endswith. rewrite bool_decide_eq_true, last_Some. split.
  - intros [k ->]. eauto.
  - intros [k ->]. by exists k.
Qed.

(** ** The split at headings *)

Lemma re_split_headings_cons s :
  ∃ first others, re_split_headings s = first :: others.
Proof.
  destruct s as [|c r]; simpl; [eauto|].
  destruct (bool_decide (c = LF) && heading_ahead r); [eauto|].
  destruct (re_split_headings r); eauto.
Qed.

(** The pieces, put together with the line feeds that were taken out,
    are the text. *)
Lemma re_split_headings_join s : join [LF] (re_split_headings s) = s.
Proof.
  induction s as [|c r IH]; [done|]. simpl.
  destruct (re_split_headings_cons r) as (first & others & Hr).
  rewrite Hr in *.
  destruct (bool_decide (c = LF) && heading_ahead r) eqn:Hsplit.
  - apply andb_true_iff in Hsplit as [->%bool_decide_eq_true _].
    simpl in *. by rewrite IH.
  - simpl in *. destruct others; simpl in *; by rewrite <- IH.
Qed.

(** Text with no line feed in it that starts [s] is in the first piece. *)
Lemma re_split_headings_first p s :
  p `prefix_of` s → LF ∉ p →
  ∃ first others, re_split_headings s = first :: others
                  ∧ p `prefix_of` first.
Proof.
  revert s. induction p as [|c p IH]; intros s Hp Hlf.
  - destruct (re_split_headings_cons s) as (first & others & ->).
    exists first, others. split; [done|]. apply prefix_nil.
  - destruct Hp as [k ->]. apply not_elem_of_cons in Hlf as [Hc Hlf].
    destruct (IH (p ++ k)) as (first & others & Hr & Hfirst);
      [by exists k|done|].
    simpl. rewrite bool_decide_eq_false_2 by done. simpl. rewrite Hr.
    exists (c :: first), others. split; [done|]. by apply prefix_cons.
Qed.

Lemma heading_ahead_prefix s t :
  heading_ahead s = true →
  (∀ p, LF ∉ p → p `prefix_of` s → p `prefix_of` t) →
  heading_ahead t = true.
Proof.
  unfold heading_ahead. rewrite !existsb_exists.
  intros (p & Hp & Hs) Hst. exists p. split; [done|].
  apply bool_decide_eq_true in Hs. apply bool_decide_eq_true.
  apply Hst; [|done]. apply list_elem_of_In in Hp.
  repeat (apply elem_of_cons in Hp as [->|Hp]);
    [..|by apply elem_of_nil in Hp];
    intros Hin; repeat (apply elem_of_cons in Hin as [Hin|Hin]; [done|]);
    by apply elem_of_nil in Hin.
Qed.

(** Every piece but the first starts with a heading. *)
Lemma re_split_headings_heads s :
  Forall (λ piece, heading_ahead piece = true) (tail (re_split_headings s)).
Proof.
  induction s as [|c r IH]; simpl; [constructor|].
  destruct (bool_decide (c = LF) && heading_ahead r) eqn:Hsplit.
  - apply andb_true_iff in Hsplit as [_ Hhead]. simpl.
    destruct (re_split_headings_cons r) as (first & others & Hr).
    rewrite Hr in *. simpl in IH. constructor; [|done].
    apply (heading_ahead_prefix r); [done|].
    intros p Hlf Hp.
    destruct (re_split_headings_first p r Hp Hlf)
      as (first' & others' & Hr' & Hfirst).
    congruence.
  - destruct (re_split_headings r); [constructor|done].
Qed.

Lemma heading_ahead_app s t :
  heading_ahead s = true → heading_ahead (s ++ t) = true.
Proof.
  intros Hs. apply (heading_ahead_prefix s); [done|].
  intros p _ Hp. by apply prefix_app_r.
Qed.

(** The first piece is the start of the text. *)
Lemma re_split_headings_first_prefix s first others :
  re_split_headings s = first :: others → first `prefix_of` s.
Proof.
  intros Hs. pose proof (re_split_headings_join s) as Hj. rewrite Hs in Hj.
  destruct others as [|p ps]; simpl in Hj.
  - by rewrite Hj.
  - rewrite <- Hj. by eexists.
Qed.

(** The text is cut at every line feed that a heading follows: none is
    left inside a piece. *)
Lemma re_split_headings_cut s :
  Forall no_heading_inside (re_split_headings s).
Proof.
  induction s as [|c r IH]; simpl.
  - constructor; [|constructor]. intros a b Hab. by destruct a.
  - destruct (bool_decide (c = LF) && heading_ahead r) eqn:Hsplit.
    + constructor; [|done]. intros a b Hab. by destruct a.
    + destruct (re_split_headings r) as [|p ps] eqn:Hr.
      * constructor; [|constructor]. intros a b Hab.
        destruct a as [|c' a]; simplify_eq/=; [done|by destruct a].
      * apply Forall_cons in IH as [Hp Hps]. constructor; [|done].
        intros a b Hab. destruct a as [|c' a]; simplify_eq/=.
        -- apply not_true_is_false. intros Hb.
           apply re_split_headings_first_prefix in Hr as [k ->].
           by rewrite (heading_ahead_app _ _ Hb) in Hsplit.
        -- by apply (Hp a b).
Qed.

(** ** The pattern [\[.*?\]] *)

Lemma re_sub_brackets_unfold s :
  re_sub_brackets s
  = match s with
    | [] => []
    | c :: r =>
        match match_bracketed (c :: r) with
        | Some rest => re_sub_brackets rest
        | None => c :: re_sub_brackets r
        end
    end.
Proof. funelim (re_sub_brackets s); [done|rewrite e; done|rewrite e; done]. Qed.

Lemma re_sub_brackets_cons c r :
  re_sub_brackets (c :: r)
  = match match_bracketed (c :: r) with
    | Some rest => re_sub_brackets rest
    | None => c :: re_sub_brackets r
    end.
Proof. exact (re_sub_brackets_unfold (c :: r)). Qed.

Lemma close_bracket_Some s rest :
  close_bracket s = Some rest →
  ∃ mid, s = mid ++ "]"%char :: rest ∧ (LF ∉ mid) ∧ ("]"%char ∉ mid).
Proof.
  induction s as [|c r IH]; simpl; [done|].
  case_bool_decide as Hc; [|case_bool_decide as Hlf].
  - intros [= ->]. exists []. subst c.
    split; [done|]. split; apply not_elem_of_nil.
  - done.
  - intros (mid & -> & Hmid & Hmid')%IH. exists (c :: mid).
    split; [done|]. split; apply not_elem_of_cons; done.
Qed.








Lemma close_bracket_no_close t : "]"%char ∉ t → close_bracket t = None.
Proof.
  induction t as [|c t IH]; [done|].
  intros [Hc Ht]%not_elem_of_cons. simpl.
  rewrite bool_decide_eq_false_2 by done.
  destruct (bool_decide (c = LF)); [done|]. by apply IH.
Qed.








End TextFacts.

(* ===================================================================== *)
(** * Word tokens: what [\b\w{3,}\b] matches *)
(* ===================================================================== *)
Section WordTokens.

Lemma all_word_no_end pre : all_word pre → no_word_at_end pre → pre = [].
Proof.
  unfold all_word. intros Hall Hend.
  induction pre as [|c pre _] using rev_ind; [done|].
  unfold no_word_at_end in Hend. rewrite last_snoc in Hend.
  apply Forall_app in Hall as [_ Hc]. apply Forall_cons in Hc as [Hc _].
  congruence.
Qed.

Lemma all_word_no_start post :
  all_word post → no_word_at_start post → post = [].
Proof.
  unfold all_word. intros Hall Hstart. destruct post as [|c post]; [done|].
  apply Forall_cons in Hall as [Hc _]. simpl in Hstart. congruence.
Qed.

Lemma word_match_elem run w :
  w ∈ word_match run ↔ w = run ∧ 3 ≤ length run.
Proof.
  unfold word_match. destruct (3 <=? length run) eqn:Hlen.
  - apply Nat.leb_le in Hlen. rewrite list_elem_of_singleton.
    split; [by intros ->|by intros [-> _]].
  - apply Nat.leb_gt in Hlen. rewrite elem_of_nil. split; [done|lia].
Qed.

(** A token of a text made of word characters only is the whole text. *)
Lemma word_token_of_run run w :
  all_word run → word_token run w ↔ w = run ∧ 3 ≤ length run.
Proof.
  unfold word_token, all_word. intros Hrun. split.
  - intros (Hlen & Hw & pre & post & -> & Hpre & Hpost).
    apply Forall_app in Hrun as [Hp Hrun].
    apply Forall_app in Hrun as [_ Hq].
    rewrite (all_word_no_end pre Hp Hpre) in *.
    rewrite (all_word_no_start post Hq Hpost) in *.
    simpl. rewrite app_nil_r. done.
  - intros [-> Hlen]. split; [done|]. split; [done|].
    exists [], []. by rewrite app_nil_r.
Qed.

(** Across a character that is no word character: a token lies before
    it, and is then the run that ends there, or after it. *)
Lemma word_token_split run c r w :
  all_word run → isword c = false →
  word_token (run ++ c :: r) w ↔ (w = run ∧ 3 ≤ length run) ∨ word_token r w.
Proof.
  unfold word_token, all_word. intros Hrun Hc. split.
  - intros (Hlen & Hw & pre & post & Heq & Hpre & Hpost).
    apply app_eq_app in Heq as [k [[-> Hk]|[-> Hk]]].
    + apply Forall_app in Hrun as [Hp Hk'].
      rewrite (all_word_no_end pre Hp Hpre) in *. simpl in *.
      symmetry in Hk. apply app_eq_app in Hk as [k' [[-> Hk2]|[-> Hk2]]].
      * apply Forall_app in Hk' as [_ Hk'].
        destruct k' as [|c' k']; [left; by rewrite app_nil_r in *|].
        apply Forall_cons in Hk' as [Hc' _].
        rewrite Hk2 in Hpost. simpl in Hpost. congruence.
      * destruct k' as [|c' k'].
        { left. rewrite app_nil_r in *. done. }
        injection Hk2 as <- _. apply Forall_app in Hw as [_ Hw].
        apply Forall_cons in Hw as [Hw _]. congruence.
    + destruct k as [|c' k].
      * simpl in Hk. destruct w as [|c' w]; [simpl in Hlen; lia|].
        injection Hk as <- _. apply Forall_cons in Hw as [Hw _]. congruence.
      * injection Hk as <- ->. right. split; [done|]. split; [done|].
        exists k, post. split; [done|]. split; [|done].
        unfold no_word_at_end in *. rewrite last_app_cons, last_cons in Hpre.
        destruct (last k); [done|done].
  - intros [[-> Hlen]|(Hlen & Hw & pre & post & -> & Hpre & Hpost)].
    + split; [done|]. split; [done|]. exists [], (c :: r).
      split; [done|]. split; [done|]. simpl. done.
    + split; [done|]. split; [done|]. exists (run ++ c :: pre), post.
      split; [by rewrite <- app_assoc|]. split; [|done].
      unfold no_word_at_end in *. rewrite last_app_cons, last_cons.
      by destruct (last pre).
Qed.

(** The scanner finds the tokens of the run read so far and the text to
    come. *)
Lemma findall_from_tokens run s w :
  all_word run → w ∈ findall_from run s ↔ word_token (run ++ s) w.
Proof.
  revert run. induction s as [|c r IH]; intros run Hrun; simpl.
  - rewrite app_nil_r, word_match_elem. by rewrite word_token_of_run.
  - destruct (isword c) eqn:Hc.
    + rewrite IH, <- app_assoc; [done|].
      apply Forall_app. split; [done|]. by apply Forall_cons.
    + rewrite elem_of_app, word_match_elem, (IH []) by constructor.
      by rewrite word_token_split.
Qed.

(** [re.findall(r'\b\w{3,}\b', s)] lists the word tokens of [s]. *)
Lemma findall_words_tokens s w : w ∈ re_findall_words s ↔ word_token s w.
Proof. unfold re_findall_words. by rewrite findall_from_tokens by constructor. Qed.

End WordTokens.

(* ===================================================================== *)
(** * The retrieval scorer (src/rag.py) *)
(* ===================================================================== *)
Section RagFacts.

Import Rag.

Lemma scored_candidates qk documents :
  scored qk documents = candidates qk documents.
Proof.
  unfold scored, candidates.
  enough (∀ acc,
    foldl (λ acc doc, let o := overlap qk doc in
                      if 0 <? o then acc ++ [(o, doc)] else acc) acc documents
    = acc ++ filter (λ p, 0 < fst p)
               (map (λ d, (overlap qk d, d)) documents)) as Hgen.
  { apply (Hgen []). }
  induction documents as [|d docs IH]; intros acc; simpl.
  - by rewrite app_nil_r.
  - rewrite IH, filter_cons. simpl.
    destruct (0 <? overlap qk d) eqn:Ho.
    + apply Nat.ltb_lt in Ho. rewrite decide_True by done.
      by rewrite <- app_assoc.
    + apply Nat.ltb_ge in Ho. rewrite decide_False by lia. done.
Qed.

Lemma split_content_kept text src :
  _split_content text src
  = map (λ section, Chunk section src (keywords_of section))
      (kept_sections text).
Proof.
  unfold _split_content, kept_sections.
  enough (∀ acc,
    foldl (λ chunks section,
             let section := strip section in
             if 20 <? length section
             then chunks ++ [Chunk section src (keywords_of section)]
             else chunks) acc (re_split_headings text)
    = acc ++ map (λ section, Chunk section src (keywords_of section))
               (filter (λ section, 20 < length section)
                  (map strip (re_split_headings text)))) as Hgen.
  { apply (Hgen []). }
  induction (re_split_headings text) as [|sec secs IH]; intros acc; simpl.
  - by rewrite app_nil_r.
  - rewrite IH, filter_cons.
    destruct (20 <? length (strip sec)) eqn:Hlen.
    + apply Nat.ltb_lt in Hlen. rewrite decide_True by done.
      by rewrite <- app_assoc.
    + apply Nat.ltb_ge in Hlen. rewrite decide_False by lia. done.
Qed.

Lemma split_content_well_formed text src :
  Forall well_formed (_split_content text src).
Proof.
  rewrite split_content_kept. apply Forall_map, Forall_forall.
  intros section [Hlen _]%list_elem_of_filter. split; simpl; [lia|done].
Qed.

Lemma load_documents_well_formed dir :
  Forall well_formed (load_documents dir).
Proof.
  destruct dir as [dir|]; unfold load_documents; [|constructor].
  apply Forall_forall. intros c Hc%list_elem_of_In.
  apply in_flat_map in Hc as (ext & _ & Hc).
  apply in_flat_map in Hc as (f & _ & Hc).
  destruct (read_text f) as [text|]; [|done].
  apply list_elem_of_In in Hc.
  pose proof (split_content_well_formed text (name f)) as Hall.
  rewrite Forall_forall in Hall. by apply Hall.
Qed.

Lemma slice_to_subseteq {A} k (l : list A) : slice_to k l ⊆ l.
Proof. unfold slice_to. destruct (0 <=? k)%Z; apply subseteq_take. Qed.

(** A pair of [top_docs] is a loaded chunk with its overlap, which is
    positive. *)
Lemma top_docs_elem documents query top_k p :
  p ∈ top_docs documents query top_k →
  snd p ∈ documents
  ∧ fst p = overlap (keywords_of query) (snd p)
  ∧ 0 < fst p.
Proof.
  unfold top_docs. intros Hp%slice_to_subseteq.
  rewrite sort_reverse_perm, scored_candidates in Hp.
  apply list_elem_of_filter in Hp as [Hpos Hp].
  apply list_elem_of_fmap in Hp as (d & -> & Hd). done.
Qed.

Lemma overlap_positive_keywords qk c : 0 < overlap qk c → keywords c ≠ ∅.
Proof.
  unfold overlap. intros Hpos Hempty. rewrite Hempty in Hpos.
  rewrite intersection_empty_r_L, size_empty in Hpos. lia.
Qed.

(** The keyword set of a text: the word tokens of its lower-case form. *)
Lemma keywords_of_tokens text w :
  w ∈ keywords_of text ↔ word_token (lower text) w.
Proof.
  unfold keywords_of. by rewrite elem_of_list_to_set, findall_words_tokens.
Qed.

(** [retrieve] is the join of the parts of [top_docs], also where the
    code returns early. *)
Lemma retrieve_join documents query top_k :
  retrieve documents query top_k
  = join [LF; LF]
      (map (λ p, context_part (snd p)) (top_docs documents query top_k)).
Proof.
  unfold retrieve. destruct documents as [|d docs].
  - unfold top_docs, slice_to. simpl. by rewrite !take_nil, Tauto.if_same.
  - by destruct (top_docs (d :: docs) query top_k).
Qed.

End RagFacts.

Section RagClaims.

Import Rag.

Example guide_loads :
  load_documents (Some [File (lit "guide.md") (Some guide)])
  = [install_chunk; privacy_chunk; network_chunk; speech_chunk].
Proof. reflexivity. Qed.

(** [str.lower], code point by code point: a capital becomes its small
    letter and nothing else changes. *)
Lemma lower_char_to_small c : lower_char c = to_small c.
Proof. done. Qed.

Lemma lower_to_small s : lower s = map to_small s.
Proof. done. Qed.

(** C2: for a count [top_k] that is not negative, [retrieve] scores every
    chunk by the number of keywords it shares with the query, the size of
    the intersection of the two keyword sets (the query's keywords being
    the word tokens of its lower-case form, in which every capital letter
    has become its small letter and nothing else has changed), keeps the
    chunks that share at least one, ranks them by that number from high to
    low with equal numbers in load order (the one list that is so ranked),
    and returns the parts of the first [top_k] of them joined by a blank
    line, each part being the source name in its label, a line feed and
    the first 500 code points of the content; with no chunk kept the
    result is empty.  When the chunks that share a keyword with the query
    are three, of overlaps 3, 1 and 2, loaded in any order and among any
    others, [top_k = 2] gives the part of the 3 and then that of the
    2. *)
Theorem retrieve_ranks_by_overlap
  (documents : list chunk) (query : str) (top_k : Z) :
  (0 ≤ top_k)%Z →
  let qk := keywords_of query in
  (∀ w, w ∈ qk ↔ word_token (lower query) w)
  ∧ lower query = map (λ c, if capital c then small_of c else c) query
  ∧ lower (lit "ABCDEFGHIJKLMNOPQRSTUVWXYZ")
    = lit "abcdefghijklmnopqrstuvwxyz"
  ∧ candidates qk documents
    = filter (λ p, 0 < fst p)
        (map (λ d, (size (qk ∩ keywords d), d)) documents)
  ∧ (∃ ranked,
       ranked ≡ₚ candidates qk documents
       ∧ StronglySorted (key_ge fst) ranked
       ∧ (∀ n, filter (λ p, fst p = n) ranked
               = filter (λ p, fst p = n) (candidates qk documents))
       ∧ (∀ other,
            StronglySorted (key_ge fst) other →
            (∀ n, filter (λ p, fst p = n) other
                  = filter (λ p, fst p = n) (candidates qk documents)) →
            other = ranked)
       ∧ retrieve documents query top_k
         = join [LF; LF]
             (map (λ p, lit "[From " ++ source (snd p) ++ lit "]" ++ [LF]
                        ++ take 500 (content (snd p)))
                (take (Z.to_nat top_k) ranked))
       ∧ length (take (Z.to_nat top_k) ranked) ≤ Z.to_nat top_k)
  ∧ (candidates qk documents = [] → retrieve documents query top_k = [])
  ∧ (∀ d3 d1 d2,
       candidates qk documents ≡ₚ [(3, d3); (1, d1); (2, d2)] →
       retrieve documents query 2
       = context_part d3 ++ [LF; LF] ++ context_part d2).
Proof.
  intros Hk qk. split; [intros w; apply keywords_of_tokens|].
  split; [apply lower_to_small|]. split; [reflexivity|].
  split; [reflexivity|].
  assert (top_docs documents query top_k
          = take (Z.to_nat top_k) (sort_reverse fst (candidates qk documents)))
    as Htop.
  { unfold top_docs, slice_to. rewrite scored_candidates.
    by rewrite (proj2 (Z.leb_le 0 top_k) Hk). }
  split; [|split].
  - exists (sort_reverse fst (candidates qk documents)).
    split; [apply sort_reverse_perm|].
    split; [apply sort_reverse_sorted|].
    split; [intros n; apply (sort_reverse_stable fst)|].
    split.
    { intros other Hsorted Hstable.
      apply (stable_sort_unique fst); [done|apply sort_reverse_sorted|].
      intros n. by rewrite Hstable, (sort_reverse_stable fst). }
    split; [by rewrite retrieve_join, Htop|].
    rewrite length_take. lia.
  - intros Hnone. rewrite retrieve_join, Htop, Hnone. simpl.
    by rewrite take_nil.
  - intros d3 d1 d2 Hperm. symmetry in Hperm.
    apply permutations_Permutation in Hperm. simpl in Hperm.
    rewrite retrieve_join. unfold top_docs. rewrite scored_candidates.
    fold qk.
    repeat (apply elem_of_cons in Hperm as [->|Hperm]);
      [..|by apply elem_of_nil in Hperm]; reflexivity.
Qed.

Lemma retrieve_ranks_by_overlap_witness :
  retrieve [install_chunk; privacy_chunk; network_chunk; speech_chunk]
    (lit "Offline VOICE Assistant") 2
  = context_part speech_chunk ++ [LF; LF] ++ context_part network_chunk.
Proof.
  destruct (retrieve_ranks_by_overlap
              [install_chunk; privacy_chunk; network_chunk; speech_chunk]
              (lit "Offline VOICE Assistant") 2 ltac:(lia))
    as (_ & _ & _ & _ & _ & _ & Hthree).
  apply (Hthree speech_chunk install_chunk network_chunk).
  change (candidates (keywords_of (lit "Offline VOICE Assistant"))
            [install_chunk; privacy_chunk; network_chunk; speech_chunk])
    with [(1, install_chunk); (2, network_chunk); (3, speech_chunk)].
  symmetry.
  apply (Permutation_cons_append [(1, install_chunk); (2, network_chunk)]).
Defined.

(** C3, as the code has it: the text is cut at every line feed that a
    heading follows (one to three ["#"] and a space) and nowhere else:
    the pieces joined by line feeds are the text, every piece after the
    first starts with a heading, and no piece has a line feed with a
    heading after it left inside.  A trimmed piece becomes a chunk exactly
    when it is longer than 20 code points; the sections of 20 or fewer
    are dropped, the others are kept in order, each with the file's name
    and the keywords of its text.  So a chunk has at least 21 code
    points, and whatever [retrieve] ranks, from whatever directory was
    loaded, has them too: a section of length 20 or less is never
    retrieved. *)
Theorem split_keeps_sections_over_20 (text src : str) :
  join [LF] (re_split_headings text) = text
  ∧ Forall (λ piece, heading_ahead piece = true)
      (tail (re_split_headings text))
  ∧ Forall (λ piece, ∀ a b, piece = a ++ LF :: b → heading_ahead b = false)
      (re_split_headings text)
  ∧ _split_content text src
    = map (λ section, Chunk section src (keywords_of section))
        (filter (λ section, 20 < length section)
           (map strip (re_split_headings text)))
  ∧ Forall (λ c, 21 ≤ length (content c)) (_split_content text src)
  ∧ (∀ dir query top_k,
       Forall (λ p, snd p ∈ load_documents dir
                    ∧ 21 ≤ length (content (snd p)))
         (top_docs (load_documents dir) query top_k)).
Proof.
  split; [apply re_split_headings_join|].
  split; [apply re_split_headings_heads|].
  split; [apply re_split_headings_cut|].
  split; [apply split_content_kept|]. split.
  - eapply Forall_impl; [apply split_content_well_formed|].
    by intros c [Hlen _].
  - intros dir query top_k. apply Forall_forall. intros p Hp.
    apply top_docs_elem in Hp as (Hin & _ & _). split; [done|].
    pose proof (load_documents_well_formed dir) as Hall.
    rewrite Forall_forall in Hall. by apply Hall in Hin as [Hlen _].
Qed.

(** C3, the claim as written fails: a section of exactly 20 code points,
    with the keywords of the query in it, is not kept and not retrieved,
    while the same section with one more code point is. *)
Lemma section_of_20_is_dropped :
  length (strip (lit "## Notes on MIDAS ok")) = 20
  ∧ _split_content (lit "## Notes on MIDAS ok") (lit "kb.md") = []
  ∧ retrieve
      (load_documents
         (Some [File (lit "kb.md") (Some (lit "## Notes on MIDAS ok"))]))
      (lit "midas notes") 2 = []
  ∧ map content (_split_content (lit "## Notes on MIDAS ok!") (lit "kb.md"))
    = [lit "## Notes on MIDAS ok!"].
Proof. repeat split; reflexivity. Qed.

(** C6, as the code has it: every loaded chunk is a trimmed section of
    at least 21 code points whose keyword set is the set of word tokens
    of its lower-case text, and that set may be empty.  The scoring loop
    visits every loaded chunk; one with an empty keyword set scores 0 and
    is in no ranking.  Every chunk that is ranked is a loaded chunk with
    a positive overlap, and so with a keyword set that is not empty. *)
Theorem ranked_chunks_have_keywords
  (dir : option (list file)) (query : str) (top_k : Z) :
  Forall (λ c, 21 ≤ length (content c)
               ∧ ∀ w, w ∈ keywords c ↔ word_token (lower (content c)) w)
    (load_documents dir)
  ∧ Forall (λ p, snd p ∈ load_documents dir
                 ∧ fst p = overlap (keywords_of query) (snd p)
                 ∧ 0 < fst p
                 ∧ keywords (snd p) ≠ ∅)
      (top_docs (load_documents dir) query top_k)
  ∧ (∀ c documents,
       keywords c = ∅ →
       overlap (keywords_of query) c = 0
       ∧ c ∉ map snd (top_docs documents query top_k)).
Proof.
  split; [|split].
  - eapply Forall_impl; [apply load_documents_well_formed|].
    intros c [Hlen Hkw]. split; [done|]. intros w.
    rewrite Hkw. apply keywords_of_tokens.
  - apply Forall_forall. intros p Hp.
    apply top_docs_elem in Hp as (Hin & Ho & Hpos).
    repeat split; [done..|].
    apply (overlap_positive_keywords (keywords_of query)). by rewrite <- Ho.
  - intros c documents Hempty.
    assert (overlap (keywords_of query) c = 0) as Hzero.
    { unfold overlap. by rewrite Hempty, intersection_empty_r_L, size_empty. }
    split; [done|].
    intros (p & -> & Hp)%list_elem_of_fmap.
    apply top_docs_elem in Hp as (_ & Ho & Hpos). lia.
Qed.

(** C6, the claim as written fails: a section of 23 code points with no
    run of three word characters is loaded as a chunk, and its keyword
    set is empty. *)
Lemma loaded_chunk_without_keywords :
  load_documents
    (Some [File (lit "kb.md") (Some (lit "a b c d e f g h i j k l"))])
  = [letters_chunk]
  ∧ keywords letters_chunk = ∅
  ∧ length (content letters_chunk) = 23.
Proof. repeat split; reflexivity. Qed.

Lemma ranked_chunks_have_keywords_witness :
  overlap (keywords_of (lit "a b c")) letters_chunk = 0
  ∧ letters_chunk
    ∉ map snd (top_docs [letters_chunk; speech_chunk] (lit "a b c") 2).
Proof.
  destruct (ranked_chunks_have_keywords None (lit "a b c") 2)
    as (_ & _ & Hempty).
  apply (Hempty letters_chunk [letters_chunk; speech_chunk]).
  reflexivity.
Defined.

End RagClaims.

(* ===================================================================== *)
(** * The chat turn (src/routes.py) *)
(* ===================================================================== *)
Section FlushRule.

Import Routes.

Lemma flush_due_spec buf :
  flush_due buf = true
  ↔ (∃ d, d ∈ delimiter_chars ∧ last (rstrip buf) = Some d)
    ∧ 5 < length buf.
Proof.
  unfold flush_due. rewrite andb_true_iff, Nat.ltb_lt.
  apply and_iff_compat_r. rewrite existsb_exists. split.
  - intros (p & Hp & Hend). apply list_elem_of_In in Hp.
    unfold delimiters, delimiter_chars in *.
    repeat (apply elem_of_cons in Hp as [->|Hp]);
      [..|by apply elem_of_nil in Hp];
      apply endswith_char in Hend; eexists; (split; [|exact Hend]);
      set_solver.
  - intros (d & Hd & Hlast). exists [d]. split.
    + apply list_elem_of_In. unfold delimiters, delimiter_chars in *.
      repeat (apply elem_of_cons in Hd as [->|Hd]);
        [..|by apply elem_of_nil in Hd]; set_solver.
    + by apply endswith_char.
Qed.

End FlushRule.

Section ChatFacts.

Import Config Routes.

Context {audio wav : Type}.
Variable apply_tts : str → str → Z → option audio.
Variable audio_to_wav_bytes : audio → Z → wav.
Variable voice : str.
Variable sample_rate : Z.

#[local] Abbreviation on_token :=
  (on_token apply_tts audio_to_wav_bytes voice sample_rate).
#[local] Abbreviation consume :=
  (consume apply_tts audio_to_wav_bytes voice sample_rate).
#[local] Abbreviation flush_remaining :=
  (flush_remaining apply_tts audio_to_wav_bytes voice sample_rate).
#[local] Abbreviation emit :=
  (emit apply_tts audio_to_wav_bytes voice sample_rate).
#[local] Abbreviation chat :=
  (chat apply_tts audio_to_wav_bytes voice sample_rate).
#[local] Abbreviation says :=
  (said apply_tts audio_to_wav_bytes voice sample_rate).
#[local] Abbreviation synth_ok := (tts_ok apply_tts voice sample_rate).

Lemma on_token_unfold st token :
  on_token st token
  = let buf := buffer st ++ token in
    let full := full_response st ++ token in
    if flush_due buf then
      if truthy (cleaned buf) then
        match apply_tts (cleaned buf) voice sample_rate with
        | Some a =>
            Ok (Turn [] full
                  (sent st
                   ++ [send_json (text_chunk (cleaned buf ++ lit " "));
                       send_bytes (audio_to_wav_bytes a sample_rate)]))
        | None =>
            Raised (sent st
                    ++ [send_json (text_chunk (cleaned buf ++ lit " "))])
        end
      else Ok (Turn [] full (sent st))
    else Ok (Turn buf full (sent st)).
Proof.
  unfold Routes.on_token, Routes.emit. simpl.
  destruct (flush_due (buffer st ++ token)); [|done].
  destruct (truthy (cleaned (buffer st ++ token))); [|done].
  destruct (apply_tts _ voice sample_rate); simpl; [|done].
  by rewrite <- app_assoc.
Qed.

Lemma flush_remaining_unfold st :
  flush_remaining st
  = if truthy (strip (buffer st)) && truthy (cleaned (buffer st)) then
      match apply_tts (cleaned (buffer st)) voice sample_rate with
      | Some a =>
          Ok (sent st
              ++ [send_json (text_chunk (cleaned (buffer st)));
                  send_bytes (audio_to_wav_bytes a sample_rate)])
      | None =>
          Raised (sent st ++ [send_json (text_chunk (cleaned (buffer st)))])
      end
    else Ok (sent st).
Proof.
  unfold Routes.flush_remaining, Routes.emit.
  destruct (truthy (strip (buffer st))); [|done].
  destruct (truthy (cleaned (buffer st))); [|done]. simpl.
  rewrite app_nil_r.
  destruct (apply_tts _ voice sample_rate); [|done].
  by rewrite <- app_assoc.
Qed.









End ChatFacts.

Section ChatClaims.

Import Config Routes.

Context {audio wav : Type}.
Variable apply_tts : str → str → Z → option audio.
Variable audio_to_wav_bytes : audio → Z → wav.
Variable voice : str.
Variable sample_rate : Z.

#[local] Abbreviation on_token :=
  (on_token apply_tts audio_to_wav_bytes voice sample_rate).
#[local] Abbreviation flush_remaining :=
  (flush_remaining apply_tts audio_to_wav_bytes voice sample_rate).
#[local] Abbreviation chat :=
  (chat apply_tts audio_to_wav_bytes voice sample_rate).
#[local] Abbreviation says :=
  (said apply_tts audio_to_wav_bytes voice sample_rate).
#[local] Abbreviation synth_ok := (tts_ok apply_tts voice sample_rate).
#[local] Abbreviation text_event content :=
  (send_json (wav:=wav) (text_chunk content)).
#[local] Abbreviation audio_event a :=
  (send_bytes (audio_to_wav_bytes a sample_rate)).


End ChatClaims.

Section HistoryClaims.

Import Config Routes.

Context {audio wav : Type}.
Variable apply_tts : str → str → Z → option audio.
Variable audio_to_wav_bytes : audio → Z → wav.
Variable voice : str.
Variable sample_rate : Z.

#[local] Abbreviation chat :=
  (chat apply_tts audio_to_wav_bytes voice sample_rate).


End HistoryClaims.

Section ChatExamples.

Import Config Routes.

#[local] Abbreviation echo_chat :=
  (chat echo_tts echo_wav (lit "en_0") 24000).





(** A span within one line is taken out only when it is whole in one
    buffer: a delimiter inside it, at the end of a token, flushes the
    first part, and both parts are sent as they are. *)
Example span_cut_by_a_flush :
  chunk_texts
    (events_of
       (echo_chat (lit "hi")
          [lit "["; lit "laughs"; lit ","; lit " twice"; lit "]"; lit " ok."]
          (lit "2026-01-01T00:00:00") [] empty_disk))
  = [lit "[laughs, "; lit "twice] ok. "].
Proof. reflexivity. Qed.

End ChatExamples.

(* ===================================================================== *)
(** * The conversation history on disk (src/config.py) *)
(* ===================================================================== *)
Section HistoryFile.

Import Config.

Lemma add_all_snoc entries e st :
  add_all (entries ++ [e]) st
  = add e.1.1 e.1.2 e.2 (add_all entries st).1 (add_all entries st).2.
Proof. unfold add_all. by rewrite foldl_app. Qed.

Lemma last_saved_le n : last_saved n ≤ n.
Proof.
  unfold last_saved. pose proof (Nat.div_mod_eq n 5). lia.
Qed.

Lemma last_saved_step n :
  last_saved (S n) = if S n mod 5 =? 0 then S n else last_saved n.
Proof.
  unfold last_saved.
  pose proof (Nat.div_mod_eq n 5) as Hn.
  pose proof (Nat.div_mod_eq (S n) 5) as HS.
  pose proof (Nat.mod_upper_bound n 5) as Bn.
  pose proof (Nat.mod_upper_bound (S n) 5) as BS.
  destruct (Nat.eqb_spec (S n mod 5) 0) as [H0|H0]; lia.
Qed.

Lemma history_save_twice h1 h2 d :
  history_save h2 (history_save h1 d) = history_save h2 d.
Proof. unfold history_save. by destruct d as [s f []]. Qed.

(** A run of [add] calls in closed form. *)
Lemma add_all_spec (entries : list (str * str * str)) h0 d0 :
  add_all entries (h0, d0)
  = (h0 ++ map as_exchange entries,
     if writable d0
        && (length h0 <? last_saved (length h0 + length entries))
     then Disk (SETTINGS_FILE d0)
            (holds (slice_last MAX_HISTORY
                      (take (last_saved (length h0 + length entries))
                         (h0 ++ map as_exchange entries)))) true
     else d0).
Proof.
  induction entries as [|e entries IH] using rev_ind.
  - simpl. rewrite app_nil_r, Nat.add_0_r.
    pose proof (last_saved_le (length h0)).
    replace (length h0 <? last_saved (length h0)) with false
      by (symmetry; apply Nat.ltb_ge; lia).
    by rewrite andb_false_r.
  - rewrite add_all_snoc, IH. cbn [fst snd]. unfold add.
    rewrite map_app, app_assoc. cbn [map]. f_equal.
    rewrite !length_app, length_map. cbn [length].
    replace (length h0 + (length entries + 1))
      with (S (length h0 + length entries)) by lia.
    replace (length h0 + length entries + 1)
      with (S (length h0 + length entries)) by lia.
    set (m := length h0 + length entries).
    set (h := h0 ++ map as_exchange entries).
    assert (length h = m) as Hlen
      by (unfold h, m; by rewrite length_app, length_map).
    rewrite last_saved_step.
    pose proof (last_saved_le m) as Hle.
    destruct (S m mod 5 =? 0) eqn:Hmod.
    + replace (length h0 <? S m) with true
        by (symmetry; apply Nat.ltb_lt; lia).
      rewrite andb_true_r.
      rewrite (take_ge (h ++ _)) by (rewrite length_app; cbn [length]; lia).
      unfold history_save.
      destruct (writable d0) eqn:Hw; cbn [andb].
      * by destruct (length h0 <? last_saved m); cbn [writable];
          rewrite ?Hw.
      * by rewrite Hw.
    + rewrite (take_app_le h) by lia. done.
Qed.

(** [add], call after call: the history in memory has every exchange; the
    file is written only when the length reaches a multiple of five, with
    the last hundred exchanges then, so that it lacks the newest exchanges,
    fewer than five of them; on a disk that cannot be written it stays as
    it was. *)
Theorem history_file_lags_behind
  (entries : list (str * str * str)) (h0 : list exchange) (d0 : disk) :
  let n := length h0 + length entries in
  let h := h0 ++ map as_exchange entries in
  add_all entries (h0, d0)
  = (h, if writable d0 && (length h0 <? last_saved n)
        then Disk (SETTINGS_FILE d0)
               (holds (slice_last MAX_HISTORY (take (last_saved n) h))) true
        else d0)
  ∧ last_saved n ≤ n < last_saved n + 5.
Proof.
  simpl. split; [apply add_all_spec|].
  unfold last_saved.
  pose proof (Nat.div_mod_eq (length h0 + length entries) 5).
  pose proof (Nat.mod_upper_bound (length h0 + length entries) 5). lia.
Qed.

(** After [clear], a run of [add] calls and a restart, the history that
    [_load] reads is the last hundred of the exchanges up to the last
    length that was a multiple of five; on a disk that cannot be written,
    [clear] does not reach the file and the restart reads the old history
    again. *)
Theorem history_after_clear_and_restart
  (entries : list (str * str * str)) (d : disk) :
  (clear d).1 = []
  ∧ history_load (add_all entries (clear d)).2
    = if writable d
      then slice_last MAX_HISTORY
             (take (last_saved (length entries)) (map as_exchange entries))
      else history_load d.
Proof.
  split; [done|]. unfold clear. rewrite add_all_spec.
  simpl. unfold history_save.
  destruct (writable d) eqn:Hw; simpl; rewrite ?Hw; simpl; [|done].
  destruct (0 <? last_saved (length entries)) eqn:Hpos; simpl; [done|].
  apply Nat.ltb_ge in Hpos.
  replace (last_saved (length entries)) with 0 by lia. done.
Qed.

End HistoryFile.

(* ===================================================================== *)
(** * The settings over the life of the server (src/config.py) *)
(* ===================================================================== *)
Section SettingsLife.

Import Config Routes.

Lemma settings_run_snoc calls c d :
  settings_run (calls ++ [c]) d = settings_step (settings_run calls d) c.
Proof. unfold settings_run. by rewrite foldl_app. Qed.

Lemma load_has_schema d : dom DEFAULT_SETTINGS ⊆ dom (_load d).
Proof.
  unfold _load. destruct (SETTINGS_FILE d); try done.
  rewrite dom_union. apply union_subseteq_r.
Qed.

Lemma update_loop_dom (s u : gmap string json) :
  dom s ⊆ dom (update_loop s u).
Proof.
  intros k [v Hk]%elem_of_dom. apply elem_of_dom.
  rewrite update_loop_lookup. destruct (known k); [|by eauto].
  rewrite Hk. destruct (u !! k); simpl; eauto.
Qed.

Lemma settings_run_has_schema calls d :
  dom DEFAULT_SETTINGS ⊆ dom (settings_run calls d).1.
Proof.
  induction calls as [|c calls IH] using rev_ind.
  - apply load_has_schema.
  - rewrite settings_run_snoc. destruct c as [key value|updates|]; simpl.
    + unfold set. rewrite dom_insert.
      etrans; [exact IH|apply union_subseteq_r].
    + etrans; [exact IH|apply update_loop_dom].
    + done.
Qed.

Lemma settings_run_writable calls d :
  writable (settings_run calls d).2 = writable d.
Proof.
  induction calls as [|c calls IH] using rev_ind; [done|].
  rewrite settings_run_snoc. destruct c as [key value|updates|]; simpl;
    [done| |]; unfold save; rewrite IH;
    by destruct (writable d) eqn:Hw; simpl; rewrite ?IH.
Qed.

Lemma load_of_saved (s : gmap string json) d :
  writable d = true →
  dom DEFAULT_SETTINGS ⊆ dom s →
  _load (save s d) = s.
Proof.
  intros Hw Hdom. unfold save, _load. rewrite Hw. simpl.
  apply map_eq. intros k. rewrite lookup_union.
  destruct (s !! k) eqn:Hk; [by destruct (DEFAULT_SETTINGS !! k)|].
  destruct (DEFAULT_SETTINGS !! k) eqn:Hd; [|done].
  assert (k ∈ dom s) as [? ?]%elem_of_dom
    by (apply Hdom, elem_of_dom; eauto).
  congruence.
Qed.

(** From the construction of the manager on, whatever the settings file
    held and whatever calls of [set], [update] and [reset] follow, every
    key of the default schema has a value: [get] never falls back on its
    default for such a key, and a sampling parameter that [chat] reads
    with [req_settings.get(key, settings.get(key))] is the value of the
    request when the request has the key and the stored value otherwise,
    never the [None] of a missing key. *)
Theorem settings_keep_the_schema (calls : list settings_call) (d : disk) :
  let s := (settings_run calls d).1 in
  dom DEFAULT_SETTINGS ⊆ dom s
  ∧ ∀ key, known key = true →
      ∃ v, s !! key = Some v
           ∧ (∀ default, get s key default = v)
           ∧ (∀ req_settings,
                request_setting req_settings s key
                = default v (req_settings !! key)).
Proof.
  simpl. split; [apply settings_run_has_schema|].
  intros key Hk. unfold known in Hk. apply bool_decide_eq_true in Hk.
  assert (key ∈ dom (settings_run calls d).1) as [v Hv]%elem_of_dom
    by (by apply settings_run_has_schema, elem_of_dom).
  exists v. split; [done|]. split.
  - intros dft. unfold get. by rewrite Hv.
  - intros req. unfold request_setting, get. rewrite Hv.
    by destruct (req !! key).
Qed.

(** What a restart recovers: on a disk that can be written, after any
    calls that end with an [update] or a [reset], [_load] reads back the
    settings as they were in memory; calls of [set] after that are not
    saved, and a restart loses them. *)
Theorem settings_restart_recovers_last_save
  (calls : list settings_call) (c : settings_call)
  (sets : list settings_call) (d : disk) :
  writable d = true →
  saves c = true →
  Forall (λ c', saves c' = false) sets →
  _load (settings_run (calls ++ [c] ++ sets) d).2
  = (settings_run (calls ++ [c]) d).1.
Proof.
  intros Hw Hc Hsets. rewrite app_assoc.
  induction sets as [|c' sets IH] using rev_ind.
  - rewrite app_nil_r, settings_run_snoc.
    pose proof (settings_run_has_schema (calls ++ [c]) d) as Hdom.
    rewrite settings_run_snoc in Hdom.
    pose proof (settings_run_writable calls d) as Hw'. rewrite Hw in Hw'.
    destruct c as [key value|updates|]; [done| |]; simpl in *.
    + by apply load_of_saved.
    + by apply load_of_saved.
  - apply Forall_app in Hsets as [Hsets [Hc' _]%Forall_cons].
    rewrite app_assoc, settings_run_snoc.
    destruct c' as [key value|updates|]; [|done|done]. simpl. by apply IH.
Qed.

Lemma settings_restart_recovers_last_save_witness :
  _load (settings_run
           ([] ++ [update_call {[ "voice"%string := JStr "en_1" ]}]
               ++ [set_call "topK" (JNum 5)]) empty_disk).2
  = (settings_run
       ([] ++ [update_call {[ "voice"%string := JStr "en_1" ]}])
       empty_disk).1.
Proof.
  apply (settings_restart_recovers_last_save []
           (update_call {[ "voice"%string := JStr "en_1" ]})
           [set_call "topK" (JNum 5)] empty_disk).
  - reflexivity.
  - reflexivity.
  - repeat constructor.
Defined.

(** Two updates in a row are one update with the second request laid
    over the first; an update applied twice is the update applied once;
    an update that names no key of the schema changes nothing. *)
Theorem update_loop_composes (s u1 u2 : gmap string json) :
  update_loop (update_loop s u1) u2 = update_loop s (u2 ∪ u1)
  ∧ update_loop (update_loop s u1) u1 = update_loop s u1
  ∧ ((∀ key, known key = true → u1 !! key = None) → update_loop s u1 = s).
Proof.
  split; [|split].
  - apply map_eq. intros k. rewrite !update_loop_lookup, lookup_union.
    destruct (known k); [|done].
    by destruct (u2 !! k), (u1 !! k), (s !! k).
  - apply map_eq. intros k. rewrite !update_loop_lookup.
    destruct (known k); [|done]. by destruct (u1 !! k), (s !! k).
  - intros Hnone. apply map_eq. intros k. rewrite update_loop_lookup.
    destruct (known k) eqn:Hk; [|done]. by rewrite Hnone.
Qed.

End SettingsLife.

(* ===================================================================== *)
(** * More on trimming, case and the bracket pattern *)
(* ===================================================================== *)
Section MoreText.

Lemma lower_char_idemp c : lower_char (lower_char c) = lower_char c.
Proof. destruct c as [[] [] [] [] [] [] [] []]; vm_compute; reflexivity. Qed.

Lemma lower_idemp s : lower (lower s) = lower s.
Proof.
  unfold lower. rewrite map_map. apply map_ext. intros c.
  apply lower_char_idemp.
Qed.

Lemma lstrip_starts_clean s : starts_clean (lstrip s).
Proof.
  induction s as [|c r IH]; simpl; [done|].
  destruct (isspace c) eqn:Hc; [done|]. unfold starts_clean. by simpl.
Qed.

Lemma lstrip_id s : starts_clean s → lstrip s = s.
Proof.
  destruct s as [|c r]; [done|]. unfold starts_clean. simpl. by intros ->.
Qed.

Lemma rstrip_ends_clean s : ends_clean (rstrip s).
Proof.
  unfold ends_clean, rstrip. rewrite last_reverse.
  apply lstrip_starts_clean.
Qed.

Lemma rstrip_id s : ends_clean s → rstrip s = s.
Proof.
  intros Hs. unfold rstrip. rewrite lstrip_id.
  - apply reverse_involutive.
  - unfold starts_clean. by rewrite head_reverse.
Qed.

Lemma rstrip_starts_clean s : starts_clean s → starts_clean (rstrip s).
Proof.
  destruct s as [|c r]; [done|]. unfold starts_clean. simpl. intros Hc.
  destruct (rstrip_stops [] [c] r c) as [b' Hb]; [done|done|].
  simpl in Hb. by rewrite Hb.
Qed.

Lemma strip_starts_clean s : starts_clean (strip s).
Proof. apply rstrip_starts_clean, lstrip_starts_clean. Qed.

Lemma strip_ends_clean s : ends_clean (strip s).
Proof. apply rstrip_ends_clean. Qed.

Lemma strip_id s : starts_clean s → ends_clean s → strip s = s.
Proof. intros Hh Hl. unfold strip. by rewrite lstrip_id, rstrip_id. Qed.

Lemma strip_idemp s : strip (strip s) = strip s.
Proof. apply strip_id; [apply strip_starts_clean|apply strip_ends_clean]. Qed.

Lemma rstrip_spaces s post : all_space post → rstrip (s ++ post) = rstrip s.
Proof.
  intros Hpost. unfold rstrip. f_equal. rewrite reverse_app.
  apply Forall_reverse in Hpost.
  induction Hpost as [|c r Hc _ IH]; [done|]. simpl. by rewrite Hc.
Qed.

(** A text that ends with a mark and whitespace is trimmed to end with the
    mark. *)
Lemma strip_ends_with s d post :
  isspace d = false → all_space post →
  ∃ s', strip (s ++ [d] ++ post) = s' ++ [d].
Proof.
  intros Hd Hpost. unfold strip.
  destruct (lstrip_stops s [d] post d) as [a' ->]; [done|done|].
  exists a'. rewrite app_assoc, rstrip_spaces by done.
  apply rstrip_id. unfold ends_clean. by rewrite last_snoc.
Qed.

Lemma strip_sublist s : strip s `sublist_of` s.
Proof.
  destruct (strip_decompose s) as (pre & post & Heq & _).
  rewrite Heq at 2. apply sublist_inserts_l, sublist_inserts_r. done.
Qed.

Lemma close_bracket_app r t :
  "]"%char ∉ t →
  close_bracket (r ++ t) = (λ rest, rest ++ t) <$> close_bracket r.
Proof.
  intros Ht. induction r as [|c r IH]; simpl.
  - by apply close_bracket_no_close.
  - destruct (bool_decide (c = "]"%char)); [done|].
    destruct (bool_decide (c = LF)); [done|]. exact IH.
Qed.

Lemma close_bracket_shorter t rest :
  close_bracket t = Some rest → length rest < length t.
Proof.
  intros (mid & -> & _)%close_bracket_Some.
  rewrite length_app. simpl. lia.
Qed.

(** What follows the last closing bracket is out of reach of the
    pattern. *)
Lemma re_sub_brackets_app_closed x t :
  "]"%char ∉ t → re_sub_brackets (x ++ t) = re_sub_brackets x ++ t.
Proof.
  intros Ht. remember (length x) as n eqn:Hn.
  revert x Hn. induction n as [n IH] using lt_wf_ind. intros x Hn.
  destruct x as [|c r].
  - simpl. clear IH Hn. induction t as [|c t IHt]; [done|].
    apply not_elem_of_cons in Ht as [Hc Ht].
    rewrite re_sub_brackets_cons. simpl.
    destruct (bool_decide (c = "["%char)).
    + rewrite close_bracket_no_close by done.
      rewrite IHt by done. by rewrite (re_sub_brackets_unfold []).
    + rewrite IHt by done. by rewrite (re_sub_brackets_unfold []).
  - rewrite <- app_comm_cons, !re_sub_brackets_cons. simpl.
    destruct (bool_decide (c = "["%char)).
    + rewrite close_bracket_app by done.
      destruct (close_bracket r) as [rest|] eqn:Hclose; simpl.
      * apply close_bracket_shorter in Hclose.
        apply (IH (length rest)); [simpl in Hn; lia|done].
      * simpl. f_equal. apply (IH (length r)); [simpl in Hn; lia|done].
    + simpl. f_equal. apply (IH (length r)); [simpl in Hn; lia|done].
Qed.

Lemma re_sub_brackets_sublist s : re_sub_brackets s `sublist_of` s.
Proof.
  remember (length s) as n eqn:Hn.
  revert s Hn. induction n as [n IH] using lt_wf_ind. intros s Hn.
  destruct s as [|c r]; [by rewrite re_sub_brackets_unfold|].
  rewrite re_sub_brackets_cons.
  destruct (match_bracketed (c :: r)) as [rest|] eqn:Hm.
  - simpl in Hm. destruct (bool_decide (c = "["%char)); [|done].
    pose proof (close_bracket_shorter _ _ Hm) as Hlen.
    apply close_bracket_Some in Hm as (mid & -> & _).
    etrans; [apply (IH (length rest)); [simpl in Hn; lia|done]|].
    apply sublist_cons, sublist_inserts_l, sublist_cons. done.
  - apply sublist_skip. apply (IH (length r)); [simpl in Hn; lia|done].
Qed.

End MoreText.

(* ===================================================================== *)
(** * The flushes of a chat turn (src/routes.py) *)
(* ===================================================================== *)
Section LoopFlushes.

Import Routes.

(** The cleaned text of a buffer that is due ends with the mark that made
    it due. *)
Lemma cleaned_ends_with_mark buf :
  flush_due buf = true →
  ∃ d, d ∈ delimiter_chars ∧ last (cleaned buf) = Some d.
Proof.
  intros [(d & Hd & Hlast) _]%flush_due_spec.
  destruct (rstrip_decompose buf) as (post & Hbuf & Hpost).
  apply last_Some in Hlast as [x Hx]. rewrite Hx in Hbuf.
  assert (isspace d = false ∧ d ≠ "]"%char) as [Hsp Hne].
  { unfold delimiter_chars in Hd.
    repeat (apply elem_of_cons in Hd as [->|Hd]); [..|by apply elem_of_nil in Hd];
      by split. }
  assert ("]"%char ∉ [d] ++ post) as Hclosed.
  { intros [Hin|Hin]%elem_of_app.
    - apply list_elem_of_singleton in Hin. congruence.
    - unfold all_space in Hpost. rewrite Forall_forall in Hpost.
      by apply Hpost in Hin. }
  exists d. split; [done|]. unfold cleaned.
  rewrite Hbuf, <- app_assoc, re_sub_brackets_app_closed by done.
  destruct (strip_ends_with (re_sub_brackets x) d post Hsp Hpost) as [s' ->].
  apply last_snoc.
Qed.

Lemma cleaned_of_due_truthy buf :
  flush_due buf = true → truthy (cleaned buf) = true.
Proof.
  intros (d & _ & Hlast)%cleaned_ends_with_mark.
  by destruct (cleaned buf).
Qed.

Lemma loop_flushes_cleaned buf stream :
  loop_flushes buf stream = map cleaned (loop_buffers buf stream).
Proof.
  revert buf. induction stream as [|token rest IH]; intros buf; [done|].
  simpl. destruct (flush_due (buf ++ token)) eqn:Hdue; [|apply IH].
  rewrite (cleaned_of_due_truthy _ Hdue). simpl. by rewrite IH.
Qed.

Lemma loop_buffers_due buf stream :
  Forall (λ b, flush_due b = true) (loop_buffers buf stream).
Proof.
  revert buf. induction stream as [|token rest IH]; intros buf;
    [constructor|].
  simpl. destruct (flush_due (buf ++ token)) eqn:Hdue; [|apply IH].
  constructor; [done|apply IH].
Qed.

(** In the loop the test [if clean:] never fails: a buffer that is due
    ends, after trimming, with one of the six marks, which no bracketed
    span can take with it, so every flush of the loop sends a text and has
    it synthesised. *)
Theorem loop_flush_always_speaks (buf : str) (stream : list str) :
  loop_flushes buf stream = map cleaned (loop_buffers buf stream)
  ∧ Forall (λ b, flush_due b = true
                 ∧ ∃ d, d ∈ delimiter_chars ∧ last (cleaned b) = Some d)
      (loop_buffers buf stream)
  ∧ (∀ b, flush_due b = true → truthy (cleaned b) = true).
Proof.
  split; [apply loop_flushes_cleaned|]. split.
  - eapply Forall_impl; [apply loop_buffers_due|]. simpl.
    intros b Hdue. split; [done|]. by apply cleaned_ends_with_mark.
  - apply cleaned_of_due_truthy.
Qed.

Lemma cleaned_sublist buf : cleaned buf `sublist_of` buf.
Proof.
  unfold cleaned. etrans; [apply strip_sublist|apply re_sub_brackets_sublist].
Qed.

Lemma loop_buffers_partition buf stream :
  buf ++ concat stream
  = concat (loop_buffers buf stream) ++ left_over buf stream.
Proof.
  revert buf. induction stream as [|token rest IH]; intros buf; simpl.
  - by rewrite app_nil_r.
  - destruct (flush_due (buf ++ token)); simpl.
    + rewrite <- app_assoc, <- (IH []). simpl. by rewrite <- app_assoc.
    + by rewrite <- IH, <- app_assoc.
Qed.

Lemma left_over_not_due buf stream :
  flush_due buf = false → flush_due (left_over buf stream) = false.
Proof.
  revert buf. induction stream as [|token rest IH]; intros buf Hbuf; [done|].
  simpl. destruct (flush_due (buf ++ token)) eqn:Hdue; by apply IH.
Qed.

Lemma concat_sublist (xs ys : list str) :
  Forall2 sublist xs ys → concat xs `sublist_of` concat ys.
Proof.
  induction 1 as [|x y xs ys Hxy _ IH]; simpl; [done|].
  by apply sublist_app.
Qed.

(** Every code point that the model generates lands in exactly one
    flushed buffer or in what is left for the flush after the loop; what
    is left is never due; and the texts that are sent and spoken, one
    after the other, are the reply with code points left out, never one
    added or moved. *)
Theorem flushes_partition_the_reply (stream : list str) :
  concat stream
  = concat (loop_buffers [] stream) ++ left_over [] stream
  ∧ flush_due (left_over [] stream) = false
  ∧ concat (map snd (turn_flushes stream)) `sublist_of` concat stream.
Proof.
  split; [exact (loop_buffers_partition [] stream)|].
  split; [by apply left_over_not_due|].
  unfold turn_flushes. rewrite map_app, !map_map. simpl.
  rewrite !map_id, concat_app.
  pose proof (loop_buffers_partition [] stream) as Hparts. simpl in Hparts.
  rewrite Hparts. apply sublist_app.
  - rewrite loop_flushes_cleaned.
    apply concat_sublist, Forall2_fmap_l, Forall_Forall2_diag, Forall_forall.
    intros b _. apply cleaned_sublist.
  - unfold last_flush.
    destruct (truthy (strip (left_over [] stream))
              && truthy (cleaned (left_over [] stream))); simpl.
    + rewrite app_nil_r. apply cleaned_sublist.
    + apply sublist_nil_l.
Qed.

End LoopFlushes.

Section TurnOutcome.

Import Config Routes.

Context {audio wav : Type}.
Variable apply_tts : str → str → Z → option audio.
Variable audio_to_wav_bytes : audio → Z → wav.
Variable voice : str.
Variable sample_rate : Z.

#[local] Abbreviation on_token :=
  (on_token apply_tts audio_to_wav_bytes voice sample_rate).
#[local] Abbreviation consume :=
  (consume apply_tts audio_to_wav_bytes voice sample_rate).
#[local] Abbreviation flush_remaining :=
  (flush_remaining apply_tts audio_to_wav_bytes voice sample_rate).
#[local] Abbreviation chat :=
  (chat apply_tts audio_to_wav_bytes voice sample_rate).
#[local] Abbreviation synth := (synthesised apply_tts voice sample_rate).
#[local] Abbreviation upto := (until_raise apply_tts voice sample_rate).
#[local] Abbreviation events :=
  (flush_events apply_tts audio_to_wav_bytes voice sample_rate).

Lemma until_raise_app fl1 fl2 :
  upto (fl1 ++ fl2)
  = if forallb synth fl1 then fl1 ++ upto fl2
    else upto fl1.
Proof.
  induction fl1 as [|f fl1 IH]; [done|]. simpl.
  destruct (synth f); simpl; [|done].
  rewrite IH. by destruct (forallb synth fl1).
Qed.

Lemma flush_events_cases tail clean :
  match apply_tts clean voice sample_rate with
  | Some a =>
      synth (tail, clean) = true
      ∧ events (tail, clean)
        = [send_json (text_chunk (clean ++ tail));
           send_bytes (audio_to_wav_bytes a sample_rate)]
  | None =>
      synth (tail, clean) = false
      ∧ events (tail, clean) = [send_json (text_chunk (clean ++ tail))]
  end.
Proof.
  unfold synthesised, flush_events, said, tts_ok. simpl.
  by destruct (apply_tts clean voice sample_rate).
Qed.

(** The loop in closed form, whether or not a synthesis raises. *)
Lemma consume_outcome stream st :
  consume stream st
  = let fl := map (pair (lit " ")) (loop_flushes (buffer st) stream) in
    if forallb synth fl
    then Ok (Turn (left_over (buffer st) stream)
               (full_response st ++ concat stream)
               (sent st ++ flat_map events fl))
    else Raised (sent st ++ flat_map events (upto fl)).
Proof.
  revert st. induction stream as [|token rest IH]; intros st; simpl.
  - rewrite !app_nil_r. by destruct st.
  - rewrite on_token_unfold. simpl.
    destruct (flush_due (buffer st ++ token)); [|simpl].
    + destruct (truthy (cleaned (buffer st ++ token))); simpl.
      * pose proof
          (flush_events_cases [" "%char] (cleaned (buffer st ++ token)))
          as Hcases.
        destruct (apply_tts _ voice sample_rate) as [a|];
          destruct Hcases as [Hs He]; rewrite Hs; simpl; rewrite He.
        -- rewrite IH. simpl.
           destruct (forallb synth _); by rewrite <- !app_assoc.
        -- by rewrite app_nil_r.
      * rewrite IH. simpl.
        destruct (forallb synth _); by rewrite <- ?app_assoc.
    + rewrite IH. simpl.
      destruct (forallb synth _); by rewrite <- ?app_assoc.
Qed.

Lemma chat_closed_form user_text stream now h d :
  chat user_text stream now h d
  = if negb (truthy user_text) then closed
    else if forallb synth (turn_flushes stream)
    then finished
           (flat_map events (turn_flushes stream) ++ [send_json done])
           (add now user_text (strip (concat stream)) h d).1
           (add now user_text (strip (concat stream)) h d).2
    else failed (flat_map events (upto (turn_flushes stream))).
Proof.
  unfold Routes.chat. destruct (negb (truthy user_text)); [done|].
  rewrite consume_outcome. cbn [buffer full_response sent app].
  unfold turn_flushes. rewrite forallb_app, until_raise_app.
  destruct (forallb synth (map _ (loop_flushes [] stream))); [|done].
  cbn [andb]. rewrite flush_remaining_unfold.
  cbn [buffer full_response sent]. rewrite flat_map_app.
  generalize (add now user_text (strip (concat stream)) h d).
  intros [h' d']. unfold last_flush.
  destruct (truthy (strip (left_over [] stream))
            && truthy (cleaned (left_over [] stream))); simpl.
  + pose proof (flush_events_cases [] (cleaned (left_over [] stream)))
      as Hcases.
    destruct (apply_tts _ voice sample_rate) as [a|];
      destruct Hcases as [Hs He]; rewrite Hs; simpl;
      rewrite ?flat_map_app; simpl; rewrite He, ?app_nil_r.
    * by rewrite <- !app_assoc.
    * done.
  + by rewrite ?app_nil_r.
Qed.

(** A chat turn in closed form.  With every synthesis returning, each
    flush sends its text and its audio, the done message follows and the
    exchange is added to the history.  When a synthesis raises, the text
    of that flush is the last thing sent: no audio for it, no later flush,
    no done message, and nothing is added to the history.  The text given
    to the synthesis is never empty and has no whitespace at either
    end. *)
Theorem chat_outcome_in_closed_form
  (user_text : str) (stream : list str) (now : str)
  (h : list exchange) (d : disk) :
  chat user_text stream now h d
  = (if negb (truthy user_text) then closed
     else if forallb synth (turn_flushes stream)
     then finished
            (flat_map events (turn_flushes stream) ++ [send_json done])
            (add now user_text (strip (concat stream)) h d).1
            (add now user_text (strip (concat stream)) h d).2
     else failed (flat_map events (upto (turn_flushes stream))))
  ∧ Forall (λ f, snd f ≠ [] ∧ strip (snd f) = snd f) (turn_flushes stream).
Proof.
  split; [apply chat_closed_form|].
  unfold turn_flushes. apply Forall_app. split.
  - rewrite loop_flushes_cleaned.
    rewrite <- list_fmap_compose. apply Forall_fmap.
    eapply Forall_impl; [apply loop_buffers_due|]. simpl.
    intros b Hdue. split.
    + apply cleaned_of_due_truthy in Hdue. by destruct (cleaned b).
    + apply strip_idemp.
  - unfold last_flush.
    destruct (truthy (strip (left_over [] stream))) eqn:H1; simpl;
      [|constructor].
    destruct (truthy (cleaned (left_over [] stream))) eqn:H2; simpl;
      [|constructor].
    constructor; [|constructor]. simpl. split.
    + by destruct (cleaned (left_over [] stream)).
    + apply strip_idemp.
Qed.

End TurnOutcome.

(* ===================================================================== *)
(** * The loaded collection, file by file (src/rag.py) *)
(* ===================================================================== *)
Section LoadedCollection.

Import Rag.

Lemma join_elem_infix sep (parts : list str) x :
  x ∈ parts → ∃ pre post, join sep parts = pre ++ x ++ post.
Proof.
  induction parts as [|p ps IH]; [by intros ?%elem_of_nil|].
  intros [->|Hx]%elem_of_cons.
  - destruct ps as [|q ps]; simpl.
    + exists [], []. by rewrite app_nil_r.
    + exists []. eauto.
  - destruct (IH Hx) as (pre & post & Hj).
    destruct ps as [|q ps]; [by apply elem_of_nil in Hx|].
    exists (p ++ sep ++ pre), post.
    change (join sep (p :: q :: ps)) with (p ++ sep ++ join sep (q :: ps)).
    rewrite Hj. by rewrite <- !app_assoc.
Qed.

(** A chunk made from a text: its source, its keywords, and its content,
    which is a trimmed piece of the text, longer than 20. *)
Lemma split_content_elem text src c :
  c ∈ _split_content text src →
  source c = src
  ∧ keywords c = keywords_of (content c)
  ∧ 20 < length (content c)
  ∧ strip (content c) = content c
  ∧ ∃ pre post, text = pre ++ content c ++ post.
Proof.
  rewrite split_content_kept. intros (section & -> & Hs)%list_elem_of_fmap.
  unfold kept_sections in Hs.
  apply list_elem_of_filter in Hs as [Hlen (raw & -> & Hraw)%list_elem_of_fmap].
  simpl. repeat split; [done|apply strip_idemp|].
  destruct (join_elem_infix [LF] _ _ Hraw) as (pre & post & Hj).
  rewrite re_split_headings_join in Hj.
  destruct (strip_decompose raw) as (a & b & Hraw' & _).
  exists (pre ++ a), (b ++ post).
  rewrite Hj. rewrite Hraw' at 1. by rewrite <- !app_assoc.
Qed.

Lemma suffix_last (p s : str) c :
  p `suffix_of` s → last p = Some c → last s = Some c.
Proof.
  intros [k ->] Hp. destruct p as [|a p] using rev_ind; [done|].
  rewrite last_snoc in Hp. injection Hp as ->.
  by rewrite app_assoc, last_snoc.
Qed.

Lemma md_is_not_txt s :
  endswith s (lit ".md") = true → endswith s (lit ".txt") = false.
Proof.
  unfold endswith. intros Hmd%bool_decide_eq_true.
  apply bool_decide_eq_false. intros Htxt.
  apply (suffix_last _ _ "d"%char) in Hmd; [|done].
  apply (suffix_last _ _ "t"%char) in Htxt; [|done]. congruence.
Qed.

Lemma from_source_app src l1 l2 :
  from_source src (l1 ++ l2) = from_source src l1 ++ from_source src l2.
Proof. apply filter_app. Qed.

Lemma from_source_split_content src text g :
  from_source src (_split_content text g)
  = if decide (g = src) then _split_content text g else [].
Proof.
  assert (Forall (λ c, source c = g) (_split_content text g)) as Hall.
  { apply Forall_forall. intros c Hc.
    by apply split_content_elem in Hc as [-> _]. }
  unfold from_source.
  induction Hall as [|c l Hc _ IH]; [by destruct (decide (g = src))|].
  rewrite filter_cons, IH.
  destruct (decide (g = src)) as [<-|Hne].
  - by rewrite decide_True.
  - rewrite decide_False; [done|congruence].
Qed.

Lemma flat_map_ext_in {A B} (f g : A → list B) l :
  (∀ x, x ∈ l → f x = g x) → flat_map f l = flat_map g l.
Proof.
  induction l as [|x l IH]; [done|]. intros Hfg. simpl.
  rewrite Hfg by left. rewrite IH; [done|].
  intros y Hy. apply Hfg. by right.
Qed.

Lemma flat_map_nil {A B} (l : list A) :
  flat_map (λ _, @nil B) l = [].
Proof. by induction l. Qed.

(** One pass of [load_documents], for one extension, seen from a source. *)
Lemma from_source_pass src ext dir :
  from_source src
    (flat_map (λ f, match read_text f with
                    | Some text => _split_content text (name f)
                    | None => []
                    end) (glob ext dir))
  = flat_map (λ f, if endswith (name f) ext
                   then match read_text f with
                        | Some text => _split_content text (name f)
                        | None => []
                        end
                   else [])
      (filter (λ f, name f = src) dir).
Proof.
  unfold glob. induction dir as [|f dir IH]; [done|].
  rewrite (filter_cons (λ f, endswith (name f) ext = true)).
  rewrite (filter_cons (λ f, name f = src)).
  destruct (decide (endswith (name f) ext = true)) as [Hext|Hext].
  - simpl. rewrite from_source_app, IH.
    destruct (decide (name f = src)) as [Hn|Hn]; simpl; rewrite ?Hext;
      destruct (read_text f) as [text|]; simpl;
      rewrite ?from_source_split_content, ?decide_True, ?decide_False by done;
      done.
  - rewrite IH. destruct (decide (name f = src)); simpl; [|done].
    apply not_true_is_false in Hext. by rewrite Hext.
Qed.

(** Every loaded chunk comes from a file of the directory whose name ends
    in [.md] or [.txt] and whose text could be read: it names that file as
    its source, and its content is a piece of the file's text, with no
    whitespace at either end; a directory that does not exist yet loads
    nothing. *)
Theorem loaded_chunks_come_from_files (dir : list file) :
  load_documents None = []
  ∧ Forall
      (λ c, ∃ f text,
         f ∈ dir ∧ read_text f = Some text ∧ source c = name f
         ∧ (endswith (name f) (lit ".md")
            || endswith (name f) (lit ".txt")) = true
         ∧ strip (content c) = content c
         ∧ ∃ pre post, text = pre ++ content c ++ post)
      (load_documents (Some dir)).
Proof.
  split; [done|]. apply Forall_forall. intros c Hc%list_elem_of_In.
  unfold load_documents in Hc.
  apply in_flat_map in Hc as (ext & Hext & Hc).
  apply in_flat_map in Hc as (f & Hf & Hc).
  apply list_elem_of_In, list_elem_of_filter in Hf as [Hend Hf].
  destruct (read_text f) as [text|] eqn:Hread; [|done].
  apply list_elem_of_In, split_content_elem in Hc
    as (Hsrc & _ & _ & Htrim & Hpiece).
  exists f, text. repeat split; try done.
  apply list_elem_of_In in Hext.
  repeat (apply elem_of_cons in Hext as [->|Hext]);
    [..|by apply elem_of_nil in Hext]; rewrite Hend; [done|apply orb_true_r].
Qed.

Lemma flat_map_guard {A B} (b : bool) (P : A → bool) (X : A → list B) l :
  Forall (λ x, P x = b) l →
  flat_map (λ x, if P x then X x else []) l
  = if b then flat_map X l else [].
Proof.
  induction 1 as [|x l Hx _ IH]; simpl; [by destruct b|].
  rewrite Hx, IH. by destruct b.
Qed.

Lemma from_source_load (dir : list file) (src : str) :
  from_source src (load_documents (Some dir))
  = flat_map chunks_of_file (filter (λ f, name f = src) dir).
Proof.
  unfold load_documents. simpl. rewrite app_nil_r, from_source_app.
  rewrite !from_source_pass.
  assert (Forall (λ f, name f = src) (filter (λ f, name f = src) dir))
    as Hall by (apply Forall_forall; by intros f [? _]%list_elem_of_filter).
  set (X := λ f, match read_text f with
                 | Some text => _split_content text (name f)
                 | None => []
                 end).
  rewrite (flat_map_guard (endswith src (lit ".md"))
             (λ f, endswith (name f) (lit ".md")) X)
    by (eapply Forall_impl; [exact Hall|]; by intros f ->).
  rewrite (flat_map_guard (endswith src (lit ".txt"))
             (λ f, endswith (name f) (lit ".txt")) X)
    by (eapply Forall_impl; [exact Hall|]; by intros f ->).
  unfold chunks_of_file. fold X.
  rewrite (flat_map_guard
             (endswith src (lit ".md") || endswith src (lit ".txt"))
             (λ f, endswith (name f) (lit ".md")
                   || endswith (name f) (lit ".txt")) X)
    by (eapply Forall_impl; [exact Hall|]; by intros f ->).
  destruct (endswith src (lit ".md")) eqn:Hmd.
  - rewrite (md_is_not_txt _ Hmd). apply app_nil_r.
  - by destruct (endswith src (lit ".txt")).
Qed.

(** Seen from one source name, the loaded collection is the chunks of the
    files of that name, in the order of the listing: no other file has a
    part in them, and a file whose name has neither extension, or whose
    text cannot be read, gives none. *)
Theorem load_documents_by_source (dir : list file) (src : str) :
  from_source src (load_documents (Some dir))
  = flat_map chunks_of_file (filter (λ f, name f = src) dir).
Proof. apply from_source_load. Qed.

End LoadedCollection.

(* ===================================================================== *)
(** * The knowledge base endpoints (src/routes.py) *)
(* ===================================================================== *)
Section FileNames.

Import Routes.

Lemma filename_char_no_space c : filename_char c = true → isspace c = false.
Proof. destruct c as [[] [] [] [] [] [] [] []]; vm_compute; congruence. Qed.

Lemma re_sub_filename_chars s :
  Forall (λ c, filename_char c = true) (re_sub_filename s).
Proof.
  unfold re_sub_filename. apply Forall_fmap, Forall_forall. intros c _.
  simpl. by destruct (filename_char c) eqn:Hc.
Qed.

Lemma re_sub_filename_id s :
  Forall (λ c, filename_char c = true) s → re_sub_filename s = s.
Proof.
  unfold re_sub_filename. induction 1 as [|c s Hc _ IH]; [done|].
  simpl. rewrite Hc. by f_equal.
Qed.

Lemma re_sub_filename_endswith s ext :
  Forall (λ c, filename_char c = true) ext →
  endswith s ext = true → endswith (re_sub_filename s) ext = true.
Proof.
  unfold endswith. intros Hext [k ->]%bool_decide_eq_true.
  apply bool_decide_eq_true. exists (re_sub_filename k).
  rewrite <- (re_sub_filename_id ext Hext) at 2.
  unfold re_sub_filename. apply map_app.
Qed.

Lemma endswith_app s ext : endswith (s ++ ext) ext = true.
Proof. apply bool_decide_eq_true. by exists s. Qed.

Lemma chars_strip_id s :
  Forall (λ c, filename_char c = true) s → strip s = s.
Proof.
  intros Hs. apply strip_id.
  - destruct Hs as [|c s Hc _]; [done|]. by apply filename_char_no_space.
  - unfold ends_clean. destruct (last s) as [c|] eqn:Hl; [|done].
    apply last_Some_elem_of in Hl. rewrite Forall_forall in Hs.
    by apply filename_char_no_space, Hs.
Qed.

(** The name under which [create_knowledge_file] writes has an extension
    that the loader looks for, and nothing but word characters, hyphens
    and dots. *)
Lemma knowledge_filename_Some name filename :
  knowledge_filename name = Some filename →
  strip name ≠ []
  ∧ Forall (λ c, filename_char c = true) filename
  ∧ (endswith filename (lit ".md") || endswith filename (lit ".txt")) = true.
Proof.
  unfold knowledge_filename. set (fn := strip name).
  destruct (truthy fn) eqn:Ht; cbn [negb]; [|done].
  assert (fn ≠ []) as Hfn by (by destruct fn).
  assert (∀ x, Forall (λ c, filename_char c = true) (re_sub_filename x)
               ∧ (endswith x (lit ".md") || endswith x (lit ".txt")) = true →
               fn ≠ []
               ∧ Forall (λ c, filename_char c = true) (re_sub_filename x)
               ∧ (endswith (re_sub_filename x) (lit ".md")
                  || endswith (re_sub_filename x) (lit ".txt")) = true)
    as Hgen.
  { intros x [Hx Hext]. split; [done|]. split; [done|].
    apply orb_true_iff in Hext as [Hext|Hext].
    - rewrite (re_sub_filename_endswith _ (lit ".md"));
        [done|repeat constructor|done].
    - rewrite (re_sub_filename_endswith _ (lit ".txt"));
        [apply orb_true_r|repeat constructor|done]. }
  destruct (endswith fn (lit ".md") || endswith fn (lit ".txt")) eqn:Hext;
    cbn [negb]; intros [= <-]; apply Hgen;
    (split; [apply re_sub_filename_chars|]); [done|].
  by rewrite endswith_app.
Qed.

(** [create_knowledge_file] makes of the requested name a file name that
    is safe and stable: no name is made of a request whose name is empty
    or blank; otherwise the name has only word characters, hyphens and
    dots (no path separator among them), ends in [.md] or [.txt], so that
    the loader picks the file up, and is a name that the handler leaves
    as it is when it is asked for again. *)
Theorem knowledge_filename_is_safe (name : str) :
  match knowledge_filename name with
  | None => strip name = []
  | Some filename =>
      strip name ≠ []
      ∧ Forall (λ c, filename_char c = true) filename
      ∧ (endswith filename (lit ".md")
         || endswith filename (lit ".txt")) = true
      ∧ ("/"%char ∉ filename)
      ∧ ("092"%char ∉ filename)
      ∧ knowledge_filename filename = Some filename
  end.
Proof.
  destruct (knowledge_filename name) as [filename|] eqn:Hname.
  - destruct (knowledge_filename_Some _ _ Hname) as (Hne & Hchars & Hext).
    repeat split; try done.
    + intros Hin. rewrite Forall_forall in Hchars. by apply Hchars in Hin.
    + intros Hin. rewrite Forall_forall in Hchars. by apply Hchars in Hin.
    + unfold knowledge_filename. rewrite (chars_strip_id _ Hchars).
      assert (filename ≠ []) as Hfn.
      { intros ->. by vm_compute in Hext. }
      replace (truthy filename) with true by (by destruct filename).
      cbn [negb]. rewrite Hext. cbn [negb].
      by rewrite (re_sub_filename_id _ Hchars).
  - unfold knowledge_filename in Hname.
    by destruct (strip name).
Qed.

End FileNames.

Section TextFiles.

Lemma write_newlines_posix s : write_newlines [LF] s = s.
Proof.
  unfold write_newlines. induction s as [|c s IH]; [done|]. simpl.
  case_bool_decide as Hc; simpl; rewrite IH; congruence.
Qed.

Lemma universal_newlines_plain s : CR ∉ s → universal_newlines s = s.
Proof.
  induction s as [|c s IH]; [done|].
  intros [Hc Hs]%not_elem_of_cons. simpl.
  rewrite bool_decide_eq_false_2 by done. by rewrite IH.
Qed.

(** A text with no carriage return is read back as it was written, with
    either line separator. *)
Lemma read_back_plain linesep content :
  linesep = [LF] ∨ linesep = [CR; LF] →
  CR ∉ content → read_back linesep content = content.
Proof.
  unfold read_back. intros [->| ->] Hcr.
  - rewrite write_newlines_posix. by apply universal_newlines_plain.
  - unfold write_newlines. induction content as [|c s IH]; [done|].
    apply not_elem_of_cons in Hcr as [Hc Hs]. simpl.
    case_bool_decide as Hlf; simpl.
    + subst c. by rewrite IH.
    + rewrite bool_decide_eq_false_2 by done. by rewrite IH.
Qed.

End TextFiles.

Section KnowledgeFacts.

Import Rag Routes.

Variable iterdir : gmap str entry → list (str * entry).
Variable linesep : str.

(** The file system lists every entry of a directory once, in an order
    of its own. *)
Hypothesis iterdir_lists : ∀ dir, iterdir dir ≡ₚ map_to_list dir.

#[local] Abbreviation listing := (listing iterdir).
#[local] Abbreviation reload := (reload iterdir).
#[local] Abbreviation create_knowledge_file :=
  (create_knowledge_file iterdir linesep).
#[local] Abbreviation delete_knowledge_file :=
  (delete_knowledge_file iterdir).

Lemma filter_named_in (l : list (str * entry)) g e :
  NoDup l.*1 → (g, e) ∈ l →
  filter (λ f, name f = g)
    (map (λ e, File (fst e) (entry_read_text (snd e))) l)
  = [File g (entry_read_text e)].
Proof.
  induction l as [|[g' e'] l IH]; [by intros _ ?%elem_of_nil|].
  intros [Hg' Hnd]%NoDup_cons [[= <- <-]|Hin]%elem_of_cons; simpl.
  - rewrite filter_cons, decide_True by done. f_equal.
    clear IH. induction l as [|[g2 e2] l IH]; [done|]. simpl in *.
    apply not_elem_of_cons in Hg' as [Hne Hg'].
    apply NoDup_cons in Hnd as [_ Hnd].
    rewrite filter_cons, decide_False by (simpl; congruence).
    by apply IH.
  - rewrite filter_cons, decide_False.
    + by apply IH.
    + simpl. intros ->. apply Hg'.
      apply list_elem_of_fmap. by exists (g, e).
Qed.

Lemma filter_named_out (l : list (str * entry)) g :
  g ∉ l.*1 →
  filter (λ f, name f = g)
    (map (λ e, File (fst e) (entry_read_text (snd e))) l)
  = [].
Proof.
  induction l as [|[g' e'] l IH]; [done|]. simpl.
  intros [Hne Hg]%not_elem_of_cons.
  rewrite filter_cons, decide_False by (simpl; congruence). by apply IH.
Qed.

(** The files of a name in the listing: the one entry of that name. *)
Lemma listing_named dir g :
  filter (λ f, name f = g) (listing dir)
  = match dir !! g with
    | Some e => [File g (entry_read_text e)]
    | None => []
    end.
Proof.
  unfold Routes.listing.
  assert (NoDup (iterdir dir).*1) as Hnd.
  { rewrite (iterdir_lists dir). apply NoDup_fst_map_to_list. }
  destruct (dir !! g) as [e|] eqn:Hg.
  - apply filter_named_in; [done|].
    rewrite (iterdir_lists dir). by apply elem_of_map_to_list.
  - apply filter_named_out. rewrite (iterdir_lists dir).
    intros ([g' e] & Hg' & Hin%elem_of_map_to_list)%list_elem_of_fmap.
    simpl in Hg'. subst g'. congruence.
Qed.

(** After a reload, the chunks of a source are those of the entry of
    that name, whatever else the directory holds and in whatever order
    it is listed. *)
Lemma reload_by_source kb g :
  from_source g (documents (reload kb))
  = match files kb !! g with
    | Some e => chunks_of_file (File g (entry_read_text e))
    | None => []
    end.
Proof.
  unfold Routes.reload. cbn [documents files].
  rewrite from_source_load, listing_named.
  destruct (files kb !! g); simpl; [apply app_nil_r|done].
Qed.

Lemma files_reload kb : files (reload kb) = files kb.
Proof. done. Qed.

Lemma universal_newlines_no_CR s : CR ∉ universal_newlines s.
Proof.
  remember (length s) as n eqn:Hn.
  revert s Hn. induction n as [n IH] using lt_wf_ind. intros s Hn.
  destruct s as [|c s]; [apply not_elem_of_nil|]. simpl.
  case_bool_decide as Hc.
  - apply not_elem_of_cons. split; [done|].
    destruct s as [|c' s]; [apply not_elem_of_nil|].
    destruct (bool_decide (c' = LF)).
    + apply (IH (length s)); [simpl in Hn; lia|done].
    + apply (IH (length (c' :: s))); [simpl in Hn; simpl; lia|done].
  - apply not_elem_of_cons. split; [done|].
    apply (IH (length s)); [simpl in Hn; lia|done].
Qed.

(** [create_knowledge_file], case by case.  With no name, or a blank
    one, the request is refused and nothing changes.  It raises when the
    sanitised name is that of a directory.  Otherwise the file is written
    under the sanitised name and the collection is reloaded:
    [get_knowledge_file] then returns the content as text mode reads it
    back, which has no carriage return and is the content itself when that
    has none; the chunks of that source are the chunks of that text; and
    every other entry, and the chunks of every other source, are what a
    reload alone would have given. *)
Theorem created_file_is_read_and_loaded
  (name content : option str) (kb : knowledge) :
  match knowledge_filename (default [] name) with
  | None =>
      create_knowledge_file name content kb
      = Some (error (lit "Filename required") 400, kb)
  | Some filename =>
      match files kb !! filename with
      | Some directory => create_knowledge_file name content kb = None
      | _ =>
          let text := read_back linesep (default [] content) in
          ∃ kb',
            create_knowledge_file name content kb
            = Some (saved filename (length (documents kb')), kb')
            ∧ get_knowledge_file filename kb'
              = Some (file_content filename text)
            ∧ (CR ∉ text)
            ∧ (linesep = [LF] ∨ linesep = [CR; LF] →
               CR ∉ default [] content → text = default [] content)
            ∧ from_source filename (documents kb')
              = _split_content text filename
            ∧ ∀ g, g ≠ filename →
                files kb' !! g = files kb !! g
                ∧ from_source g (documents kb')
                  = from_source g (documents (reload kb))
      end
  end.
Proof.
  unfold Routes.create_knowledge_file.
  destruct (knowledge_filename (default [] name)) as [filename|] eqn:Hname;
    [|done].
  apply knowledge_filename_Some in Hname as (_ & _ & Hext).
  set (raw := write_newlines linesep (default [] content)).
  set (kb' := reload (Knowledge (<[filename := regular (Some raw)]> (files kb))
                        (documents kb))).
  assert (files kb' !! filename = Some (regular (Some raw))) as Hfile
    by apply lookup_insert_eq.
  assert (∃ kb'0,
    Some (saved filename (length (documents kb')), kb')
    = Some (saved filename (length (documents kb'0)), kb'0)
    ∧ get_knowledge_file filename kb'0
      = Some (file_content filename (read_back linesep (default [] content)))
    ∧ (CR ∉ read_back linesep (default [] content))
    ∧ (linesep = [LF] ∨ linesep = [CR; LF] →
       CR ∉ default [] content →
       read_back linesep (default [] content) = default [] content)
    ∧ from_source filename (documents kb'0)
      = _split_content (read_back linesep (default [] content)) filename
    ∧ ∀ g, g ≠ filename →
        files kb'0 !! g = files kb !! g
        ∧ from_source g (documents kb'0)
          = from_source g (documents (reload kb))) as Hmain.
  { exists kb'. split; [done|]. split; [|split; [|split; [|split]]].
    - unfold get_knowledge_file. by rewrite Hfile.
    - apply universal_newlines_no_CR.
    - apply read_back_plain.
    - unfold kb'. rewrite reload_by_source. cbn [files].
      rewrite lookup_insert_eq. unfold chunks_of_file.
      cbn [Rag.name Rag.read_text entry_read_text fmap option_fmap option_map].
      by rewrite Hext.
    - intros g Hg. split; [by apply lookup_insert_ne|].
      unfold kb'. rewrite !reload_by_source. cbn [files].
      by rewrite lookup_insert_ne. }
  destruct (files kb !! filename) as [[raw0|]|]; done.
Qed.

(** [delete_knowledge_file], case by case.  A regular file is removed
    and the collection is reloaded: the name is then not found, no chunk
    names it as its source, and the chunks of every other source are what
    a reload alone would have given.  For a name that is missing, or that
    of a directory, the answer is the error with 404 and nothing changes,
    the collection included. *)
Theorem deleted_file_is_gone (filename : str) (kb : knowledge) :
  match files kb !! filename with
  | Some (regular _) =>
      ∃ kb',
        delete_knowledge_file filename kb
        = (ok_documents (length (documents kb')), kb')
        ∧ files kb' = delete filename (files kb)
        ∧ get_knowledge_file filename kb'
          = Some (error (lit "File not found") 404)
        ∧ from_source filename (documents kb') = []
        ∧ ∀ g, g ≠ filename →
            from_source g (documents kb')
            = from_source g (documents (reload kb))
  | _ =>
      delete_knowledge_file filename kb
      = (error (lit "File not found") 404, kb)
      ∧ get_knowledge_file filename kb
        = Some (error (lit "File not found") 404)
  end.
Proof.
  unfold Routes.delete_knowledge_file, get_knowledge_file.
  destruct (files kb !! filename) as [[raw|]|] eqn:Hfile; [|done|done].
  eexists. split; [done|]. rewrite files_reload. cbn [files].
  split; [done|]. rewrite lookup_delete_eq. split; [done|].
  split.
  - rewrite reload_by_source. cbn [files]. by rewrite lookup_delete_eq.
  - intros g Hg. rewrite !reload_by_source. cbn [files].
    by rewrite lookup_delete_ne.
Qed.

End KnowledgeFacts.

Lemma created_file_is_read_and_loaded_witness :
  ∃ kb',
    Routes.create_knowledge_file map_to_list [LF]
      (Some (lit " my notes ")) (Some (lit "remember the milk"))
      (Routes.Knowledge notes_dir [])
    = Some (Routes.saved (lit "my_notes.md")
              (length (Routes.documents kb')), kb')
    ∧ Routes.get_knowledge_file (lit "my_notes.md") kb'
      = Some (Routes.file_content (lit "my_notes.md")
                (lit "remember the milk")).
Proof.
  pose proof (created_file_is_read_and_loaded map_to_list [LF]
                (λ _, reflexivity _)
                (Some (lit " my notes ")) (Some (lit "remember the milk"))
                (Routes.Knowledge notes_dir [])) as H.
  destruct H as (kb' & Hc & Hg & _).
  exists kb'. split; [exact Hc|exact Hg].
Defined.

Lemma deleted_file_is_gone_witness :
  ∃ kb',
    Routes.delete_knowledge_file map_to_list (lit "notes.md")
      (Routes.Knowledge notes_dir [])
    = (Routes.ok_documents (length (Routes.documents kb')), kb')
    ∧ Routes.files kb' = delete (lit "notes.md") notes_dir.
Proof.
  pose proof (deleted_file_is_gone map_to_list (λ _, reflexivity _)
                (lit "notes.md") (Routes.Knowledge notes_dir [])) as H.
  destruct H as (kb' & Hd & Hf & _).
  exists kb'. split; [exact Hd|exact Hf].
Defined.

(* ===================================================================== *)
(** * The prompt of a chat turn (src/routes.py) *)
(* ===================================================================== *)
Section PromptFacts.

Import Config Routes.

Variable SYSTEM_PROMPT : str.

#[local] Abbreviation build_prompt := (build_prompt SYSTEM_PROMPT).
#[local] Abbreviation system_prompt := (system_prompt SYSTEM_PROMPT).

Lemma foldl_with_exchange prompt l :
  foldl with_exchange prompt l = prompt ++ concat (map exchange_turns l).
Proof.
  revert prompt. induction l as [|e l IH]; intros prompt; simpl.
  - by rewrite app_nil_r.
  - rewrite IH. unfold with_exchange, exchange_turns.
    destruct (truthy (user e)), (truthy (assistant e));
      by rewrite <- ?app_assoc, ?app_nil_r.
Qed.

Lemma slice_last_idemp {A} n (l : list A) :
  slice_last n (slice_last n l) = slice_last n l.
Proof.
  unfold slice_last. rewrite length_drop.
  replace (length l - (length l - n) - n) with 0 by lia. done.
Qed.

Lemma slice_last_length {A} n (l : list A) : length (slice_last n l) ≤ n.
Proof. unfold slice_last. rewrite length_drop. lia. Qed.

Lemma slice_last_snoc {A} n (l : list A) x :
  slice_last (S n) (l ++ [x]) = slice_last n l ++ [x].
Proof.
  unfold slice_last. rewrite length_app. simpl.
  replace (length l + 1 - S n) with (length l - n) by lia.
  rewrite drop_app_le by lia. done.
Qed.

Lemma build_prompt_unfold docs h user_text :
  build_prompt docs h user_text
  = im_turn (lit "system") (system_prompt (Rag.retrieve docs user_text 2))
    ++ concat (map exchange_turns (slice_last 10 h))
    ++ im_turn (lit "user") user_text
    ++ lit "<|im_start|>assistant" ++ [LF].
Proof.
  unfold Routes.build_prompt, get_recent.
  by rewrite foldl_with_exchange, <- !app_assoc.
Qed.

(** The prompt in closed form: the system turn, with the retrieved
    context when there is one; then, for each of the last ten exchanges
    of the history and no other, the user turn and the assistant turn that
    are not empty; then the user turn of the request and the opening of
    the assistant turn.  The time stamps, the exchanges before the last
    ten and the order of anything but these ten have no part in it. *)
Theorem prompt_in_closed_form
  (docs : list Rag.chunk) (h : list exchange) (user_text : str) :
  build_prompt docs h user_text
  = im_turn (lit "system") (system_prompt (Rag.retrieve docs user_text 2))
    ++ concat (map exchange_turns (slice_last 10 h))
    ++ im_turn (lit "user") user_text
    ++ lit "<|im_start|>assistant" ++ [LF]
  ∧ build_prompt docs h user_text
    = build_prompt docs (slice_last 10 h) user_text
  ∧ length (slice_last 10 h) ≤ 10.
Proof.
  split; [apply build_prompt_unfold|]. split; [|apply slice_last_length].
  by rewrite !build_prompt_unfold, slice_last_idemp.
Qed.

End PromptFacts.

Section TurnMemory.

Import Config Routes.

Context {audio wav : Type}.
Variable apply_tts : str → str → Z → option audio.
Variable audio_to_wav_bytes : audio → Z → wav.
Variable voice : str.
Variable sample_rate : Z.
Variable SYSTEM_PROMPT : str.

#[local] Abbreviation chat :=
  (chat apply_tts audio_to_wav_bytes voice sample_rate).
#[local] Abbreviation build_prompt := (build_prompt SYSTEM_PROMPT).
#[local] Abbreviation system_prompt := (system_prompt SYSTEM_PROMPT).

(** What the next turn tells the model of a turn that has finished: the
    prompt built on the history that the turn leaves has, right before the
    new user turn, the user text of the finished turn and, when the reply
    is not blank, the whole trimmed reply as the assistant turn, with the
    bracketed spans that were cut out of what was sent and spoken; before
    these come the nine exchanges that were the last ones until then. *)
Theorem next_prompt_recalls_the_turn
  (user_text : str) (stream : list str) (now : str)
  (h : list exchange) (d : disk)
  (evs : list event) (h' : list exchange) (d' : disk)
  (docs : list Rag.chunk) (next : str) :
  chat user_text stream now h d = finished evs h' d' →
  build_prompt docs h' next
  = im_turn (lit "system") (system_prompt (Rag.retrieve docs next 2))
    ++ concat (map exchange_turns (slice_last 9 h))
    ++ im_turn (lit "user") user_text
    ++ (if truthy (strip (concat stream))
        then im_turn (lit "assistant") (strip (concat stream)) else [])
    ++ im_turn (lit "user") next
    ++ lit "<|im_start|>assistant" ++ [LF].
Proof.
  rewrite chat_closed_form. intros Hfin.
  destruct (truthy user_text) eqn:Hu; [|done]. cbn [negb] in Hfin.
  destruct (forallb _ (turn_flushes stream)); [|done].
  injection Hfin as _ <- _. unfold add. cbn [fst].
  rewrite build_prompt_unfold, slice_last_snoc, map_app, concat_app.
  cbn [map concat]. unfold exchange_turns at 2. cbn [user assistant].
  rewrite Hu, app_nil_r. by rewrite <- !app_assoc.
Qed.

End TurnMemory.

Lemma next_prompt_recalls_the_turn_witness :
  Routes.build_prompt short_system_prompt []
    [Config.Exchange (lit "2026-01-01T00:00:00") (lit "hi")
       (lit "Sure [smiles], done.")]
    (lit "and now?")
  = Routes.im_turn (lit "system")
      (Routes.system_prompt short_system_prompt
         (Rag.retrieve [] (lit "and now?") 2))
    ++ concat (map exchange_turns (slice_last 9 []))
    ++ Routes.im_turn (lit "user") (lit "hi")
    ++ (if truthy (strip (concat [lit "Sure [smi"; lit "les], done."; lit " "]))
        then Routes.im_turn (lit "assistant")
               (strip (concat [lit "Sure [smi"; lit "les], done."; lit " "]))
        else [])
    ++ Routes.im_turn (lit "user") (lit "and now?")
    ++ lit "<|im_start|>assistant" ++ [LF].
Proof.
  exact (next_prompt_recalls_the_turn echo_tts echo_wav (lit "en_0") 24000
           short_system_prompt
           (lit "hi") [lit "Sure [smi"; lit "les], done."; lit " "]
           (lit "2026-01-01T00:00:00") [] empty_disk
           [Routes.send_json (Routes.text_chunk (lit "Sure , done. "));
            Routes.send_bytes (lit "Sure , done.");
            Routes.send_json Routes.done]
           [Config.Exchange (lit "2026-01-01T00:00:00") (lit "hi")
              (lit "Sure [smiles], done.")]
           empty_disk [] (lit "and now?") eq_refl).
Defined.

(* ===================================================================== *)
(** * The profiler calls of the handlers (src/routes.py, src/utils.py) *)
(* ===================================================================== *)
Section ProfilerFrame.

Import Utils.

Variable perf_counter : nat → Q.

#[local] Abbreviation run := (run perf_counter).
#[local] Abbreviation run_call := (run_call perf_counter).

Lemma run_app calls1 calls2 w :
  run (calls1 ++ calls2) w = run calls2 (run calls1 w).
Proof. unfold Utils.run. apply foldl_app. Qed.

Lemma run_cons c calls w : run (c :: calls) w = run calls (run_call w c).
Proof. done. Qed.

Lemma dict_set_names {V} (d : list (string * V)) k v :
  (dict_set d k v).*1
  = if bool_decide (k ∈ d.*1) then d.*1 else d.*1 ++ [k].
Proof.
  induction d as [|[k' v'] d IH]; [done|]. cbn [dict_set].
  destruct (decide (k = k')) as [->|Hne].
  - rewrite !fmap_cons. cbn [fst].
    rewrite bool_decide_eq_true_2 by left. done.
  - rewrite !fmap_cons, IH. cbn [fst].
    destruct (decide (k ∈ d.*1)) as [Hin|Hout].
    + rewrite !bool_decide_eq_true_2; [done|by right|done].
    + rewrite !bool_decide_eq_false_2; [done| |done].
      by intros [?|?]%elem_of_cons.
Qed.

Lemma run_call_frame w c nm :
  c ≠ Reset → c ≠ Start nm → c ≠ Stop nm →
  dict_get (times (run_call w c).1) nm = dict_get (times w.1) nm
  ∧ _starts (run_call w c).1 !! nm = _starts w.1 !! nm.
Proof.
  destruct w as [p tick]. destruct c as [nm'|nm'|]; simpl; [| |done].
  - intros _ Hne _. split; [done|].
    apply lookup_insert_ne. congruence.
  - intros _ _ Hne. destruct (_starts p !! nm'); simpl; [|done].
    split; [|done]. apply dict_get_set_ne. congruence.
Qed.

Lemma run_call_names w c :
  c ≠ Reset → (times w.1).*1 `prefix_of` (times (run_call w c).1).*1.
Proof.
  destruct w as [p tick]. destruct c as [nm|nm|]; simpl; [done| |done].
  intros _. destruct (_starts p !! nm); simpl; [|done].
  rewrite dict_set_names. case_bool_decide; [done|].
  by apply prefix_app_r.
Qed.

Lemma run_names calls w :
  Reset ∉ calls → (times w.1).*1 `prefix_of` (times (run calls w).1).*1.
Proof.
  revert w. induction calls as [|c calls IH]; intros w Hreset; [done|].
  apply not_elem_of_cons in Hreset as [Hc Hreset]. rewrite run_cons.
  etrans; [by apply run_call_names|by apply IH].
Qed.

Lemma run_frame calls w nm :
  Reset ∉ calls → Start nm ∉ calls → Stop nm ∉ calls →
  dict_get (times (run calls w).1) nm = dict_get (times w.1) nm
  ∧ _starts (run calls w).1 !! nm = _starts w.1 !! nm.
Proof.
  revert w. induction calls as [|c calls IH]; intros w; [done|].
  intros [Hc Hreset]%not_elem_of_cons [Hs Hstart]%not_elem_of_cons
    [Ht Hstop]%not_elem_of_cons.
  rewrite run_cons. destruct (IH (run_call w c)) as [-> ->]; try done.
  apply run_call_frame; congruence.
Qed.

(** The calls on one name leave the other names alone, and without a
    reset no timing is lost: after calls with no [reset] among them, the
    names with a stored time are the names that had one, in their order,
    followed by new ones; and a name that the calls neither start nor
    stop keeps its start and its stored time. *)
Theorem profiler_calls_keep_other_names
  (calls : list call) (w : world) (nm : string) :
  Reset ∉ calls →
  (times w.1).*1 `prefix_of` (times (run calls w).1).*1
  ∧ (Start nm ∉ calls → Stop nm ∉ calls →
     dict_get (times (run calls w).1) nm = dict_get (times w.1) nm
     ∧ _starts (run calls w).1 !! nm = _starts w.1 !! nm).
Proof.
  intros Hreset. split; [by apply run_names|].
  intros Hstart Hstop. by apply run_frame.
Qed.

End ProfilerFrame.

Lemma profiler_calls_keep_other_names_witness :
  (Utils.times stt_timed.1).*1
  `prefix_of`
  (Utils.times
     (Utils.run seconds_clock
        [Utils.Start "llm_ttft"; Utils.Stop "llm_ttft"] stt_timed).1).*1
  ∧ Utils.dict_get
      (Utils.times
         (Utils.run seconds_clock
            [Utils.Start "llm_ttft"; Utils.Stop "llm_ttft"] stt_timed).1)
      "stt"
    = Some 150%Q
  ∧ Utils._starts
      (Utils.run seconds_clock
         [Utils.Start "llm_ttft"; Utils.Stop "llm_ttft"] stt_timed).1
    !! "stt"%string
    = Some 3%Q.
Proof.
  destruct (profiler_calls_keep_other_names seconds_clock
              [Utils.Start "llm_ttft"; Utils.Stop "llm_ttft"]
              stt_timed "stt") as [Hnames Hkeep].
  { intros Hin. repeat (apply elem_of_cons in Hin as [Hin|Hin]; [done|]).
    by apply elem_of_nil in Hin. }
  destruct Hkeep as [Htime Hstart].
  { intros Hin. repeat (apply elem_of_cons in Hin as [Hin|Hin]; [done|]).
    by apply elem_of_nil in Hin. }
  { intros Hin. repeat (apply elem_of_cons in Hin as [Hin|Hin]; [done|]).
    by apply elem_of_nil in Hin. }
  split; [exact Hnames|]. split; [exact Htime|exact Hstart].
Defined.

Section TurnTiming.

Import Config Utils Routes.

Context {audio wav : Type}.
Variable apply_tts : str → str → Z → option audio.
Variable audio_to_wav_bytes : audio → Z → wav.
Variable voice : str.
Variable sample_rate : Z.
Variable perf_counter : nat → Q.

#[local] Abbreviation on_token :=
  (on_token apply_tts audio_to_wav_bytes voice sample_rate).
#[local] Abbreviation consume :=
  (consume apply_tts audio_to_wav_bytes voice sample_rate).
#[local] Abbreviation chat :=
  (chat apply_tts audio_to_wav_bytes voice sample_rate).
#[local] Abbreviation consume_timed :=
  (consume_timed apply_tts audio_to_wav_bytes voice sample_rate perf_counter).
#[local] Abbreviation chat_timed :=
  (chat_timed apply_tts audio_to_wav_bytes voice sample_rate perf_counter).
#[local] Abbreviation run := (run perf_counter).
#[local] Abbreviation calls_of_loop := (loop_calls apply_tts voice sample_rate).
#[local] Abbreviation calls_of_chat := (chat_calls apply_tts voice sample_rate).

(** The result of the loop without its flags. *)
Lemma consume_timed_spec stream st w :
  match (consume_timed stream st w).1, consume stream (vars st) with
  | Ok st', Ok t => vars st' = t
  | Raised s, Raised s' => s = s'
  | _, _ => False
  end
  ∧ (consume_timed stream st w).2
    = run (calls_of_loop (first_token st) (first_tts st)
             (buffer (vars st)) stream) w.
Proof.
  revert st w. induction stream as [|token rest IH]; intros st w.
  - simpl. unfold loop_calls. simpl.
    by destruct (first_token st), (first_tts st).
  - cbn [Routes.consume_timed Routes.consume].
    unfold Routes.on_token, Routes.emit, on_token_timed, loop_calls.
    cbn [loop_flushes].
    set (w1 := if first_token st then w
               else (stop perf_counter "llm_ttft" w).2).
    assert (∀ calls,
      run ((if first_token st then [] else [Stop "llm_ttft"]) ++ calls) w
      = run calls w1) as Hfirst.
    { intros calls. unfold w1. by destruct (first_token st). }
    cbn zeta.
    destruct (flush_due (buffer (vars st) ++ token)).
    + destruct (truthy (cleaned (buffer (vars st) ++ token))) eqn:Hclean.
      * cbn [app]. unfold tts_ok.
        destruct (apply_tts (cleaned (buffer (vars st) ++ token)) voice
                    sample_rate) as [a|] eqn:Htts.
        -- rewrite bool_decide_eq_true_2 by eauto. cbn [mbind result_bind].
           match goal with
           | |- context [consume_timed rest ?s ?w'] =>
               destruct (IH s w') as [Hres Hcalls]
           end.
           cbn [vars first_token first_tts buffer] in Hres, Hcalls.
           unfold loop_calls in Hcalls. cbn [app] in Hcalls.
           split; [exact Hres|]. rewrite Hcalls, Hfirst.
           by destruct (first_tts st).
        -- rewrite bool_decide_eq_false_2 by (by intros [? ?]).
           cbn [mbind result_bind fst snd]. split; [done|].
           rewrite Hfirst. by destruct (first_tts st).
      * cbn [app mbind result_bind].
        match goal with
        | |- context [consume_timed rest ?s ?w'] =>
            destruct (IH s w') as [Hres Hcalls]
        end.
        cbn [vars first_token first_tts buffer] in Hres, Hcalls.
        unfold loop_calls in Hcalls. cbn [app] in Hcalls.
        split; [exact Hres|]. by rewrite Hcalls, Hfirst.
    + cbn [mbind result_bind].
      match goal with
      | |- context [consume_timed rest ?s ?w'] =>
          destruct (IH s w') as [Hres Hcalls]
      end.
      cbn [vars first_token first_tts buffer] in Hres, Hcalls.
      unfold loop_calls in Hcalls. cbn [app] in Hcalls.
      split; [exact Hres|]. by rewrite Hcalls, Hfirst.
Qed.

Lemma chat_timed_spec user_text stream now h d w :
  (chat_timed user_text stream now h d w).1.1 = chat user_text stream now h d
  ∧ (chat_timed user_text stream now h d w).2
    = run (calls_of_chat user_text stream) w
  ∧ (chat_timed user_text stream now h d w).1.2
    = match chat user_text stream now h d with
      | finished _ _ _ =>
          Some (report (run (calls_of_chat user_text stream) w).1)
      | _ => None
      end.
Proof.
  unfold Routes.chat_timed, Routes.chat, chat_calls.
  destruct (negb (truthy user_text)); [done|].
  pose proof (consume_timed_spec stream (Timed (Turn [] [] []) false false)
                (start perf_counter "llm_ttft" w)) as [Hres Hcalls].
  cbn [vars first_token first_tts buffer] in Hres, Hcalls.
  rewrite run_cons. cbn [Utils.run_call].
  destruct (consume_timed stream _ _) as [[st'|s] w'];
    destruct (consume stream _) as [t|s']; cbn [fst snd] in *; try done.
  - subst t w'.
    destruct (flush_remaining _ _ _ _ (vars st')) as [out|s]; [|done].
    by destruct (add now user_text _ h d).
  - by subst.
Qed.

(** The profiler has no part in what a turn sends and stores, and the
    calls that a turn makes on it are few: the start of ["llm_ttft"]; its
    stop at the first token, if there is one; the start of ["tts_ttfs"]
    before the first synthesis of the loop and its stop after it, if that
    synthesis returns.  The report, which only a finished turn gets to,
    is that of the profiler after these calls. *)
Theorem chat_times_two_intervals
  (user_text : str) (stream : list str) (now : str)
  (h : list exchange) (d : disk) (w : world) :
  (chat_timed user_text stream now h d w).1.1 = chat user_text stream now h d
  ∧ (chat_timed user_text stream now h d w).2
    = run (calls_of_chat user_text stream) w
  ∧ (chat_timed user_text stream now h d w).1.2
    = match chat user_text stream now h d with
      | finished _ _ _ =>
          Some (report (run (calls_of_chat user_text stream) w).1)
      | _ => None
      end.
Proof. apply chat_timed_spec. Qed.

Lemma chat_calls_no_reset user_text stream :
  Reset ∉ calls_of_chat user_text stream.
Proof.
  unfold chat_calls, loop_calls.
  destruct (negb (truthy user_text)); [apply not_elem_of_nil|].
  destruct stream as [|token rest];
    destruct (loop_flushes [] _) as [|clean l];
    try destruct (bool_decide _);
    intros Hin; repeat (apply elem_of_cons in Hin as [Hin|Hin]; [done|]);
    by apply elem_of_nil in Hin.
Qed.

Lemma chat_calls_names user_text stream nm :
  nm ≠ "llm_ttft"%string → nm ≠ "tts_ttfs"%string →
  (Start nm ∉ calls_of_chat user_text stream)
  ∧ (Stop nm ∉ calls_of_chat user_text stream).
Proof.
  intros H1 H2. unfold chat_calls, loop_calls.
  destruct (negb (truthy user_text)); [split; apply not_elem_of_nil|].
  destruct stream as [|token rest];
    destruct (loop_flushes [] _) as [|clean l];
    try destruct (bool_decide _);
    split; intros Hin;
    repeat (apply elem_of_cons in Hin as [Hin|Hin]; [congruence|]);
    by apply elem_of_nil in Hin.
Qed.

Lemma dict_get_elem {V} (dict : list (string * V)) k v :
  dict_get dict k = Some v → (k, v) ∈ dict.
Proof.
  induction dict as [|[k' v'] dict IH]; [done|]. simpl.
  destruct (decide (k = k')) as [->|Hne].
  - intros [= ->]. left.
  - intros Hget. right. by apply IH.
Qed.

Lemma report_names p : (report p).*1.*2 = (times p).*1.
Proof.
  unfold report. induction (times p) as [|[nm ms] l IH]; [done|].
  cbn [map]. rewrite !fmap_cons. cbn [fst snd]. by rewrite IH.
Qed.

(** A turn never resets the profiler, so its report is not that of the
    turn alone: it lists first every name that had a stored time when the
    turn began, in the old order, and a name other than the two that the
    turn times is reported with the time it had, whatever request that
    time came from. *)
Theorem chat_report_keeps_earlier_timings
  (user_text : str) (stream : list str) (now : str)
  (h : list exchange) (d : disk) (w : world)
  (lines : list (grade * string * Q)) :
  (chat_timed user_text stream now h d w).1.2 = Some lines →
  (times w.1).*1 `prefix_of` lines.*1.*2
  ∧ ∀ nm ms,
      dict_get (times w.1) nm = Some ms →
      nm ≠ "llm_ttft"%string → nm ≠ "tts_ttfs"%string →
      (grade_of ms, nm, ms) ∈ lines.
Proof.
  destruct (chat_timed_spec user_text stream now h d w) as (_ & _ & Hrep).
  rewrite Hrep. clear Hrep.
  destruct (chat user_text stream now h d); [done|done|].
  intros [= <-]. split.
  - rewrite report_names.
    apply run_names, chat_calls_no_reset.
  - intros nm ms Hget H1 H2.
    destruct (chat_calls_names user_text stream nm H1 H2) as [Hs Ht].
    destruct (run_frame perf_counter (calls_of_chat user_text stream) w nm
                (chat_calls_no_reset user_text stream) Hs Ht) as [Hkeep _].
    rewrite <- Hkeep in Hget. apply dict_get_elem in Hget.
    unfold report. apply list_elem_of_fmap. by exists (nm, ms).
Qed.

End TurnTiming.

Lemma chat_report_keeps_earlier_timings_witness :
  (Utils.times after_stt.1).*1
  `prefix_of`
  [(Utils.good, "stt"%string, 150%Q);
   (Utils.grade_of (elapsed_ms seconds_clock 0 1), "llm_ttft"%string,
    elapsed_ms seconds_clock 0 1);
   (Utils.grade_of (elapsed_ms seconds_clock 2 3), "tts_ttfs"%string,
    elapsed_ms seconds_clock 2 3)].*1.*2.
Proof.
  apply (chat_report_keeps_earlier_timings echo_tts echo_wav (lit "en_0")
           24000 seconds_clock (lit "hi") hello_tokens
           (lit "2026-01-01T00:00:00") [] empty_disk after_stt).
  reflexivity.
Defined.

Section TranscribeTiming.

Import Config Utils Routes.

Context {audio wav : Type}.
Variable apply_tts : str → str → Z → option audio.
Variable audio_to_wav_bytes : audio → Z → wav.
Variable voice : str.
Variable sample_rate : Z.
Variable perf_counter : nat → Q.

#[local] Abbreviation chat :=
  (chat apply_tts audio_to_wav_bytes voice sample_rate).
#[local] Abbreviation chat_timed :=
  (chat_timed apply_tts audio_to_wav_bytes voice sample_rate perf_counter).
#[local] Abbreviation transcribe := (transcribe perf_counter).
#[local] Abbreviation run := (run perf_counter).
#[local] Abbreviation elapsed := (elapsed_ms perf_counter).
#[local] Abbreviation synth := (synthesised apply_tts voice sample_rate).

Lemma transcribe_spec segments w :
  transcribe segments w
  = match segments with
    | Some texts =>
        (Some (strip (join (lit " ") texts),
               stt_grade (elapsed w.2 (S w.2)), elapsed w.2 (S w.2)),
         (Profiler [("stt"%string, elapsed w.2 (S w.2))]
            {[ "stt"%string := perf_counter w.2 ]}, S (S w.2)))
    | None =>
        (None,
         (Profiler [] {[ "stt"%string := perf_counter w.2 ]}, S w.2))
    end.
Proof.
  destruct w as [p tick]. unfold Routes.transcribe.
  cbn [fst snd Utils.reset start times _starts].
  rewrite insert_empty. destruct segments as [texts|]; [|done].
  rewrite (stop_started perf_counter "stt" (perf_counter tick))
    by apply lookup_singleton_eq.
  done.
Qed.

(** [transcribe] empties the profiler and times one interval: whatever
    the profiler held, afterwards its only stored time is that of
    ["stt"], the time between two successive readings of the clock, which
    is also the time that is graded and logged; the text returned has no
    whitespace at either end.  When the recogniser raises, no time is
    stored at all. *)
Theorem transcribe_times_only_stt
  (segments : option (list str)) (w : world) :
  (transcribe segments w).2 = run (transcribe_calls segments) w
  ∧ match segments with
    | Some texts =>
        (transcribe segments w).1
        = Some (strip (join (lit " ") texts),
                stt_grade (elapsed w.2 (S w.2)), elapsed w.2 (S w.2))
        ∧ strip (strip (join (lit " ") texts)) = strip (join (lit " ") texts)
        ∧ times (transcribe segments w).2.1
          = [("stt"%string, elapsed w.2 (S w.2))]
        ∧ (transcribe segments w).2.2 = S (S w.2)
    | None =>
        (transcribe segments w).1 = None
        ∧ times (transcribe segments w).2.1 = []
    end.
Proof.
  split.
  - destruct w as [p tick], segments as [texts|];
      unfold Routes.transcribe, transcribe_calls, Utils.run;
      cbn [foldl Utils.run_call fst snd]; [|done].
    by destruct (stop perf_counter "stt" _).
  - rewrite transcribe_spec. destruct segments as [texts|]; [|done].
    repeat split. apply strip_idemp.
Qed.

(** The two gradings of the same time: [transcribe] logs the time of
    ["stt"] with the bounds 200 and 800, and the report of the next chat
    turn, which still holds that time, logs it with the bounds 300 and
    600.  The two agree below 200, from 300 up to 600 and from 800 on;
    from 200 up to 300 the first says warning and the second good; from
    600 up to 800 the first says warning and the second poor. *)
Theorem stt_is_graded_twice (ms : Q) :
  ((ms < 200)%Q → stt_grade ms = good ∧ grade_of ms = good)
  ∧ ((200 <= ms)%Q → (ms < 300)%Q →
     stt_grade ms = warning ∧ grade_of ms = good)
  ∧ ((300 <= ms)%Q → (ms < 600)%Q →
     stt_grade ms = warning ∧ grade_of ms = warning)
  ∧ ((600 <= ms)%Q → (ms < 800)%Q →
     stt_grade ms = warning ∧ grade_of ms = poor)
  ∧ ((800 <= ms)%Q → stt_grade ms = poor ∧ grade_of ms = poor).
Proof.
  unfold stt_grade, grade_of.
  repeat split; intros;
    destruct (Qlt_le_dec ms 200); destruct (Qlt_le_dec ms 800);
    destruct (Qlt_le_dec ms 300); destruct (Qlt_le_dec ms 600);
    try done; exfalso; lra.
Qed.

End TranscribeTiming.

Section VoiceTurn.

Import Config Utils Routes.

Context {audio wav : Type}.
Variable apply_tts : str → str → Z → option audio.
Variable audio_to_wav_bytes : audio → Z → wav.
Variable voice : str.
Variable sample_rate : Z.
Variable perf_counter : nat → Q.

#[local] Abbreviation chat_timed :=
  (chat_timed apply_tts audio_to_wav_bytes voice sample_rate perf_counter).
#[local] Abbreviation transcribe := (transcribe perf_counter).
#[local] Abbreviation elapsed := (elapsed_ms perf_counter).
#[local] Abbreviation synth := (synthesised apply_tts voice sample_rate).

(** The report of a voice turn: a transcription and then a chat turn in
    which every synthesis returns.  It has the time of ["stt"] first, as
    the transcription stored it; then the time of ["llm_ttft"], from the
    start of the turn to the first token, if the model gives a token;
    then the time of ["tts_ttfs"], around the first synthesis of the
    loop, if the loop flushes at all.  Each is the time between two
    successive readings of the clock. *)
Theorem voice_turn_report
  (texts : list str) (user_text : str) (stream : list str) (now : str)
  (h : list exchange) (d : disk) (w : world) :
  user_text ≠ [] →
  forallb synth (turn_flushes stream) = true →
  (chat_timed user_text stream now h d (transcribe (Some texts) w).2).1.2
  = Some
      (map (λ e, (grade_of e.2, e.1, e.2))
         ([("stt"%string, elapsed w.2 (S w.2))]
          ++ match stream with
             | [] => []
             | _ :: _ =>
                 [("llm_ttft"%string,
                   elapsed (S (S w.2)) (S (S (S w.2))))]
             end
          ++ match loop_flushes [] stream with
             | [] => []
             | _ :: _ =>
                 [("tts_ttfs"%string,
                   elapsed (S (S (S (S w.2)))) (S (S (S (S (S w.2))))))]
             end)).
Proof.
  intros Hu Hok.
  destruct (chat_timed_spec apply_tts audio_to_wav_bytes voice sample_rate
              perf_counter user_text stream now h d
              (transcribe (Some texts) w).2) as (_ & _ & Hrep).
  rewrite Hrep. clear Hrep.
  rewrite chat_closed_form, Hok.
  assert (truthy user_text = true) as Htruthy by (by destruct user_text).
  rewrite Htruthy. cbn [negb]. f_equal.
  rewrite transcribe_spec. cbn [snd].
  unfold chat_calls. rewrite Htruthy. cbn [negb].
  unfold loop_calls.
  destruct stream as [|token rest]; [done|].
  unfold Utils.run. cbn [app foldl Utils.run_call start fst snd times _starts].
  rewrite (stop_started perf_counter "llm_ttft" (perf_counter (S (S w.2))))
    by apply lookup_insert_eq.
  cbn [snd].
  destruct (loop_flushes [] (token :: rest)) as [|clean flushes] eqn:Hfl;
    [done|].
  assert (bool_decide (tts_ok apply_tts voice sample_rate clean) = true)
    as Hclean.
  { unfold turn_flushes in Hok. rewrite Hfl in Hok.
    cbn [map app forallb] in Hok. by apply andb_true_iff in Hok as [? _]. }
  rewrite Hclean.
  cbn [foldl Utils.run_call start fst snd times _starts].
  rewrite (stop_started perf_counter "tts_ttfs"
             (perf_counter (S (S (S (S w.2))))))
    by apply lookup_insert_eq.
  done.
Qed.

End VoiceTurn.

Lemma voice_turn_report_witness :
  (Routes.chat_timed echo_tts echo_wav (lit "en_0") 24000 seconds_clock
     (lit "hi") hello_tokens (lit "2026-01-01T00:00:00") [] empty_disk
     (Routes.transcribe seconds_clock (Some [lit " hi"])
        (Utils.fresh, 0%nat)).2).1.2
  = Some
      [(Utils.grade_of (elapsed_ms seconds_clock 0 1), "stt"%string,
        elapsed_ms seconds_clock 0 1);
       (Utils.grade_of (elapsed_ms seconds_clock 2 3), "llm_ttft"%string,
        elapsed_ms seconds_clock 2 3);
       (Utils.grade_of (elapsed_ms seconds_clock 4 5), "tts_ttfs"%string,
        elapsed_ms seconds_clock 4 5)].
Proof.
  apply (voice_turn_report echo_tts echo_wav (lit "en_0") 24000
           seconds_clock [lit " hi"] (lit "hi") hello_tokens
           (lit "2026-01-01T00:00:00") [] empty_disk (Utils.fresh, 0%nat)).
  - done.
  - reflexivity.
Defined.

(* ===================================================================== *)
(** * Case in the retrieval (src/rag.py) *)
(* ===================================================================== *)
Section RetrievalCase.

Import Rag.

Lemma to_small_not_capital c : capital (to_small c) = false.
Proof. destruct c as [[] [] [] [] [] [] [] []]; vm_compute; reflexivity. Qed.

Lemma same_letter_to_small c c' :
  same_letter c c' = true → to_small c = to_small c'.
Proof.
  unfold same_letter. intros H.
  apply orb_true_iff in H as [H|H];
    [apply orb_true_iff in H as [H|H]|].
  - by apply bool_decide_eq_true in H as ->.
  - apply andb_true_iff in H as [Hc ->%bool_decide_eq_true].
    unfold to_small at 1. rewrite Hc.
    pose proof (to_small_not_capital c) as Hs. unfold to_small in Hs.
    rewrite Hc in Hs. unfold to_small. by rewrite Hs.
  - apply andb_true_iff in H as [Hc ->%bool_decide_eq_true].
    unfold to_small at 2. rewrite Hc.
    pose proof (to_small_not_capital c') as Hs. unfold to_small in Hs.
    rewrite Hc in Hs. unfold to_small. by rewrite Hs.
Qed.

Lemma same_letters_lower text other :
  Forall2 (λ c c', same_letter c c' = true) text other →
  lower text = lower other.
Proof.
  induction 1 as [|c c' text other Hc _ IH]; [done|].
  unfold lower in *. simpl. rewrite IH. f_equal.
  rewrite !lower_char_to_small. by apply same_letter_to_small.
Qed.

Lemma lower_no_capital s : Forall (λ c, capital c = false) (lower s).
Proof.
  unfold lower. apply Forall_fmap, Forall_forall. intros c _. simpl.
  rewrite lower_char_to_small. apply to_small_not_capital.
Qed.

(** A keyword is a word in lower case, and case has no part in the
    retrieval.  Every keyword of a text, so of a chunk and of a query,
    has no capital letter, three or more code points and only word
    characters.  Two texts that are the same up to the case of their
    letters (a capital against its small letter) have the same keywords,
    and as queries they retrieve the same from any collection. *)
Theorem keywords_are_lower_case (text : str) :
  (∀ w, w ∈ keywords_of text →
        Forall (λ c, capital c = false) w ∧ 3 ≤ length w ∧ all_word w)
  ∧ (∀ other,
       Forall2 (λ c c', same_letter c c' = true) text other →
       keywords_of other = keywords_of text
       ∧ ∀ docs top_k,
           retrieve docs other top_k = retrieve docs text top_k).
Proof.
  split.
  - intros w (Hlen & Hword & pre & post & Hpiece & _)%keywords_of_tokens.
    split; [|done].
    pose proof (lower_no_capital text) as Hall. rewrite Hpiece in Hall.
    apply Forall_app in Hall as [_ Hall].
    by apply Forall_app in Hall as [Hall _].
  - intros other Hsame. apply same_letters_lower in Hsame.
    assert (keywords_of other = keywords_of text) as Hkw
      by (unfold keywords_of; by rewrite Hsame).
    split; [done|]. intros docs top_k.
    rewrite !retrieve_join. unfold top_docs. by rewrite Hkw.
Qed.

Lemma keywords_are_lower_case_witness :
  keywords_of (lit "which voice?") = keywords_of (lit "Which VOICE?")
  ∧ retrieve [speech_chunk] (lit "which voice?") 2
    = retrieve [speech_chunk] (lit "Which VOICE?") 2
  ∧ retrieve [speech_chunk] (lit "Which VOICE?") 2 = context_part speech_chunk
  ∧ Forall (λ c, capital c = false) (lit "voice").
Proof.
  destruct (keywords_are_lower_case (lit "Which VOICE?")) as [Hlow Hsame].
  destruct (Hsame (lit "which voice?")) as [Hkw Hret].
  { repeat constructor. }
  split; [exact Hkw|]. split; [apply Hret|]. split; [reflexivity|].
  apply (Hlow (lit "voice")). vm_compute. reflexivity.
Defined.

End RetrievalCase.

(* ===================================================================== *)
(** * The downloader (src/download_models.py) *)
(* ===================================================================== *)
Section DownloadFacts.

Import Download.

Context {fs : Type}.
Variable mkdir_models : fs → fs.
Variable verify_model : fs → string → bool.
Variable download_with_progress : fs → string → bool * fs.

#[local] Abbreviation download_missing :=
  (download_missing verify_model download_with_progress).
#[local] Abbreviation main :=
  (main mkdir_models verify_model download_with_progress).
#[local] Abbreviation missing := (missing_models verify_model).
#[local] Abbreviation after := (state_after download_with_progress).
#[local] Abbreviation ok := (attempt_ok verify_model download_with_progress).

Lemma check_models_spec s :
  check_models verify_model s
  = (missing s, bool_decide (missing s = [])).
Proof.
  unfold check_models, missing_models, MODELS. simpl.
  rewrite !filter_cons, filter_nil.
  destruct (verify_model s "llm"), (verify_model s "tts"); done.
Qed.

Lemma state_after_cons key keys s :
  after keys (download_with_progress s key).2 = after (key :: keys) s.
Proof. done. Qed.

Lemma attempt_ok_cons key p k s :
  ok (download_with_progress s key).2 p k = ok s (key :: p) k.
Proof. done. Qed.

(** The second loop, from any file system. *)
Lemma download_missing_spec keys s :
  (download_missing keys s).2 `prefix_of` keys
  ∧ (download_missing keys s).1.2 = after (download_missing keys s).2 s
  ∧ (∀ p key rest,
       (download_missing keys s).2 = p ++ key :: rest → rest ≠ [] →
       ok s p key = true)
  ∧ ((download_missing keys s).1.1 = 0
     ∧ (download_missing keys s).2 = keys
     ∧ (∀ p key rest, keys = p ++ key :: rest → ok s p key = true)
     ∨ (download_missing keys s).1.1 = 1
       ∧ ∃ p key, (download_missing keys s).2 = p ++ [key]
                  ∧ ok s p key = false).
Proof.
  revert s. induction keys as [|key0 keys IH]; intros s.
  - simpl. split; [done|]. split; [done|]. split.
    + intros p key rest Hnil. by destruct p.
    + left. split; [done|]. split; [done|].
      intros p key rest Hnil. by destruct p.
  - cbn [Download.download_missing].
    destruct (download_with_progress s key0) as [success s1] eqn:Hd.
    assert (s1 = (download_with_progress s key0).2) as Hs1 by (by rewrite Hd).
    destruct (success && verify_model s1 key0) eqn:Hok.
    + destruct (IH s1) as (Hpre & Hfs & Hmid & Hcode).
      destruct (download_missing keys s1) as [[code s2] tried].
      cbn [fst snd] in *.
      assert (ok s [] key0 = true) as Hfirst.
      { unfold attempt_ok, state_after. simpl. by rewrite Hd. }
      split; [by apply prefix_cons|].
      split; [by rewrite Hfs, Hs1|]. split.
      * intros p key rest Heq Hrest. destruct p as [|k p]; simplify_eq/=.
        -- done.
        -- rewrite <- attempt_ok_cons. rewrite Hd. cbn [snd].
           by apply (Hmid p key rest).
      * destruct Hcode as [(-> & -> & Hall)|(-> & p & key & -> & Hfail)].
        -- left. split; [done|]. split; [done|].
           intros p key rest Heq. destruct p as [|k p]; simplify_eq/=.
           ++ done.
           ++ rewrite <- attempt_ok_cons. rewrite Hd. cbn [snd].
              by apply (Hall p key rest).
        -- right. split; [done|]. exists (key0 :: p), key. split; [done|].
           rewrite <- attempt_ok_cons. by rewrite Hd.
    + cbn [fst snd]. split; [by apply prefix_cons, prefix_nil|].
      split; [unfold state_after; simpl; by rewrite Hd|]. split.
      * intros p key rest Heq Hrest.
        destruct p as [|k p]; simplify_eq/=; by destruct p.
      * right. split; [done|]. exists [], key0. split; [done|].
        unfold attempt_ok, state_after. simpl. by rewrite Hd.
Qed.

(** [main] downloads only what is missing, in order, and stops at the
    first failure.  The models for which a download is started are the
    first ones of those that do not verify at the start, so never one
    that does; the file system that is left is the one that these
    downloads, one after the other, leave; and every download but the
    last one started has succeeded, with its file verifying right after
    it.  The exit code is 0 when that is so of the last one too, and then
    every missing model was downloaded; it is 1 when the last download
    started has failed, or has left a file that does not verify, and then
    nothing was started after it.  A model that was downloaded before the
    last is not verified again at the end. *)
Theorem main_downloads_what_is_missing (s : fs) :
  let s0 := mkdir_models s in
  (main s).2 `prefix_of` missing s0
  ∧ Forall (λ key, verify_model s0 key = false) (main s).2
  ∧ (main s).1.2 = after (main s).2 s0
  ∧ (∀ p key rest,
       (main s).2 = p ++ key :: rest → rest ≠ [] → ok s0 p key = true)
  ∧ ((main s).1.1 = 0
     ∧ (main s).2 = missing s0
     ∧ (∀ p key rest, missing s0 = p ++ key :: rest → ok s0 p key = true)
     ∨ (main s).1.1 = 1
       ∧ ∃ p key, (main s).2 = p ++ [key] ∧ ok s0 p key = false).
Proof.
  simpl. unfold Download.main. rewrite check_models_spec.
  assert (Forall (λ key, verify_model (mkdir_models s) key = false)
            (missing (mkdir_models s))) as Hall.
  { apply Forall_forall. by intros key [? _]%list_elem_of_filter. }
  case_bool_decide as Hnone.
  - rewrite Hnone. cbn [fst snd]. split; [done|]. split; [constructor|].
    split; [done|]. split.
    + intros p key rest Hnil. by destruct p.
    + left. split; [done|]. split; [done|].
      intros p key rest Hnil. by destruct p.
  - destruct (download_missing_spec (missing (mkdir_models s))
                (mkdir_models s)) as (Hpre & Hfs & Hmid & Hcode).
    split; [done|]. split; [|done].
    destruct Hpre as [k Hk]. rewrite Hk in Hall.
    by apply Forall_app in Hall as [? _].
Qed.

End DownloadFacts.

(* ===================================================================== *)
(** * The audio encoder (src/utils.py) *)
(* ===================================================================== *)

(** ** The rounding of a product *)

Section Rounding.
Import SpecFloat.
Local Open Scope Z_scope.

Lemma iter_pos_invariant {A} (f : A → A) (I : Z → A → Prop) :
  (∀ k y, 0 ≤ k → I k y → I (k + 1) (f y)) →
  ∀ p k x, 0 ≤ k → I k x → I (k + Z.pos p) (iter_pos f p x).
Proof.
  intros Hstep. induction p as [p IH|p IH|]; intros k x Hk Hx; simpl.
  - replace (k + Z.pos p~1) with (k + 1 + Z.pos p + Z.pos p) by lia.
    apply IH; [lia|]. apply IH; [lia|]. by apply Hstep.
  - replace (k + Z.pos p~0) with (k + Z.pos p + Z.pos p) by lia.
    apply IH; [lia|]. by apply IH.
  - by apply Hstep.
Qed.

Lemma digits2_pos_bounds p :
  2 ^ (Z.pos (digits2_pos p) - 1) ≤ Z.pos p < 2 ^ Z.pos (digits2_pos p).
Proof.
  induction p as [p IH|p IH|]; simpl; [| |done].
  all: rewrite Pos2Z.inj_succ;
    replace (Z.succ (Z.pos (digits2_pos p)) - 1)
      with (Z.succ (Z.pos (digits2_pos p) - 1)) by lia;
    rewrite !Z.pow_succ_r by lia; lia.
Qed.

Lemma Zdigits2_le m k : 0 ≤ k → 0 ≤ m < 2 ^ k → Zdigits2 m ≤ k.
Proof.
  intros Hk [Hm Hlt]. destruct m as [|p|p]; simpl; [lia| |lia].
  pose proof (digits2_pos_bounds p) as [Hlow _].
  destruct (Z_le_gt_dec (Z.pos (digits2_pos p)) k) as [|Hgt]; [done|].
  assert (2 ^ k ≤ 2 ^ (Z.pos (digits2_pos p) - 1)) by (apply Z.pow_le_mono_r; lia).
  lia.
Qed.

Lemma shifted_shr_1 m k mrs :
  0 ≤ k → shifted m k mrs → shifted m (k + 1) (shr_1 mrs).
Proof.
  intros Hk (Hpos & Hle & Hex & Hin). unfold shifted.
  rewrite Z.pow_add_r by lia.
  change (2 ^ 1) with 2. assert (0 < 2 ^ k) by (apply Z.pow_pos_nonneg; lia).
  destruct mrs as [m1 r s]; cbn [shr_m shr_r shr_s] in *.
  destruct m1 as [|[p|p|]|p]; cbn [shr_1 shr_m shr_r shr_s]; try lia;
    try pose proof (Pos2Z.inj_xI p); try pose proof (Pos2Z.inj_xO p);
    destruct r, s; cbn [orb] in *;
    try specialize (Hin eq_refl); try specialize (Hex eq_refl);
    (split_and!; [lia|nia|intros; try done; nia|intros; try done; nia]).
Qed.

Variables prec emax : Z.

Lemma shifted_0 m : 0 ≤ m → shifted m 0 (Build_shr_record m false false).
Proof. intros Hm. unfold shifted; simpl. split_and!; [lia|lia|lia|done]. Qed.

Lemma shr_fexp_spec m e :
  0 ≤ m →
  ∃ k mrs, shr_fexp prec emax m e loc_Exact = (mrs, e + k)
    ∧ 0 ≤ k ∧ e + k = Z.max e (fexp prec emax (Zdigits2 m + e))
    ∧ shifted m k mrs.
Proof.
  intros Hm. unfold shr_fexp, shr.
  destruct (fexp prec emax (Zdigits2 m + e) - e) as [|p|p] eqn:Hn.
  - exists 0, (Build_shr_record m false false). rewrite Z.add_0_r.
    split_and!; [done|done|lia|by apply shifted_0].
  - exists (Z.pos p), (iter_pos shr_1 p (Build_shr_record m false false)).
    split_and!; [done|lia|lia|].
    apply (iter_pos_invariant shr_1 (shifted m) (shifted_shr_1 m) p 0); [done|].
    by apply shifted_0.
  - exists 0, (Build_shr_record m false false). rewrite Z.add_0_r.
    split_and!; [done|done|lia|by apply shifted_0].
Qed.

Lemma round_nearest_even_shifted m k mrs :
  0 ≤ k → shifted m k mrs →
  0 ≤ round_nearest_even (shr_m mrs) (loc_of_shr_record mrs)
  ∧ round_nearest_even (shr_m mrs) (loc_of_shr_record mrs) * 2 ^ k < m + 2 ^ k.
Proof.
  intros Hk (Hpos & Hle & Hex & Hin).
  assert (0 < 2 ^ k) by (apply Z.pow_pos_nonneg; lia).
  destruct mrs as [m1 [] []]; simpl in *;
    try specialize (Hin eq_refl); try specialize (Hex eq_refl);
    try destruct (Z.even m1); split; nia.
Qed.

Hypothesis Hprec : 15 ≤ prec.
Hypothesis Hemax : prec ≤ emax.

Lemma fexp_small m e :
  e ≤ 0 → 0 ≤ m < 32768 * 2 ^ (- e) → fexp prec emax (Zdigits2 m + e) ≤ 0.
Proof.
  intros He Hm. assert (Zdigits2 m ≤ 15 - e).
  { apply Zdigits2_le; [lia|].
    replace (15 - e) with (15 + - e) by lia. rewrite Z.pow_add_r by lia.
    by change (2 ^ 15) with 32768. }
  unfold fexp, emin. lia.
Qed.

(** The rounding of a product that is at most 32767 in magnitude. *)
Lemma binary_round_aux_int16 s p e :
  e ≤ 0 → Z.pos p ≤ 32767 * 2 ^ (- e) →
  binary_round_aux prec emax s (Z.pos p) e loc_Exact = S754_zero s
  ∨ ∃ m e', binary_round_aux prec emax s (Z.pos p) e loc_Exact = S754_finite s m e'
      ∧ e' ≤ 0 ∧ Z.pos m < 32768 * 2 ^ (- e').
Proof.
  intros He Hp. unfold binary_round_aux.
  destruct (shr_fexp_spec (Z.pos p) e) as (k & mrs & -> & Hk & Hek & Hsh); [lia|].
  assert (0 < 2 ^ (- e)) by (apply Z.pow_pos_nonneg; lia).
  assert (Hfe : fexp prec emax (Zdigits2 (Z.pos p) + e) ≤ 0)
    by (apply fexp_small; lia).
  assert (He1 : e + k ≤ 0) by lia.
  destruct (round_nearest_even_shifted _ _ _ Hk Hsh) as [Hr0 Hr].
  generalize dependent (round_nearest_even (shr_m mrs) (loc_of_shr_record mrs)).
  intros r Hr0 Hr.
  assert (0 < 2 ^ k) by (apply Z.pow_pos_nonneg; lia).
  assert (0 < 2 ^ (- (e + k))) by (apply Z.pow_pos_nonneg; lia).
  assert (Hsplit : 2 ^ (- e) = 2 ^ (- (e + k)) * 2 ^ k).
  { rewrite <- Z.pow_add_r by lia. f_equal; lia. }
  assert (Hrlt : r < 32768 * 2 ^ (- (e + k))) by nia.
  destruct (shr_fexp_spec r (e + k)) as (k2 & mrs2 & -> & Hk2 & Hek2 & Hsh2); [lia|].
  assert (Hfe2 : fexp prec emax (Zdigits2 r + (e + k)) ≤ 0)
    by (apply fexp_small; lia).
  destruct Hsh2 as (Hpos2 & Hle2 & _ & _).
  destruct (shr_m mrs2) as [|m|m]; [by left| |lia].
  right. exists m, (e + k + k2).
  assert (Hle0 : e + k + k2 ≤ 0) by lia.
  destruct (Z.leb_spec (e + k + k2) (emax - prec)); [|lia].
  split_and!; [done|done|].
  assert (0 < 2 ^ k2) by (apply Z.pow_pos_nonneg; lia).
  assert (0 < 2 ^ (- (e + k + k2))) by (apply Z.pow_pos_nonneg; lia).
  assert (Hsplit2 : 2 ^ (- (e + k)) = 2 ^ (- (e + k + k2)) * 2 ^ k2).
  { rewrite <- Z.pow_add_r by lia. f_equal; lia. }
  nia.
Qed.

End Rounding.

(** ** The bytes of the file *)

Section AudioFacts.
Import SpecFloat Utils.
Local Open Scope Z_scope.

Lemma land_255 v : Z.land v 255 = v mod 256.
Proof. by apply (Z.land_ones v 8). Qed.

Lemma shiftr_8 v : Z.shiftr v 8 = v / 256.
Proof. by apply (Z.shiftr_div_pow2 v 8). Qed.

Lemma le_bytes_2 v : le_bytes 2 v = int16_le v.
Proof. unfold int16_le. cbn [le_bytes]. by rewrite !land_255, !shiftr_8. Qed.

Lemma le_bytes_4 v : le_bytes 4 v = uint32_le v.
Proof.
  unfold uint32_le. cbn [le_bytes]. rewrite !land_255, !shiftr_8.
  rewrite !Z.div_div by lia. done.
Qed.

Lemma pack_unsigned_2 v : 0 ≤ v < 65536 → pack_unsigned 2 v = Some (int16_le v).
Proof.
  intros Hv. unfold pack_unsigned. change (2 ^ (8 * Z.of_nat 2)) with 65536.
  destruct (Z.leb_spec 0 v); [|lia]. destruct (Z.ltb_spec v 65536); [|lia].
  by rewrite le_bytes_2.
Qed.

Lemma pack_unsigned_4 v :
  0 ≤ v < 4294967296 → pack_unsigned 4 v = Some (uint32_le v).
Proof.
  intros Hv. unfold pack_unsigned. change (2 ^ (8 * Z.of_nat 4)) with 4294967296.
  destruct (Z.leb_spec 0 v); [|lia]. destruct (Z.ltb_spec v 4294967296); [|lia].
  by rewrite le_bytes_4.
Qed.

Lemma pack_unsigned_range width v :
  ¬ (0 ≤ v < 2 ^ (8 * Z.of_nat width)) → pack_unsigned width v = None.
Proof.
  intros Hv. unfold pack_unsigned.
  destruct (Z.leb_spec 0 v), (Z.ltb_spec v (2 ^ (8 * Z.of_nat width))); try done; lia.
Qed.

Lemma tobytes_int16 values : tobytes values = flat_map int16_le values.
Proof.
  unfold tobytes. induction values as [|v r IH]; [done|].
  cbn [flat_map]. by rewrite IH, le_bytes_2.
Qed.

Lemma length_flat_map_int16 values :
  length (flat_map int16_le values) = (2 * length values)%nat.
Proof. induction values as [|v r IH]; [done|]. cbn [flat_map]. rewrite length_app, IH. simpl. lia. Qed.

Lemma _write_header_pcm16 rate n :
  0 < rate < 2147483648 → 0 ≤ n → 36 + 2 * n < 4294967296 →
  _write_header 1 2 rate (2 * n) = Some (pcm16_mono_header rate n).
Proof.
  intros Hrate Hn Hlen. unfold _write_header, WAVE_FORMAT_PCM.
  replace (2 * n / (1 * 2) * 1 * 2) with (2 * n).
  2:{ change (1 * 2) with 2. rewrite (Z.mul_comm 2 n), Z.div_mul by done. lia. }
  replace (1 * rate * 2) with (2 * rate) by lia.
  change (1 * 2) with 2. change (2 * 8) with 16.
  rewrite !pack_unsigned_4, !pack_unsigned_2 by lia. done.
Qed.

Lemma length_pcm16_mono_header rate n : length (pcm16_mono_header rate n) = 44%nat.
Proof. done. Qed.

Lemma int_part_truncation x : int_part x = truncation x.
Proof.
  destruct x as [s|s| |s m e]; try done. unfold int_part, truncation. f_equal.
  destruct (Z.leb_spec 0 e).
  - rewrite Z.shiftl_mul_pow2 by done. by destruct s.
  - rewrite Z.shiftl_div_pow2 by lia. by destruct s.
Qed.

Lemma in_unit_range_finite s m e :
  in_unit_range (S754_finite s m e) = true → e ≤ 0 ∧ Z.pos m ≤ 2 ^ (- e).
Proof.
  unfold in_unit_range. intros Hx%Z.leb_le.
  destruct (Z_le_gt_dec e 0) as [He|He].
  - rewrite Z.max_r, Z.max_l in Hx by lia. change (2 ^ 0) with 1 in Hx. lia.
  - rewrite Z.max_l, Z.max_r in Hx by lia. change (2 ^ 0) with 1 in Hx.
    assert (2 ^ 1 ≤ 2 ^ e) by (apply Z.pow_le_mono_r; lia).
    change (2 ^ 1) with 2 in *. nia.
Qed.

Section Format.

Variables prec emax : Z.
Variable int16_of_undefined : spec_float → Z.
Hypothesis Hprec : 15 ≤ prec.
Hypothesis Hemax : prec ≤ emax.
Variables (my : positive) (ey : Z).
Hypothesis Hfactor : as_float prec emax 32767 = S754_finite false my ey.
Hypothesis Hey : ey ≤ 0.
Hypothesis Hmy : Z.pos my = 32767 * 2 ^ (- ey).

(** A sample of the unit range, times 32767, has an integer part
    between -32767 and 32767, and that is its [int16]. *)
Lemma scaled_sample x :
  in_unit_range x = true →
  ∃ v, truncation (SFmul prec emax x (as_float prec emax 32767)) = Some v
    ∧ -32767 ≤ v ≤ 32767
    ∧ astype_int16 int16_of_undefined (SFmul prec emax x (as_float prec emax 32767)) = v.
Proof.
  intros Hx. unfold astype_int16. rewrite int_part_truncation, Hfactor.
  destruct x as [s|s| |s m e]; try done.
  { exists 0. done. }
  apply in_unit_range_finite in Hx as [He Hm].
  cbn [SFmul].
  assert (0 < 2 ^ (- e)) by (apply Z.pow_pos_nonneg; lia).
  assert (0 < 2 ^ (- ey)) by (apply Z.pow_pos_nonneg; lia).
  destruct (binary_round_aux_int16 prec emax Hprec Hemax (xorb s false) (m * my) (e + ey))
    as [->|(m' & e' & -> & He' & Hm')].
  { lia. }
  { replace (- (e + ey)) with (- e + - ey) by lia. rewrite Z.pow_add_r by lia.
    rewrite Pos2Z.inj_mul. nia. }
  { exists 0. done. }
  assert (0 < 2 ^ (- e')) by (apply Z.pow_pos_nonneg; lia).
  assert (Hq : 0 ≤ Z.pos m' / 2 ^ (- e') ≤ 32767).
  { split; [apply Z.div_pos; lia|].
    assert (Z.pos m' / 2 ^ (- e') < 32768); [|lia].
    apply Z.div_lt_upper_bound; lia. }
  cbn [truncation]. destruct (Z.leb_spec 0 e').
  - assert (e' = 0) as -> by lia. change (2 ^ (- 0)) with 1 in *.
    change (2 ^ 0) with 1. rewrite Z.mul_1_r.
    destruct (xorb s false).
    + exists (- Z.pos m'). split_and!; [done|lia|lia|].
      destruct (Z.leb_spec (-32768) (- Z.pos m')), (Z.leb_spec (- Z.pos m') 32767); try done; lia.
    + exists (Z.pos m'). split_and!; [done|lia|lia|].
      destruct (Z.leb_spec (-32768) (Z.pos m')), (Z.leb_spec (Z.pos m') 32767); try done; lia.
  - generalize dependent (Z.pos m' / 2 ^ (- e')). intros q Hq.
    destruct (xorb s false).
    + exists (- q). split_and!; [done|lia|lia|].
      destruct (Z.leb_spec (-32768) (- q)), (Z.leb_spec (- q) 32767); try done; lia.
    + exists q. split_and!; [done|lia|lia|].
      destruct (Z.leb_spec (-32768) q), (Z.leb_spec q 32767); try done; lia.
Qed.

Lemma scaled_samples xs :
  Forall (λ x, in_unit_range x = true) xs →
  ∃ values,
    map (λ x, astype_int16 int16_of_undefined
                (SFmul prec emax x (as_float prec emax 32767))) xs = values
    ∧ Forall2 (λ x v, truncation (SFmul prec emax x (as_float prec emax 32767)) = Some v)
        xs values
    ∧ Forall (λ v, -32767 ≤ v ≤ 32767) values.
Proof.
  induction 1 as [|x xs Hx _ (values & Hmap & Hall & Hrange)].
  { exists []. by split_and!. }
  destruct (scaled_sample x Hx) as (v & Hv & Hvr & Hcast).
  exists (v :: values). split_and!.
  - cbn [map]. by rewrite Hcast, Hmap.
  - by constructor.
  - by constructor.
Qed.

Lemma audio_to_wav_bytes_spec xs rate :
  Forall (λ x, in_unit_range x = true) xs →
  0 < rate < 2 ^ 31 →
  36 + 2 * Z.of_nat (length xs) < 2 ^ 32 →
  ∃ values,
    audio_to_wav_bytes prec emax int16_of_undefined xs rate
      = Some (pcm16_mono_header rate (Z.of_nat (length xs))
              ++ flat_map int16_le values)
    ∧ Forall2 (λ x v, truncation (SFmul prec emax x (as_float prec emax 32767)) = Some v)
        xs values
    ∧ Forall (λ v, -32767 ≤ v ≤ 32767) values.
Proof.
  intros Hxs Hrate Hlen.
  destruct (scaled_samples xs Hxs) as (values & Hmap & Hall & Hrange).
  exists values. split_and!; [|done..].
  unfold audio_to_wav_bytes. rewrite Hmap, tobytes_int16, length_flat_map_int16.
  destruct (Z.leb_spec rate 0); [lia|].
  rewrite <- (Forall2_length _ _ _ Hall), Nat2Z.inj_mul.
  change (Z.of_nat 2) with 2. change (2 ^ 31) with 2147483648 in Hrate.
  change (2 ^ 32) with 4294967296 in Hlen.
  rewrite _write_header_pcm16 by lia. done.
Qed.

Lemma zero_samples xs values :
  Forall (λ x, ∃ s, x = S754_zero s) xs →
  Forall2 (λ x v, truncation (SFmul prec emax x (as_float prec emax 32767)) = Some v)
    xs values →
  values = replicate (length xs) 0.
Proof.
  intros Hzero Hall. induction Hall as [|x v xs values Hv _ IH]; [done|].
  apply Forall_cons in Hzero as [[s ->] Hzero].
  rewrite Hfactor in Hv. cbn in Hv. injection Hv as <-.
  cbn [length replicate]. by rewrite <- IH.
Qed.

End Format.

Lemma flat_map_int16_zeros n :
  flat_map int16_le (replicate n 0) = replicate (2 * n) 0.
Proof.
  induction n as [|n IH]; [done|].
  replace (2 * S n)%nat with (S (S (2 * n))) by lia.
  cbn [replicate flat_map]. by rewrite IH.
Qed.

Lemma as_float_32767_float32 :
  as_float 24 128 32767 = S754_finite false 16776704 (-9).
Proof. by vm_compute. Qed.

Lemma as_float_32767_float64 :
  as_float 53 1024 32767 = S754_finite false 9006924376834048 (-38).
Proof. by vm_compute. Qed.

(** What raises: a rate that is not positive, and a rate of [2 ^ 31] or
    more, whose bytes a second do not fit the header's field. *)
Lemma audio_to_wav_bytes_raises prec emax int16_of_undefined xs rate :
  rate ≤ 0 ∨ 2 ^ 31 ≤ rate →
  audio_to_wav_bytes prec emax int16_of_undefined xs rate = None.
Proof.
  intros Hrate. unfold audio_to_wav_bytes.
  destruct (Z.leb_spec rate 0); [done|]. destruct Hrate as [|Hrate]; [lia|].
  unfold _write_header.
  destruct (pack_unsigned 4 (36 + _)); [|done].
  change (pack_unsigned 4 16) with (Some (le_bytes 4 16)).
  change (pack_unsigned 2 WAVE_FORMAT_PCM) with (Some (le_bytes 2 1)).
  change (pack_unsigned 2 1) with (Some (le_bytes 2 1)).
  cbn [mbind option_bind].
  destruct (pack_unsigned 4 rate); [|done]. cbn [mbind option_bind].
  rewrite (pack_unsigned_range 4 (1 * rate * 2)); [done|].
  change (2 ^ (8 * Z.of_nat 4)) with 4294967296.
  change (2 ^ 31) with 2147483648 in Hrate. lia.
Qed.

(** C7 (amended).  [audio_to_wav_bytes] on a [float32] or [float64]
    tensor of samples between -1.0 and 1.0, at a sample rate from 1 to
    [2 ^ 31 - 1] and with a length that fits the header: the factor is
    the number 32767 exactly; the bytes returned are the 44 header bytes
    of a single-channel, 16-bit PCM file at that rate and then two bytes
    a sample, the low byte first; the value of a sample is the integer
    part, toward zero, of its correctly rounded product by 32767, and it
    lies between -32767 and 32767, so that nothing wraps and the platform's
    treatment of an overflow plays no part; samples that are all zero give
    values and bytes that are all zero; a sample 1.0 gives 32767 and a
    sample -1.0 gives -32767. *)
Theorem wav_of_unit_samples (prec emax : Z)
    (int16_of_undefined : spec_float → Z)
    (audio_tensor : list spec_float) (sample_rate : Z) :
  prec = 24 ∧ emax = 128 ∨ prec = 53 ∧ emax = 1024 →
  Forall (λ x, in_unit_range x = true) audio_tensor →
  0 < sample_rate < 2 ^ 31 →
  36 + 2 * Z.of_nat (length audio_tensor) < 2 ^ 32 →
  let factor := as_float prec emax 32767 in
  let n := length audio_tensor in
  (∃ m e, factor = S754_finite false m e ∧ e ≤ 0 ∧ Z.pos m = 32767 * 2 ^ (- e))
  ∧ ∃ values,
      audio_to_wav_bytes prec emax int16_of_undefined audio_tensor sample_rate
        = Some (pcm16_mono_header sample_rate (Z.of_nat n)
                ++ flat_map int16_le values)
      ∧ length (pcm16_mono_header sample_rate (Z.of_nat n)) = 44%nat
      ∧ length (flat_map int16_le values) = (2 * n)%nat
      ∧ Forall2 (λ x v, truncation (SFmul prec emax x factor) = Some v)
          audio_tensor values
      ∧ Forall (λ v, -32767 ≤ v ≤ 32767) values
      ∧ (Forall (λ x, ∃ s, x = S754_zero s) audio_tensor →
           values = replicate n 0
           ∧ flat_map int16_le values = replicate (2 * n) 0)
      ∧ (∀ i, audio_tensor !! i = Some (SFone prec emax) →
           values !! i = Some 32767)
      ∧ (∀ i, audio_tensor !! i = Some (SFopp (SFone prec emax)) →
           values !! i = Some (-32767)).
Proof.
  intros Hformat Hrange Hrate Hlen factor n.
  assert (Hfacts : ∃ my ey, factor = S754_finite false my ey ∧ ey ≤ 0
            ∧ Z.pos my = 32767 * 2 ^ (- ey) ∧ 15 ≤ prec ∧ prec ≤ emax
            ∧ truncation (SFmul prec emax (SFone prec emax) factor) = Some 32767
            ∧ truncation (SFmul prec emax (SFopp (SFone prec emax)) factor)
              = Some (-32767)).
  { destruct Hformat as [[-> ->]|[-> ->]]; subst factor.
    - exists 16776704%positive, (-9). by vm_compute.
    - exists 9006924376834048%positive, (-38). by vm_compute. }
  destruct Hfacts as (my & ey & Hfactor & Hey & Hmy & Hprec & Hemax & Hone & Hminus).
  split; [by exists my, ey|].
  destruct (audio_to_wav_bytes_spec prec emax int16_of_undefined Hprec Hemax
              my ey Hfactor Hey Hmy audio_tensor sample_rate Hrange Hrate Hlen)
    as (values & Hbytes & Hall & Hvalues).
  exists values. split_and!; try done.
  - rewrite length_flat_map_int16. by rewrite <- (Forall2_length _ _ _ Hall).
  - intros Hzero.
    rewrite (zero_samples prec emax my ey Hfactor audio_tensor values Hzero Hall).
    split; [done|]. by rewrite flat_map_int16_zeros.
  - intros i Hi. destruct (Forall2_lookup_l _ _ _ _ _ Hall Hi) as (v & Hv & Hx).
    rewrite Hv. fold factor in Hx. congruence.
  - intros i Hi. destruct (Forall2_lookup_l _ _ _ _ _ Hall Hi) as (v & Hv & Hx).
    rewrite Hv. fold factor in Hx. congruence.
Qed.

(** C7, witness: 0.0, 1.0 and -0.5 in a [float32] tensor, at 24000
    samples a second: the file of 50 bytes, with the values 0, 32767 and
    -16383. *)
Lemma wav_of_unit_samples_witness :
  audio_to_wav_bytes 24 128 zero_when_undefined three_samples 24000
  = Some [82; 73; 70; 70; 42; 0; 0; 0; 87; 65; 86; 69; 102; 109; 116; 32;
          16; 0; 0; 0; 1; 0; 1; 0; 192; 93; 0; 0; 128; 187; 0; 0; 2; 0;
          16; 0; 100; 97; 116; 97; 6; 0; 0; 0;
          0; 0; 255; 127; 1; 192].
Proof.
  destruct (wav_of_unit_samples 24 128 zero_when_undefined three_samples 24000)
    as (_ & values & Hbytes & _ & _ & Hall & _).
  - by left.
  - by repeat constructor.
  - done.
  - done.
  - apply Forall2_cons_inv_l in Hall as (v0 & r0 & H0 & Hall & ->).
    apply Forall2_cons_inv_l in Hall as (v1 & r1 & H1 & Hall & ->).
    apply Forall2_cons_inv_l in Hall as (v2 & r2 & H2 & Hall & ->).
    apply Forall2_nil_inv_l in Hall as ->.
    vm_compute in H0, H1, H2.
    injection H0 as <-. injection H1 as <-. injection H2 as <-.
    exact Hbytes.
Defined.

(** C7, counterexample: not every sample rate gives a file.  At the rate
    0 and at a negative rate [setframerate] raises, and at the rate
    [2 ^ 31] the bytes a second do not fit their field of the header:
    nothing is returned. *)
Lemma no_wav_at_rate_zero :
  audio_to_wav_bytes 24 128 zero_when_undefined three_samples 0 = None
  ∧ audio_to_wav_bytes 24 128 zero_when_undefined three_samples (-24000) = None
  ∧ audio_to_wav_bytes 24 128 zero_when_undefined three_samples (2 ^ 31) = None.
Proof. by vm_compute. Qed.

End AudioFacts.
